(** * libpag: bitmap sequence reader and YUV texture effect

    Shallow embedding of

      - [src/rendering/sequences/BitmapSequenceReader.cpp]
        (namespace [pag]): the incremental decode-and-cache engine that
        replays rectangular bitmap patches onto a persistent pixel buffer;
      - [tgfx/src/opengl/GLYUVTextureEffect.cpp] (namespace [tgfx]): the
        fragment processor that emits the YUV to RGB shader and uploads its
        uniforms.

    Integers of the program ([Frame] is [int64_t], widths and coordinates are
    [int]) are modelled in [Z].  The only arithmetic on a [Frame] is
    [lastDecodeFrame + 1] and [frame + 1] on values that are [-1] or a frame
    index handed in by the caller, so no wrap-around is written out for them;
    the byte offset of a patch is [int] and [size_t] arithmetic and is
    reduced modulo [2^32] and [2^64] where the code is.  The coordinates of
    a point are [float]s; they are modelled as rationals, that is as finite
    numbers: a NaN, which is not equal to itself, is not among them. *)

From Stdlib Require Import ZArith List Bool Lia String Ascii QArith Qminmax Lqa.
From Stdlib Require Import Strings.Byte.
Import ListNotations.

Local Open Scope Z_scope.

(** ** Outcome of code that indexes a [std::vector]

    [bitmapFrames[frame]] is unchecked: an index outside the vector has no
    defined behaviour.  The embedding makes that explicit. *)

Inductive Run (A : Type) : Type :=
| Done (a : A)
| OutOfBounds.

Arguments Done {A} a.
Arguments OutOfBounds {A}.

Definition bindRun {A B : Type} (m : Run A) (k : A -> Run B) : Run B :=
  match m with
  | Done a => k a
  | OutOfBounds => OutOfBounds
  end.

Notation "x <- m ;; k" := (bindRun m (fun x => k))
  (at level 61, m at next level, right associativity).

(** ** Collaborators of the reader (namespace [tgfx], declarations only) *)

Module ImageInfo.
Record t : Type := make { width : Z; height : Z; rowBytes : Z }.
End ImageInfo.

Module ImageCodec.
(** [readPixels dstInfo mem offset] stands for
    [codec->readPixels(dstInfo, base + offset)] where [mem] is the content
    of the buffer that starts at [base]: it yields the success flag and the
    content of the buffer afterwards. *)
Record t : Type := make {
  width : Z;
  height : Z;
  readPixels : ImageInfo.t -> list byte -> Z -> bool * list byte
}.
End ImageCodec.

Module PixelBuffer.
Record t : Type := make { info : ImageInfo.t; pixels : list byte }.
End PixelBuffer.

(** [Pixmap::eraseAll]: every byte of the buffer becomes zero, that is every
    pixel becomes fully transparent. *)
Definition eraseAll (mem : list byte) : list byte :=
  map (fun _ => x00) mem.

(** ** Data model of a bitmap sequence (namespace [pag]) *)

Definition Frame : Type := Z.

Module BitmapRect.
Record t : Type := make { x : Z; y : Z; fileBytes : list byte }.
End BitmapRect.

Module BitmapFrame.
Record t : Type := make { isKeyframe : bool; bitmaps : list BitmapRect.t }.
End BitmapFrame.

Module BitmapSequence.
Record t : Type := make { width : Z; height : Z; frames : list BitmapFrame.t }.
End BitmapSequence.

(** [bitmapFrames[frame]]: the index is converted to [size_t], so a negative
    [frame] is as far out of range as one beyond the end. *)
Definition frameAt (bitmapFrames : list BitmapFrame.t) (frame : Frame)
  : option BitmapFrame.t :=
  if frame <? 0 then None else nth_error bitmapFrames (Z.to_nat frame).

(** ** The reader *)

Module BitmapSequenceReader.

(** The members the two methods use.  [pixelBuffer] is a shared pointer:
    [None] is [nullptr]. *)
Record t : Type := make {
  sequence : BitmapSequence.t;
  pixelBuffer : option PixelBuffer.t;
  lastDecodeFrame : Frame
}.

(** What a call does, in program order. *)
Inductive Event : Type :=
| SetLastDecodeFrame (f : Frame)
| MakeFrom (fileBytes : list byte)
| EraseAll
| ReadPixels (offset : Z) (result : bool).

(** State of the replay loops: [ok = false] is the early
    [return nullptr]. *)
Record Replay : Type := mkReplay {
  ok : bool;
  pixels : list byte;
  events : list Event
}.

Definition after (evs : list Event) (r : Replay) : Replay :=
  mkReplay (ok r) (pixels r) (evs ++ events r).

(** Modelled from the spec: the initial value of [lastDecodeFrame] is given
    in the class declaration, which is not among the sources.  The marker is
    "initially none", and [onMakeBuffer] writes "none" as [-1]. *)
Definition noFrame : Frame := -1.

(** The constructor: [made] is what [PixelBuffer::Make] returned (possibly
    [nullptr]); the buffer is erased and no frame is marked as decoded. *)
Definition construct (sequence : BitmapSequence.t) (made : option PixelBuffer.t) : t :=
  make sequence
       (option_map (fun pb => PixelBuffer.make (PixelBuffer.info pb)
                                               (eraseAll (PixelBuffer.pixels pb)))
                   made)
       noFrame.

(** The body of the loop of [findStartFrame], for [frame] running from
    [n - 1] down to [0]; leaving the loop without a [break] keeps
    [startFrame = 0]. *)
Fixpoint findStartFrame_loop (bitmapFrames : list BitmapFrame.t)
         (lastDecodeFrame : Frame) (n : nat) : Run Frame :=
  match n with
  | O => Done 0
  | S k =>
      let frame := Z.of_nat k in
      if frame =? lastDecodeFrame + 1 then Done frame
      else
        match frameAt bitmapFrames frame with
        | None => OutOfBounds
        | Some bitmapFrame =>
            if BitmapFrame.isKeyframe bitmapFrame then Done frame
            else findStartFrame_loop bitmapFrames lastDecodeFrame k
        end
  end.

Definition findStartFrame (reader : t) (targetFrame : Frame) : Run Frame :=
  findStartFrame_loop (BitmapSequence.frames (sequence reader))
                      (lastDecodeFrame reader)
                      (Z.to_nat (targetFrame + 1)).

(** The value of an [int] expression: 32 bits, two's complement. *)
Definition wrapInt (z : Z) : Z := (z + 2 ^ 31) mod 2 ^ 32 - 2 ^ 31.

(** [bitmap.rowBytes() * bitmapRect->y + bitmapRect->x * 4]: [rowBytes()] is
    a [size_t], so [y] is converted and the product and the sum are taken
    modulo [2^64]; [bitmapRect->x * 4] is multiplied as [int], in 32 bits,
    before it is converted. *)
Definition patchOffset (info : ImageInfo.t) (bitmapRect : BitmapRect.t) : Z :=
  (ImageInfo.rowBytes info * BitmapRect.y bitmapRect
   + wrapInt (BitmapRect.x bitmapRect * 4))
    mod 2 ^ 64.

Section Replaying.

(** [tgfx::ImageCodec::MakeFrom]: [None] is the null codec of an empty
    frame. *)
Variable makeFrom : list byte -> option ImageCodec.t.

(** The inner loop of [onMakeBuffer] over the patches of one frame. *)
Fixpoint replayBitmaps (info : ImageInfo.t) (isKeyframe : bool)
         (bitmaps : list BitmapRect.t) (firstRead : bool) (mem : list byte)
  : Replay :=
  match bitmaps with
  | [] => mkReplay true mem []
  | bitmapRect :: rest =>
      let imageBytes := BitmapRect.fileBytes bitmapRect in
      match makeFrom imageBytes with
      | None =>
          after [MakeFrom imageBytes]
                (replayBitmaps info isKeyframe rest firstRead mem)
      | Some codec =>
          let clear :=
            firstRead && isKeyframe &&
            negb ((ImageCodec.width codec =? ImageInfo.width info) &&
                  (ImageCodec.height codec =? ImageInfo.height info)) in
          let mem1 := if clear then eraseAll mem else mem in
          let offset := patchOffset info bitmapRect in
          let '(result, mem2) := ImageCodec.readPixels codec info mem1 offset in
          let evs := MakeFrom imageBytes
                       :: (if clear then [EraseAll] else [])
                       ++ [ReadPixels offset result] in
          if result
          then after evs (replayBitmaps info isKeyframe rest false mem2)
          else mkReplay false mem2 evs
      end
  end.

(** The outer loop: [n] frames starting at [frame]. *)
Fixpoint replayFrames (bitmapFrames : list BitmapFrame.t) (info : ImageInfo.t)
         (n : nat) (frame : Frame) (mem : list byte) : Run Replay :=
  match n with
  | O => Done (mkReplay true mem [])
  | S k =>
      match frameAt bitmapFrames frame with
      | None => OutOfBounds
      | Some bitmapFrame =>
          let r := replayBitmaps info (BitmapFrame.isKeyframe bitmapFrame)
                                 (BitmapFrame.bitmaps bitmapFrame) true mem in
          if ok r
          then r' <- replayFrames bitmapFrames info k (frame + 1) (pixels r) ;;
               Done (after (events r) r')
          else Done r
      end
  end.

(** What [onMakeBuffer] hands back: the returned pointer ([None] is
    [nullptr]; otherwise the buffer, with its content at the time of the
    return), the reader afterwards and what was done. *)
Record Call : Type := mkCall {
  result : option PixelBuffer.t;
  reader : t;
  trace : list Event
}.

Definition onMakeBuffer (targetFrame : Frame) (rd : t) : Run Call :=
  if lastDecodeFrame rd =? targetFrame then
    Done (mkCall (pixelBuffer rd) rd [])
  else
    match pixelBuffer rd with
    | None => Done (mkCall None rd [])
    | Some pb =>
        startFrame <- findStartFrame rd targetFrame ;;
        let bitmapFrames := BitmapSequence.frames (sequence rd) in
        let info := PixelBuffer.info pb in
        r <- replayFrames bitmapFrames info
               (Z.to_nat (targetFrame - startFrame + 1)) startFrame
               (PixelBuffer.pixels pb) ;;
        let pb' := PixelBuffer.make info (pixels r) in
        if ok r
        then Done (mkCall (Some pb')
                          (make (sequence rd) (Some pb') targetFrame)
                          (SetLastDecodeFrame (-1) :: events r
                             ++ [SetLastDecodeFrame targetFrame]))
        else Done (mkCall None
                          (make (sequence rd) (Some pb') (-1))
                          (SetLastDecodeFrame (-1) :: events r))
    end.

End Replaying.

End BitmapSequenceReader.


(** ** The YUV texture effect (namespace [tgfx]) *)

Module Point.
Record t : Type := make { x : Q; y : Q }.

Definition Zero : t := make 0 0.

(** [operator==] on points compares the two coordinates.  The coordinates
    are rationals here, so a point is equal to itself; a [float] NaN, which
    [==] tells apart from itself, has no counterpart, and what is proved with
    [eqb] is proved of points with finite coordinates. *)
Definition eqb (a b : t) : bool :=
  Qeq_bool (x a) (x b) && Qeq_bool (y a) (y b).
End Point.

Module YUVPixelFormat.
(** Modelled from the spec: the declaration of the enumeration is not among
    the sources.  The packing scheme is I420 or NV12; [emitCode] tests for
    each of the two and has no final [else], which [Unknown] takes. *)
Inductive t : Type := Unknown | I420 | NV12.

Definition eqb (a b : t) : bool :=
  match a, b with
  | Unknown, Unknown | I420, I420 | NV12, NV12 => true
  | _, _ => false
  end.
End YUVPixelFormat.

Module YUVColorSpace.
(** Modelled from the spec: the declaration of the enumeration is not among
    the sources.  The seven tags are the [case] labels of [onSetData]; the
    spec speaks of an eighth, unrecognized tag, which takes the [default]
    branch: [Unknown]. *)
Inductive t : Type :=
| Unknown
| BT601_LIMITED | BT601_FULL
| BT709_LIMITED | BT709_FULL
| BT2020_LIMITED | BT2020_FULL
| JPEG_FULL.

Definition eqb (a b : t) : bool :=
  match a, b with
  | Unknown, Unknown
  | BT601_LIMITED, BT601_LIMITED | BT601_FULL, BT601_FULL
  | BT709_LIMITED, BT709_LIMITED | BT709_FULL, BT709_FULL
  | BT2020_LIMITED, BT2020_LIMITED | BT2020_FULL, BT2020_FULL
  | JPEG_FULL, JPEG_FULL => true
  | _, _ => false
  end.
End YUVColorSpace.

(** Modelled from the spec: [IsLimitedYUVColorRange] is declared outside the
    sources; the luma offset is subtracted "when the tag is a limited
    range". *)
Definition IsLimitedYUVColorRange (colorSpace : YUVColorSpace.t) : bool :=
  match colorSpace with
  | YUVColorSpace.BT601_LIMITED
  | YUVColorSpace.BT709_LIMITED
  | YUVColorSpace.BT2020_LIMITED => true
  | _ => false
  end.

Module YUVTexture.
Record t : Type := make {
  pixelFormat : YUVPixelFormat.t;
  colorSpace : YUVColorSpace.t;
  getTextureCoord : Q -> Q -> Point.t
}.
End YUVTexture.

Module YUVTextureEffect.
Record t : Type := make { texture : YUVTexture.t; alphaStart : Point.t }.
End YUVTextureEffect.

(** A uniform handle is an index into the uniforms of the program; the
    default-constructed handle ([None]) is not valid. *)
Definition UniformHandle : Type := option nat.

Definition isValid (h : UniformHandle) : bool :=
  match h with Some _ => true | None => false end.

Inductive ShaderVarType : Type := Float2 | Float3x3.

(** What the fragment shader builder has been given: text, and texture
    lookups whose spelling is the builder's. *)
Inductive ShaderPiece : Type :=
| Code (text : string)
| TextureLookup (sampler : string) (coord : string).

Module Program.
Record t : Type := make {
  code : list ShaderPiece;
  uniforms : list (ShaderVarType * string)
}.
End Program.

Definition codeAppend (text : string) (p : Program.t) : Program.t :=
  Program.make (Program.code p ++ [Code text]) (Program.uniforms p).

Definition appendTextureLookup (sampler coord : string) (p : Program.t) : Program.t :=
  Program.make (Program.code p ++ [TextureLookup sampler coord]) (Program.uniforms p).

Module EmitArgs.
Record t : Type := make {
  fragmentProcessor : YUVTextureEffect.t;
  textureSamplers : list string;
  transformedCoords : list string;
  outputColor : string;
  inputColor : string
}.
End EmitArgs.

(** Indexing the vectors [textureSamplers] and [transformedCoords] of the
    arguments. *)
Definition elementAt {A : Type} (v : list A) (i : nat) : Run A :=
  match nth_error v i with
  | Some a => Done a
  | None => OutOfBounds
  end.

Definition newline : string := String (ascii_of_nat 10) EmptyString.

Local Open Scope string_scope.

Module GLYUVTextureEffect.

Record t : Type := make {
  alphaStartUniform : UniformHandle;
  mat3ColorConversionUniform : UniformHandle;
  alphaStartPrev : Point.t;
  colorSpacePrev : YUVColorSpace.t
}.

Section Emitting.

(** The name under which the uniform handler declares a uniform in the
    shader (its [outName]). *)
Variable mangledName : string -> string.

(** [uniformHandler->addUniform(ShaderFlags::Fragment, type, name, &outName)]. *)
Definition addUniform (type : ShaderVarType) (name : string) (p : Program.t)
  : UniformHandle * string * Program.t :=
  (Some (List.length (Program.uniforms p)),
   mangledName name,
   Program.make (Program.code p) (Program.uniforms p ++ [(type, name)])).

Definition emitCode (args : EmitArgs.t) (self : t) (p : Program.t)
  : Run (t * Program.t) :=
  let yuvFP := EmitArgs.fragmentProcessor args in
  let yuvTexture := YUVTextureEffect.texture yuvFP in
  coord0 <- elementAt (EmitArgs.transformedCoords args) 0 ;;
  sampler0 <- elementAt (EmitArgs.textureSamplers args) 0 ;;
  let p := codeAppend "vec3 yuv;" p in
  let p := codeAppend "yuv.x = " p in
  let p := appendTextureLookup sampler0 coord0 p in
  let p := codeAppend ".r;" p in
  p <- (if YUVPixelFormat.eqb (YUVTexture.pixelFormat yuvTexture) YUVPixelFormat.I420
        then
          sampler1 <- elementAt (EmitArgs.textureSamplers args) 1 ;;
          let p := codeAppend "yuv.y = " p in
          let p := appendTextureLookup sampler1 coord0 p in
          let p := codeAppend ".r;" p in
          sampler2 <- elementAt (EmitArgs.textureSamplers args) 2 ;;
          let p := codeAppend "yuv.z = " p in
          let p := appendTextureLookup sampler2 coord0 p in
          Done (codeAppend ".r;" p)
        else if YUVPixelFormat.eqb (YUVTexture.pixelFormat yuvTexture) YUVPixelFormat.NV12
        then
          sampler1 <- elementAt (EmitArgs.textureSamplers args) 1 ;;
          let p := codeAppend "yuv.yz = " p in
          let p := appendTextureLookup sampler1 coord0 p in
          Done (codeAppend ".ra;" p)
        else Done p) ;;
  let p := if IsLimitedYUVColorRange (YUVTexture.colorSpace yuvTexture)
           then codeAppend "yuv.x -= (16.0 / 255.0);" p
           else p in
  let p := codeAppend "yuv.yz -= vec2(0.5, 0.5);" p in
  let '(mat3, mat3Name, p) := addUniform Float3x3 "Mat3ColorConversion" p in
  let p := codeAppend ("vec3 rgb = clamp(" ++ mat3Name ++ " * yuv, 0.0, 1.0);") p in
  if Point.eqb (YUVTextureEffect.alphaStart yuvFP) Point.Zero
  then
    let p := codeAppend (EmitArgs.outputColor args ++ " = vec4(rgb, 1.0) * "
                           ++ EmitArgs.inputColor args ++ ";") p in
    Done (make (alphaStartUniform self) mat3
               (alphaStartPrev self) (colorSpacePrev self), p)
  else
    let '(alphaStartU, alphaStartName, p) := addUniform Float2 "AlphaStart" p in
    let alphaVertexColor := "alphaVertexColor" in
    let p := codeAppend ("vec2 " ++ alphaVertexColor ++ " = " ++ coord0 ++ " + "
                           ++ alphaStartName ++ ";") p in
    let p := codeAppend "float yuv_a = " p in
    let p := appendTextureLookup sampler0 alphaVertexColor p in
    let p := codeAppend ".r;" p in
    let p := codeAppend
               ("// 为避免因压缩误差、精度等原因造成不透明变成部分透明（比如255变成254），"
                  ++ newline) p in
    let p := codeAppend ("// 下面进行了减1.0/255.0的精度修正。" ++ newline) p in
    let p := codeAppend "yuv_a = (yuv_a - 16.0/255.0) / (219.0/255.0 - 1.0/255.0);" p in
    let p := codeAppend "yuv_a = clamp(yuv_a, 0.0, 1.0);" p in
    let p := codeAppend (EmitArgs.outputColor args ++ " = vec4(rgb * yuv_a, yuv_a) * "
                           ++ EmitArgs.inputColor args ++ ";") p in
    Done (make alphaStartU mat3 (alphaStartPrev self) (colorSpacePrev self), p).

End Emitting.

Local Open Scope Q_scope.

Definition ColorConversion601LimitRange : list Q :=
  [1.164384; 1.164384; 1.164384; 0.0; -0.391762; 2.017232; 1.596027; -0.812968; 0.0].

Definition ColorConversion601FullRange : list Q :=
  [1.0; 1.0; 1.0; 0.0; -0.344136; 1.772; 1.402; -0.714136; 0.0].

Definition ColorConversion709LimitRange : list Q :=
  [1.164384; 1.164384; 1.164384; 0.0; -0.213249; 2.112402; 1.792741; -0.532909; 0.0].

Definition ColorConversion709FullRange : list Q :=
  [1.0; 1.0; 1.0; 0.0; -0.187324; 1.8556; 1.5748; -0.468124; 0.0].

Definition ColorConversion2020LimitRange : list Q :=
  [1.164384; 1.164384; 1.164384; 0.0; -0.187326; 2.141772; 1.678674; -0.650424; 0.0].

Definition ColorConversion2020FullRange : list Q :=
  [1.0; 1.0; 1.0; 0.0; -0.164553; 1.8814; 1.4746; -0.571353; 0.0].

Definition ColorConversionJPEGFullRange : list Q :=
  [1.0; 1.0; 1.0; 0.0; -0.344136; 1.772000; 1.402; -0.714136; 0.0].

(** The calls [onSetData] makes on the program data manager. *)
Inductive GLCall : Type :=
| Set2f (handle : UniformHandle) (v0 v1 : Q)
| SetMatrix3f (handle : UniformHandle) (matrix : list Q).

(** The first half of [onSetData]: the alpha start point. *)
Definition setAlphaStart (yuvFP : YUVTextureEffect.t) (self : t) : t * list GLCall :=
  if isValid (alphaStartUniform self) then
    let alphaStart :=
      YUVTexture.getTextureCoord (YUVTextureEffect.texture yuvFP)
        (Point.x (YUVTextureEffect.alphaStart yuvFP))
        (Point.y (YUVTextureEffect.alphaStart yuvFP)) in
    if negb (Point.eqb alphaStart (alphaStartPrev self)) then
      (make (alphaStartUniform self) (mat3ColorConversionUniform self)
            alphaStart (colorSpacePrev self),
       [Set2f (alphaStartUniform self) (Point.x alphaStart) (Point.y alphaStart)])
    else (self, [])
  else (self, []).

(** The second half: the conversion matrix. *)
Definition setColorConversion (yuvFP : YUVTextureEffect.t) (self : t) : t * list GLCall :=
  let colorSpace := YUVTexture.colorSpace (YUVTextureEffect.texture yuvFP) in
  if negb (YUVColorSpace.eqb colorSpace (colorSpacePrev self)) then
    let self := make (alphaStartUniform self) (mat3ColorConversionUniform self)
                     (alphaStartPrev self) colorSpace in
    let mat3 := mat3ColorConversionUniform self in
    match colorSpace with
    | YUVColorSpace.BT601_LIMITED =>
        (self, [SetMatrix3f mat3 ColorConversion601LimitRange])
    | YUVColorSpace.BT601_FULL =>
        (self, [SetMatrix3f mat3 ColorConversion601FullRange])
    | YUVColorSpace.BT709_LIMITED =>
        (self, [SetMatrix3f mat3 ColorConversion709LimitRange])
    | YUVColorSpace.BT709_FULL =>
        (self, [SetMatrix3f mat3 ColorConversion709FullRange])
    | YUVColorSpace.BT2020_LIMITED =>
        (self, [SetMatrix3f mat3 ColorConversion2020LimitRange])
    | YUVColorSpace.BT2020_FULL =>
        (self, [SetMatrix3f mat3 ColorConversion2020FullRange])
    | YUVColorSpace.JPEG_FULL =>
        (self, [SetMatrix3f mat3 ColorConversionJPEGFullRange])
    | _ => (self, [])
    end
  else (self, []).

Definition onSetData (fragmentProcessor : YUVTextureEffect.t) (self : t)
  : t * list GLCall :=
  let '(self, calls1) := setAlphaStart fragmentProcessor self in
  let '(self, calls2) := setColorConversion fragmentProcessor self in
  (self, (calls1 ++ calls2)%list).

(** GLSL [clamp(x, minVal, maxVal)] is [min(max(x, minVal), maxVal)]. *)
Definition clamp (x minVal maxVal : Q) : Q := Qmin (Qmax x minVal) maxVal.

(** What the two statements

      [yuv_a = (yuv_a - 16.0/255.0) / (219.0/255.0 - 1.0/255.0);]
      [yuv_a = clamp(yuv_a, 0.0, 1.0);]

    that [emitCode] appends compute from the sampled [yuv_a], in exact
    arithmetic. *)
Definition alphaBeforeClamp (yuv_a : Q) : Q :=
  (yuv_a - 16.0/255.0) / (219.0/255.0 - 1.0/255.0).

Definition alphaCorrection (yuv_a : Q) : Q :=
  let yuv_a := alphaBeforeClamp yuv_a in
  clamp yuv_a 0.0 1.0.

Local Close Scope Q_scope.

End GLYUVTextureEffect.

Local Close Scope string_scope.
Local Open Scope list_scope.

(** ** The uniforms a program has bound *)

Inductive UniformValue : Type :=
| Vec2 (v0 v1 : Q)
| Mat3 (matrix : list Q).

Definition ProgramData : Type := UniformHandle -> option UniformValue.

Definition handle_eqb (a b : UniformHandle) : bool :=
  match a, b with
  | Some i, Some j => Nat.eqb i j
  | None, None => true
  | _, _ => false
  end.

(** The effect of one call of the program data manager. *)
Definition perform (call : GLYUVTextureEffect.GLCall) (data : ProgramData) : ProgramData :=
  match call with
  | GLYUVTextureEffect.Set2f h v0 v1 =>
      fun h' => if handle_eqb h h' then Some (Vec2 v0 v1) else data h'
  | GLYUVTextureEffect.SetMatrix3f h m =>
      fun h' => if handle_eqb h h' then Some (Mat3 m) else data h'
  end.

Definition performAll (calls : list GLYUVTextureEffect.GLCall) (data : ProgramData)
  : ProgramData :=
  fold_left (fun d c => perform c d) calls data.

(** The matrix uploads among the calls. *)
Definition matrixUploads (calls : list GLYUVTextureEffect.GLCall)
  : list (UniformHandle * list Q) :=
  flat_map (fun c => match c with
                     | GLYUVTextureEffect.SetMatrix3f h m => [(h, m)]
                     | _ => []
                     end) calls.

(** ** Vocabulary of the properties *)

Import BitmapSequenceReader.

(** A frame index at which the backward scan of [findStartFrame] stops. *)
Definition stopsAt (bitmapFrames : list BitmapFrame.t) (lastDecodeFrame : Frame)
           (s : Frame) : Prop :=
  s = lastDecodeFrame + 1 \/
  exists bitmapFrame,
    frameAt bitmapFrames s = Some bitmapFrame /\
    BitmapFrame.isKeyframe bitmapFrame = true.

(** The decoded size of a patch is not the size of the canvas. *)
Definition sizeDiffers (codec : ImageCodec.t) (info : ImageInfo.t) : bool :=
  negb ((ImageCodec.width codec =? ImageInfo.width info) &&
        (ImageCodec.height codec =? ImageInfo.height info)).

(** The first patch of a frame whose bytes give a codec. *)
Fixpoint firstCodec (makeFrom : list byte -> option ImageCodec.t)
         (bitmaps : list BitmapRect.t) : option (BitmapRect.t * ImageCodec.t) :=
  match bitmaps with
  | [] => None
  | bitmapRect :: rest =>
      match makeFrom (BitmapRect.fileBytes bitmapRect) with
      | Some codec => Some (bitmapRect, codec)
      | None => firstCodec makeFrom rest
      end
  end.

(** Reading the trace of a call. *)
Definition isMarker (e : Event) : bool :=
  match e with SetLastDecodeFrame _ => true | _ => false end.

Definition isRead (e : Event) : bool :=
  match e with ReadPixels _ _ => true | _ => false end.

Definition isFailedRead (e : Event) : bool :=
  match e with ReadPixels _ false => true | _ => false end.

Definition isErase (e : Event) : bool :=
  match e with EraseAll => true | _ => false end.

Definition decodes (evs : list Event) : list (list byte) :=
  flat_map (fun e => match e with MakeFrom b => [b] | _ => [] end) evs.

Definition erasures (evs : list Event) : nat :=
  List.length (filter isErase evs).

(** The pixel reads of a trace, in order: offset and outcome. *)
Definition reads (evs : list Event) : list (Z * bool) :=
  flat_map (fun e => match e with ReadPixels o b => [(o, b)] | _ => [] end) evs.

(** The patch has a codec: its bytes are not those of an empty frame. *)
Definition hasCodec (makeFrom : list byte -> option ImageCodec.t)
           (bitmapRect : BitmapRect.t) : bool :=
  match makeFrom (BitmapRect.fileBytes bitmapRect) with
  | Some _ => true
  | None => false
  end.

(** The patches of these frames that have a codec, in replay order. *)
Definition codecPatches (makeFrom : list byte -> option ImageCodec.t)
           (fs : list BitmapFrame.t) : list BitmapRect.t :=
  flat_map (fun f => filter (hasCodec makeFrom) (BitmapFrame.bitmaps f)) fs.

(** The frames [startFrame .. targetFrame] of a sequence. *)
Definition framesBetween (bitmapFrames : list BitmapFrame.t)
           (startFrame targetFrame : Frame) : list BitmapFrame.t :=
  firstn (Z.to_nat (targetFrame - startFrame + 1))
         (skipn (Z.to_nat startFrame) bitmapFrames).

(** The bytes of every patch of these frames, in replay order. *)
Definition patchBytes (fs : list BitmapFrame.t) : list (list byte) :=
  flat_map (fun f => map BitmapRect.fileBytes (BitmapFrame.bitmaps f)) fs.

(** [readPixels] of [codec] at [offset] changes no byte outside [region]. *)
Definition paintsWithin (codec : ImageCodec.t) (info : ImageInfo.t) (offset : Z)
           (region : nat -> Prop) : Prop :=
  forall mem i,
    ~ region i ->
    nth i (snd (ImageCodec.readPixels codec info mem offset)) x00 = nth i mem x00.

(** [readPixels] of [codec] at [offset] rewrites the whole buffer: what it
    leaves does not depend on what the buffer held. *)
Definition overwritesAll (codec : ImageCodec.t) (info : ImageInfo.t) (offset : Z) : Prop :=
  forall mem1 mem2,
    List.length mem1 = List.length mem2 ->
    ImageCodec.readPixels codec info mem1 offset =
    ImageCodec.readPixels codec info mem2 offset.

(** No codec resizes the buffer it writes into. *)
Definition keepsSize (makeFrom : list byte -> option ImageCodec.t) : Prop :=
  forall bytes codec info mem offset,
    makeFrom bytes = Some codec ->
    List.length (snd (ImageCodec.readPixels codec info mem offset)) = List.length mem.

(** Replaying a keyframe starts from a canvas that does not depend on what
    was painted before: its first decodable patch makes the reader erase the
    canvas, or rewrites all of it. *)
Definition repaints (makeFrom : list byte -> option ImageCodec.t)
           (info : ImageInfo.t) (bitmapFrame : BitmapFrame.t) : Prop :=
  BitmapFrame.isKeyframe bitmapFrame = true /\
  exists bitmapRect codec,
    firstCodec makeFrom (BitmapFrame.bitmaps bitmapFrame) = Some (bitmapRect, codec) /\
    (sizeDiffers codec info = true \/
     overwritesAll codec info (patchOffset info bitmapRect)).

(** *** Three sentences of the specification, as they are worded

    Requests outside the frame range, or made without a canvas, produce no
    result. *)
Definition rejectsInvalidRequests (makeFrom : list byte -> option ImageCodec.t) : Prop :=
  forall (targetFrame : Frame) (rd : BitmapSequenceReader.t),
    targetFrame < 0 \/
    Z.of_nat (List.length (BitmapSequence.frames (sequence rd))) <= targetFrame \/
    pixelBuffer rd = None ->
    exists call,
      onMakeBuffer makeFrom targetFrame rd = Done call /\ result call = None.

(** A call for [F] followed by a call for [F - k] leaves the canvas a call
    for [F - k] on a freshly constructed reader leaves. *)
Definition backwardJumpAsCold (makeFrom : list byte -> option ImageCodec.t) : Prop :=
  forall (sequence : BitmapSequence.t) (canvas : PixelBuffer.t) (F k : Frame)
         (call1 call2 cold : Call),
    0 < k ->
    onMakeBuffer makeFrom F (construct sequence (Some canvas)) = Done call1 ->
    onMakeBuffer makeFrom (F - k) (reader call1) = Done call2 ->
    onMakeBuffer makeFrom (F - k) (construct sequence (Some canvas)) = Done cold ->
    pixelBuffer (reader call2) = pixelBuffer (reader cold).

(** The matrix the specification assigns to a tag: one for each of the
    seven tags, none for an unrecognized one. *)
Definition conversionMatrix (tag : YUVColorSpace.t) : option (list Q) :=
  match tag with
  | YUVColorSpace.BT601_LIMITED => Some GLYUVTextureEffect.ColorConversion601LimitRange
  | YUVColorSpace.BT601_FULL => Some GLYUVTextureEffect.ColorConversion601FullRange
  | YUVColorSpace.BT709_LIMITED => Some GLYUVTextureEffect.ColorConversion709LimitRange
  | YUVColorSpace.BT709_FULL => Some GLYUVTextureEffect.ColorConversion709FullRange
  | YUVColorSpace.BT2020_LIMITED => Some GLYUVTextureEffect.ColorConversion2020LimitRange
  | YUVColorSpace.BT2020_FULL => Some GLYUVTextureEffect.ColorConversion2020FullRange
  | YUVColorSpace.JPEG_FULL => Some GLYUVTextureEffect.ColorConversionJPEGFullRange
  | YUVColorSpace.Unknown => None
  end.

(** Applying the uniforms for one of the seven tags uploads its matrix. *)
Definition uploadsMatrixOfTag : Prop :=
  forall (yuvFP : YUVTextureEffect.t) (self : GLYUVTextureEffect.t) (matrix : list Q),
    conversionMatrix (YUVTexture.colorSpace (YUVTextureEffect.texture yuvFP))
    = Some matrix ->
    matrixUploads (snd (GLYUVTextureEffect.onSetData yuvFP self))
    = [(GLYUVTextureEffect.mat3ColorConversionUniform self, matrix)].

(** The shape of the trace of a replay that failed: it ends with the failed
    pixel read, the only one, and the codec was asked for a first part of
    the patches [all] and for no other. *)
Definition stoppedAt (evs : list Event) (all : list (list byte)) : Prop :=
  (exists pre offset,
      evs = pre ++ [ReadPixels offset false] /\ existsb isFailedRead pre = false) /\
  exists rest, all = decodes evs ++ rest.

(** *** Histories of requests

    Every keyframe of the sequence repaints the canvas, and the sequence
    starts with a keyframe. *)
Definition wellKeyed (makeFrom : list byte -> option ImageCodec.t)
           (info : ImageInfo.t) (bitmapFrames : list BitmapFrame.t) : Prop :=
  (exists first,
      frameAt bitmapFrames 0 = Some first /\ BitmapFrame.isKeyframe first = true) /\
  forall k bitmapFrame,
    frameAt bitmapFrames k = Some bitmapFrame ->
    BitmapFrame.isKeyframe bitmapFrame = true ->
    repaints makeFrom info bitmapFrame.

(** The reader [rd] holds what the reader [fresh], asked once for the frame
    [rd] decoded last, would hold: the same sequence, a canvas of the same
    geometry and size and, unless no frame is marked as decoded, the very
    content [fresh] would return. *)
Definition inSync (makeFrom : list byte -> option ImageCodec.t)
           (fresh rd : BitmapSequenceReader.t) : Prop :=
  sequence rd = sequence fresh /\
  exists pb0 pb,
    pixelBuffer fresh = Some pb0 /\
    pixelBuffer rd = Some pb /\
    PixelBuffer.info pb = PixelBuffer.info pb0 /\
    List.length (PixelBuffer.pixels pb) = List.length (PixelBuffer.pixels pb0) /\
    (lastDecodeFrame rd = -1 \/
     (0 <= lastDecodeFrame rd /\
      exists cold,
        onMakeBuffer makeFrom (lastDecodeFrame rd) fresh = Done cold /\
        result cold = Some pb)).

(** A client asking for one frame after the other. *)
Fixpoint serve (makeFrom : list byte -> option ImageCodec.t)
         (targets : list Frame) (rd : BitmapSequenceReader.t)
  : Run BitmapSequenceReader.t :=
  match targets with
  | [] => Done rd
  | targetFrame :: rest =>
      call <- onMakeBuffer makeFrom targetFrame rd ;;
      serve makeFrom rest (reader call)
  end.

(** *** Shaders and bound uniforms

    The planes a packing scheme samples: the samplers [emitCode] indexes. *)
Definition planes (pixelFormat : YUVPixelFormat.t) : nat :=
  match pixelFormat with
  | YUVPixelFormat.I420 => 3
  | YUVPixelFormat.NV12 => 2
  | YUVPixelFormat.Unknown => 1
  end.

(** The texture lookups of a shader, in order: sampler and coordinate. *)
Definition lookups (code : list ShaderPiece) : list (string * string) :=
  flat_map (fun piece => match piece with
                         | TextureLookup sampler coord => [(sampler, coord)]
                         | Code _ => []
                         end) code.

(** The program has bound to the matrix uniform the matrix of the tag the
    processor applied last. *)
Definition matrixBound (self : GLYUVTextureEffect.t) (data : ProgramData) : Prop :=
  forall matrix,
    conversionMatrix (GLYUVTextureEffect.colorSpacePrev self) = Some matrix ->
    data (GLYUVTextureEffect.mat3ColorConversionUniform self) = Some (Mat3 matrix).

(** The program has bound to the alpha start uniform, when there is one, the
    point the processor applied last. *)
Definition alphaBound (self : GLYUVTextureEffect.t) (data : ProgramData) : Prop :=
  isValid (GLYUVTextureEffect.alphaStartUniform self) = true ->
  exists v0 v1,
    data (GLYUVTextureEffect.alphaStartUniform self) = Some (Vec2 v0 v1) /\
    Point.eqb (Point.make v0 v1) (GLYUVTextureEffect.alphaStartPrev self) = true.

(** ** A small sequence to run the reader on

    A two-pixel canvas and a toy codec: no bytes give the null codec of an
    empty frame; otherwise the first two bytes are the decoded width and
    height and the rest is copied to the destination, except that a width
    byte of [xff] makes the pixel read fail. *)

Module Sample.

Fixpoint overwrite (mem : list byte) (offset : nat) (data : list byte) : list byte :=
  match mem with
  | [] => []
  | b :: rest =>
      match offset with
      | S k => b :: overwrite rest k data
      | O =>
          match data with
          | [] => mem
          | d :: ds => d :: overwrite rest O ds
          end
      end
  end.

Definition byteZ (b : byte) : Z := Z.of_N (Byte.to_N b).

Definition makeFrom (bytes : list byte) : option ImageCodec.t :=
  match bytes with
  | w :: h :: payload =>
      Some (ImageCodec.make (byteZ w) (byteZ h)
              (fun _ mem offset =>
                 if Byte.eqb w xff then (false, mem)
                 else (true, overwrite mem (Z.to_nat offset) payload)))
  | _ => None
  end.

Definition info : ImageInfo.t := ImageInfo.make 2 1 8.

Definition canvas : PixelBuffer.t :=
  PixelBuffer.make info [x11; x11; x11; x11; x11; x11; x11; x11].

Definition red : list byte := [x01; x01; xf0; x00; x00; xf0].
Definition blue : list byte := [x01; x01; x00; x00; xf0; xf0].
Definition broken : list byte := [xff; x01; x00; x00; x00; x00].

(** Two delta frames, no keyframe. *)
Definition deltas : BitmapSequence.t :=
  BitmapSequence.make 2 1
    [ BitmapFrame.make false [BitmapRect.make 0 0 red];
      BitmapFrame.make false [BitmapRect.make 1 0 blue] ].

(** A keyframe whose first patch is empty and whose second is one pixel,
    then a delta frame. *)
Definition keyed : BitmapSequence.t :=
  BitmapSequence.make 2 1
    [ BitmapFrame.make true [BitmapRect.make 0 0 []; BitmapRect.make 1 0 red];
      BitmapFrame.make false [BitmapRect.make 0 0 blue] ].

(** A frame whose second patch cannot be read. *)
Definition damaged : BitmapSequence.t :=
  BitmapSequence.make 2 1
    [ BitmapFrame.make true [BitmapRect.make 0 0 red; BitmapRect.make 1 0 broken] ].

Definition fresh (sequence : BitmapSequence.t) : BitmapSequenceReader.t :=
  construct sequence (Some canvas).

(** A texture and its effect for the conversion pipeline. *)
Definition texture (colorSpace : YUVColorSpace.t) : YUVTexture.t :=
  YUVTexture.make YUVPixelFormat.I420 colorSpace (fun x y => Point.make x y).

Definition effect (colorSpace : YUVColorSpace.t) (alphaStart : Point.t)
  : YUVTextureEffect.t :=
  YUVTextureEffect.make (texture colorSpace) alphaStart.

Definition processor (colorSpacePrev : YUVColorSpace.t) : GLYUVTextureEffect.t :=
  GLYUVTextureEffect.make None (Some 0%nat) (Point.make (-1) (-1)) colorSpacePrev.

Definition args (alphaStart : Point.t) : EmitArgs.t :=
  EmitArgs.make (effect YUVColorSpace.BT709_LIMITED alphaStart)
                ["TextureSampler_0"; "TextureSampler_1"; "TextureSampler_2"]%string
                ["vertexColor"]%string "gl_FragColor"%string "inputColor"%string.

End Sample.

(** * Properties of the reader *)

(** ** Indexing *)

Lemma frameAt_of_nat (bitmapFrames : list BitmapFrame.t) (k : nat) :
  frameAt bitmapFrames (Z.of_nat k) = nth_error bitmapFrames k.
Proof.
  unfold frameAt.
  destruct (Z.ltb_spec (Z.of_nat k) 0) as [Hneg | _]; [lia |].
  now rewrite Nat2Z.id.
Qed.

Lemma frameAt_in_range (bitmapFrames : list BitmapFrame.t) (frame : Frame) :
  0 <= frame < Z.of_nat (List.length bitmapFrames) ->
  exists bitmapFrame, frameAt bitmapFrames frame = Some bitmapFrame.
Proof.
  intros Hrange.
  rewrite <- (Z2Nat.id frame) by lia.
  rewrite frameAt_of_nat.
  destruct (nth_error bitmapFrames (Z.to_nat frame)) as [bf |] eqn:E.
  - now exists bf.
  - apply nth_error_None in E. lia.
Qed.

Lemma frameAt_Some_range (bitmapFrames : list BitmapFrame.t) (frame : Frame)
      (bitmapFrame : BitmapFrame.t) :
  frameAt bitmapFrames frame = Some bitmapFrame ->
  0 <= frame < Z.of_nat (List.length bitmapFrames).
Proof.
  unfold frameAt.
  destruct (Z.ltb_spec frame 0) as [| Hpos]; [discriminate |].
  intros E.
  assert (nth_error bitmapFrames (Z.to_nat frame) <> None) as Hsome by congruence.
  apply nth_error_Some in Hsome. lia.
Qed.

(** ** The start frame *)

Section StartFrame.

Variable bitmapFrames : list BitmapFrame.t.
Variable last : Frame.

Let stops := stopsAt bitmapFrames last.

(** The scan over the indices below [n]: the result is the largest stopping
    index below [n], or [0] when there is none. *)
Lemma findStartFrame_loop_largest (n : nat) :
  (n <= List.length bitmapFrames)%nat ->
  exists s,
    findStartFrame_loop bitmapFrames last n = Done s /\
    ((0 <= s < Z.of_nat n /\ stops s /\
      forall j, s < j < Z.of_nat n -> ~ stops j)
     \/ (s = 0 /\ forall j, 0 <= j < Z.of_nat n -> ~ stops j)).
Proof.
  induction n as [| k IH]; intros Hlen.
  - exists 0. split; [reflexivity |]. right. split; [reflexivity | intros; lia].
  - cbn [findStartFrame_loop].
    destruct (Z.eqb_spec (Z.of_nat k) (last + 1)) as [Heq | Hne].
    + exists (Z.of_nat k). split; [reflexivity |]. left.
      split; [lia |]. split; [left; exact Heq | intros j Hj; lia].
    + rewrite frameAt_of_nat.
      destruct (nth_error bitmapFrames k) as [bf |] eqn:Ebf.
      2:{ apply nth_error_None in Ebf. lia. }
      destruct (BitmapFrame.isKeyframe bf) eqn:Ekey.
      * exists (Z.of_nat k). split; [reflexivity |]. left.
        split; [lia |]. split; [| intros j Hj; lia].
        right. exists bf. now rewrite frameAt_of_nat.
      * assert (~ stops (Z.of_nat k)) as Hk.
        { intros [Ha | [bf' [Hat Hkey]]]; [contradiction |].
          rewrite frameAt_of_nat in Hat. congruence. }
        destruct IH as [s [Hrun Hs]]; [lia |].
        exists s. split; [exact Hrun |].
        destruct Hs as [[Hrange [Hstop Habove]] | [Hzero Hnone]].
        -- left. split; [lia |]. split; [exact Hstop |].
           intros j Hj.
           destruct (Z.eq_dec j (Z.of_nat k)) as [-> | Hjk]; [exact Hk |].
           apply Habove. lia.
        -- right. split; [exact Hzero |].
           intros j Hj.
           destruct (Z.eq_dec j (Z.of_nat k)) as [-> | Hjk]; [exact Hk |].
           apply Hnone. lia.
Qed.

End StartFrame.

(** C1. For every target frame below the number of frames and every value of
    the marker, [findStartFrame] returns the largest index [s] in
    [0 .. targetFrame] that is [lastDecodeFrame + 1] or a keyframe, and [0]
    when no index of that range is either.  The test for
    [lastDecodeFrame + 1] comes first at each index: the scan stops there
    without reading the frame, even where the vector has no such frame. *)
Theorem findStartFrame_largest_stop (reader : BitmapSequenceReader.t) (targetFrame : Frame) :
  let bitmapFrames := BitmapSequence.frames (sequence reader) in
  let stops := stopsAt bitmapFrames (lastDecodeFrame reader) in
  (targetFrame < Z.of_nat (List.length bitmapFrames) ->
   exists s,
     findStartFrame reader targetFrame = Done s /\
     ((0 <= s <= targetFrame /\ stops s /\
       forall j, s < j <= targetFrame -> ~ stops j)
      \/ (s = 0 /\ forall j, 0 <= j <= targetFrame -> ~ stops j)))
  /\
  (0 <= targetFrame ->
   targetFrame = lastDecodeFrame reader + 1 ->
   findStartFrame reader targetFrame = Done targetFrame).
Proof.
  intros bitmapFrames stops. split.
  - intros Hlt.
    destruct (findStartFrame_loop_largest bitmapFrames (lastDecodeFrame reader)
                (Z.to_nat (targetFrame + 1))) as [s [Hrun Hs]]; [lia |].
    exists s. split; [exact Hrun |].
    destruct Hs as [[Hrange [Hstop Habove]] | [Hzero Hnone]].
    + left. split; [lia |]. split; [exact Hstop |].
      intros j Hj. apply Habove. lia.
    + right. split; [exact Hzero |].
      intros j Hj. apply Hnone. lia.
  - intros Hpos Hnext. unfold findStartFrame.
    replace (Z.to_nat (targetFrame + 1)) with (S (Z.to_nat targetFrame)) by lia.
    cbn [findStartFrame_loop].
    rewrite Z2Nat.id by lia.
    destruct (Z.eqb_spec targetFrame (lastDecodeFrame reader + 1)); [reflexivity | contradiction].
Qed.

Lemma findStartFrame_largest_stop_witness :
  (exists s,
     findStartFrame (Sample.fresh Sample.keyed) 1 = Done s /\
     ((0 <= s <= 1 /\
       stopsAt (BitmapSequence.frames Sample.keyed) (-1) s /\
       forall j, s < j <= 1 -> ~ stopsAt (BitmapSequence.frames Sample.keyed) (-1) j)
      \/ (s = 0 /\
          forall j, 0 <= j <= 1 -> ~ stopsAt (BitmapSequence.frames Sample.keyed) (-1) j)))
  /\ findStartFrame (Sample.fresh Sample.keyed) 0 = Done 0.
Proof.
  split.
  - apply (findStartFrame_largest_stop (Sample.fresh Sample.keyed) 1). simpl. lia.
  - apply (findStartFrame_largest_stop (Sample.fresh Sample.keyed) 0).
    + lia.
    + reflexivity.
Defined.

(** ** Replaying the patches of one frame *)

Lemma decodes_app (a b : list Event) : decodes (a ++ b) = decodes a ++ decodes b.
Proof. unfold decodes. now rewrite flat_map_app. Qed.

Lemma erasures_app (a b : list Event) : erasures (a ++ b) = (erasures a + erasures b)%nat.
Proof. unfold erasures. now rewrite filter_app, length_app. Qed.

Lemma erasures_cons (e : Event) (l : list Event) :
  erasures (e :: l) = ((if isErase e then 1 else 0) + erasures l)%nat.
Proof. unfold erasures. cbn [filter]. now destruct (isErase e). Qed.

(** One step of the inner loop, for a patch that has a codec. *)
Ltac step_codec codec info E :=
  cbn [replayBitmaps]; rewrite E; cbv zeta;
  match goal with
  | |- context [ImageCodec.readPixels codec info ?m ?o] =>
      let R := fresh "R" in
      let res := fresh "res" in
      let mem' := fresh "mem'" in
      destruct (ImageCodec.readPixels codec info m o) as [res mem'] eqn:R;
      destruct res
  end.

Section OneFrame.

Variable makeFrom : list byte -> option ImageCodec.t.
Variable info : ImageInfo.t.

(** The trace of a frame holds no write of the marker. *)
Lemma replayBitmaps_no_marker (isKeyframe : bool) (bitmaps : list BitmapRect.t) :
  forall firstRead mem,
    existsb isMarker (events (replayBitmaps makeFrom info isKeyframe bitmaps firstRead mem))
    = false.
Proof.
  induction bitmaps as [| rect rest IH]; intros firstRead mem; [reflexivity |].
  destruct (makeFrom (BitmapRect.fileBytes rect)) as [codec |] eqn:E.
  - step_codec codec info E; cbn [events after];
      repeat (rewrite existsb_app || cbn [existsb isMarker app]);
      rewrite ?IH;
      now destruct (firstRead && isKeyframe && _).
  - cbn [replayBitmaps]. rewrite E. cbn. apply IH.
Qed.

(** A frame fails exactly when one of its pixel reads fails. *)
Lemma replayBitmaps_failed_read (isKeyframe : bool) (bitmaps : list BitmapRect.t) :
  forall firstRead mem,
    existsb isFailedRead
            (events (replayBitmaps makeFrom info isKeyframe bitmaps firstRead mem))
    = negb (ok (replayBitmaps makeFrom info isKeyframe bitmaps firstRead mem)).
Proof.
  induction bitmaps as [| rect rest IH]; intros firstRead mem; [reflexivity |].
  destruct (makeFrom (BitmapRect.fileBytes rect)) as [codec |] eqn:E.
  - step_codec codec info E; cbn [events after ok];
      repeat (rewrite existsb_app || cbn [existsb isFailedRead app]);
      rewrite ?IH;
      now destruct (firstRead && isKeyframe && _).
  - cbn [replayBitmaps]. rewrite E. cbn. apply IH.
Qed.

(** A frame that goes through has asked a codec for every patch, in order. *)
Lemma replayBitmaps_decodes (isKeyframe : bool) (bitmaps : list BitmapRect.t) :
  forall firstRead mem,
    ok (replayBitmaps makeFrom info isKeyframe bitmaps firstRead mem) = true ->
    decodes (events (replayBitmaps makeFrom info isKeyframe bitmaps firstRead mem))
    = map BitmapRect.fileBytes bitmaps.
Proof.
  induction bitmaps as [| rect rest IH]; intros firstRead mem; [reflexivity |].
  destruct (makeFrom (BitmapRect.fileBytes rect)) as [codec |] eqn:E.
  - step_codec codec info E; cbn [events after ok]; intros Hok; [| discriminate].
    change (MakeFrom ?b :: ?l) with ([MakeFrom b] ++ l).
    rewrite !decodes_app, IH by exact Hok.
    now destruct (firstRead && isKeyframe && _).
  - cbn [replayBitmaps]. rewrite E. cbn [events after ok]. intros Hok.
    rewrite decodes_app, IH by exact Hok. reflexivity.
Qed.

(** How often a frame erases the canvas. *)
Lemma replayBitmaps_erasures (isKeyframe : bool) (bitmaps : list BitmapRect.t) :
  forall firstRead mem,
    erasures (events (replayBitmaps makeFrom info isKeyframe bitmaps firstRead mem))
    = match firstCodec makeFrom bitmaps with
      | Some (_, codec) =>
          if firstRead && isKeyframe && sizeDiffers codec info then 1%nat else 0%nat
      | None => 0%nat
      end.
Proof.
  assert (forall bs mem,
             erasures (events (replayBitmaps makeFrom info isKeyframe bs false mem)) = 0%nat)
    as Hlater.
  { induction bs as [| rect rest IH]; intros mem; [reflexivity |].
    destruct (makeFrom (BitmapRect.fileBytes rect)) as [codec |] eqn:E.
    - step_codec codec info E; cbn [events after andb app];
        rewrite !erasures_cons, ?IH; reflexivity.
    - cbn [replayBitmaps]. rewrite E. cbn [events after app].
      rewrite erasures_cons, IH. reflexivity. }
  induction bitmaps as [| rect rest IH]; intros firstRead mem; [reflexivity |].
  cbn [firstCodec].
  destruct (makeFrom (BitmapRect.fileBytes rect)) as [codec |] eqn:E.
  - fold (sizeDiffers codec info) in *.
    step_codec codec info E; cbn [events after];
      fold (sizeDiffers codec info);
      destruct (firstRead && isKeyframe && sizeDiffers codec info);
      cbn [app]; rewrite !erasures_cons, ?Hlater; reflexivity.
  - cbn [replayBitmaps]. rewrite E. cbn [events after app].
    rewrite erasures_cons, IH. reflexivity.
Qed.

End OneFrame.

(** ** Replaying a run of frames *)

Lemma skipn_nth_error_cons {A : Type} (l : list A) :
  forall i x, nth_error l i = Some x -> skipn i l = x :: skipn (S i) l.
Proof.
  induction l as [| a l IH]; intros [| i] x E; try discriminate.
  - cbn in E. injection E as ->. reflexivity.
  - cbn in E. cbn [skipn]. rewrite (IH i x E). reflexivity.
Qed.

Section ManyFrames.

Variable makeFrom : list byte -> option ImageCodec.t.
Variable bitmapFrames : list BitmapFrame.t.
Variable info : ImageInfo.t.

Let replay := replayFrames makeFrom bitmapFrames info.

(** Frames inside the vector are replayed without an out-of-range access. *)
Lemma replayFrames_defined (n : nat) :
  forall frame mem,
    0 <= frame ->
    frame + Z.of_nat n <= Z.of_nat (List.length bitmapFrames) ->
    exists r, replay n frame mem = Done r.
Proof.
  induction n as [| k IH]; intros frame mem Hpos Hend.
  - eexists. reflexivity.
  - destruct (frameAt_in_range bitmapFrames frame) as [bf Hbf]; [lia |].
    unfold replay. cbn [replayFrames]. rewrite Hbf. cbv zeta.
    destruct (ok (replayBitmaps makeFrom info _ _ true mem)).
    + destruct (IH (frame + 1) (pixels (replayBitmaps makeFrom info
                   (BitmapFrame.isKeyframe bf) (BitmapFrame.bitmaps bf) true mem)))
        as [r' Hr']; [lia | lia |].
      fold replay. rewrite Hr'. eexists. reflexivity.
    + eexists. reflexivity.
Qed.

(** One iteration of the outer loop, read backwards from its result. *)
Lemma replayFrames_step (k : nat) (frame : Frame) (mem : list byte) (r : Replay) :
  replay (S k) frame mem = Done r ->
  exists bf,
    frameAt bitmapFrames frame = Some bf /\
    let r1 := replayBitmaps makeFrom info (BitmapFrame.isKeyframe bf)
                            (BitmapFrame.bitmaps bf) true mem in
    (ok r1 = false /\ r = r1) \/
    (ok r1 = true /\
     exists r', replay k (frame + 1) (pixels r1) = Done r' /\ r = after (events r1) r').
Proof.
  unfold replay. cbn [replayFrames].
  destruct (frameAt bitmapFrames frame) as [bf |]; [| discriminate].
  cbv zeta. intros H. exists bf. split; [reflexivity |].
  destruct (ok (replayBitmaps makeFrom info _ _ true mem)) eqn:Eok.
  - right. split; [reflexivity |].
    destruct (replayFrames makeFrom bitmapFrames info k (frame + 1) _) as [r' |];
      [| discriminate].
    cbn in H. injection H as <-. exists r'. split; reflexivity.
  - left. injection H as <-. split; reflexivity.
Qed.

Lemma replayFrames_no_marker (n : nat) :
  forall frame mem r,
    replay n frame mem = Done r -> existsb isMarker (events r) = false.
Proof.
  induction n as [| k IH]; intros frame mem r H.
  - injection H as <-. reflexivity.
  - destruct (replayFrames_step _ _ _ _ H) as [bf [_ [[_ ->] | [_ [r' [Hr' ->]]]]]].
    + apply replayBitmaps_no_marker.
    + cbn [events after]. rewrite existsb_app, replayBitmaps_no_marker.
      apply (IH _ _ _ Hr').
Qed.

Lemma replayFrames_failed_read (n : nat) :
  forall frame mem r,
    replay n frame mem = Done r -> existsb isFailedRead (events r) = negb (ok r).
Proof.
  induction n as [| k IH]; intros frame mem r H.
  - injection H as <-. reflexivity.
  - destruct (replayFrames_step _ _ _ _ H) as [bf [_ [[_ ->] | [Hok [r' [Hr' ->]]]]]].
    + apply replayBitmaps_failed_read.
    + cbn [events after ok].
      rewrite existsb_app, replayBitmaps_failed_read, Hok.
      apply (IH _ _ _ Hr').
Qed.

(** A replay that goes through has asked a codec for every patch of every
    one of its frames, in order. *)
Lemma replayFrames_decodes (n : nat) :
  forall frame mem r,
    replay n frame mem = Done r ->
    ok r = true ->
    decodes (events r)
    = patchBytes (firstn n (skipn (Z.to_nat frame) bitmapFrames)).
Proof.
  induction n as [| k IH]; intros frame mem r H Hok.
  - injection H as <-. reflexivity.
  - destruct (replayFrames_step _ _ _ _ H) as [bf [Hbf [[Hko ->] | [Hok1 [r' [Hr' ->]]]]]].
    + congruence.
    + pose proof (frameAt_Some_range _ _ _ Hbf) as Hrange.
      rewrite <- (Z2Nat.id frame) in Hbf by lia.
      rewrite frameAt_of_nat in Hbf.
      rewrite (skipn_nth_error_cons _ _ _ Hbf).
      cbn [firstn patchBytes flat_map events after].
      rewrite decodes_app, (replayBitmaps_decodes _ _ _ _ _ _ Hok1).
      f_equal.
      rewrite (IH _ _ _ Hr' Hok).
      replace (Z.to_nat (frame + 1)) with (S (Z.to_nat frame)) by lia.
      reflexivity.
Qed.

End ManyFrames.

(** ** Which patches are read *)

Lemma reads_app (a b : list Event) : reads (a ++ b) = reads a ++ reads b.
Proof. unfold reads. now rewrite flat_map_app. Qed.

Section Reads.

Variable makeFrom : list byte -> option ImageCodec.t.
Variable info : ImageInfo.t.

(** A frame that goes through has read every patch that has a codec, once,
    in order, at the offset of the patch. *)
Lemma replayBitmaps_reads (isKeyframe : bool) (bitmaps : list BitmapRect.t) :
  forall firstRead mem,
    ok (replayBitmaps makeFrom info isKeyframe bitmaps firstRead mem) = true ->
    reads (events (replayBitmaps makeFrom info isKeyframe bitmaps firstRead mem))
    = map (fun rect => (patchOffset info rect, true))
          (filter (hasCodec makeFrom) bitmaps).
Proof.
  induction bitmaps as [| rect rest IH]; intros firstRead mem; [reflexivity |].
  cbn [filter]. unfold hasCodec at 1.
  destruct (makeFrom (BitmapRect.fileBytes rect)) as [codec |] eqn:E.
  - step_codec codec info E; cbn [events after ok]; intros Hok; [| discriminate].
    change (MakeFrom ?b :: ?l) with ([MakeFrom b] ++ l).
    rewrite !reads_app, IH by exact Hok.
    now destruct (firstRead && isKeyframe && _).
  - cbn [replayBitmaps]. rewrite E. cbn [events after ok]. intros Hok.
    rewrite reads_app, IH by exact Hok. reflexivity.
Qed.

(** In a frame that goes through, the codec of every patch returned [true]
    for the canvas it was handed. *)
Lemma replayBitmaps_each_read (isKeyframe : bool) (bitmaps : list BitmapRect.t) :
  forall firstRead mem,
    ok (replayBitmaps makeFrom info isKeyframe bitmaps firstRead mem) = true ->
    forall rect codec,
      In rect bitmaps ->
      makeFrom (BitmapRect.fileBytes rect) = Some codec ->
      exists canvas,
        fst (ImageCodec.readPixels codec info canvas (patchOffset info rect)) = true.
Proof.
  induction bitmaps as [| rect0 rest IH]; intros firstRead mem Hok rect codec Hin Hcodec;
    [contradiction |].
  destruct (makeFrom (BitmapRect.fileBytes rect0)) as [codec0 |] eqn:E.
  - revert Hok. step_codec codec0 info E; cbn [ok after]; intros Hok; [| discriminate].
    destruct Hin as [<- | Hin].
    + rewrite E in Hcodec. injection Hcodec as <-.
      eexists. match goal with R : _ = (true, _) |- _ => rewrite R end. reflexivity.
    + exact (IH _ _ Hok rect codec Hin Hcodec).
  - revert Hok. cbn [replayBitmaps]. rewrite E. cbn [ok after]. intros Hok.
    destruct Hin as [<- | Hin]; [congruence |].
    exact (IH _ _ Hok rect codec Hin Hcodec).
Qed.

(** A frame that fails ends with the read of a patch whose codec returned
    [false] for the canvas it was handed. *)
Lemma replayBitmaps_failed_patch (isKeyframe : bool) (bitmaps : list BitmapRect.t) :
  forall firstRead mem,
    ok (replayBitmaps makeFrom info isKeyframe bitmaps firstRead mem) = false ->
    exists rect codec canvas pre,
      In rect bitmaps /\
      makeFrom (BitmapRect.fileBytes rect) = Some codec /\
      fst (ImageCodec.readPixels codec info canvas (patchOffset info rect)) = false /\
      events (replayBitmaps makeFrom info isKeyframe bitmaps firstRead mem)
      = pre ++ [ReadPixels (patchOffset info rect) false].
Proof.
  induction bitmaps as [| rect0 rest IH]; intros firstRead mem; [discriminate |].
  destruct (makeFrom (BitmapRect.fileBytes rect0)) as [codec0 |] eqn:E.
  - step_codec codec0 info E; cbn [ok events after]; intros Hok.
    + destruct (IH _ _ Hok) as [rect [codec [canvas [pre [Hin [Hc [Hf Hev]]]]]]].
      exists rect, codec, canvas. eexists.
      split; [now right |]. split; [exact Hc |]. split; [exact Hf |].
      rewrite Hev, app_comm_cons, app_assoc. reflexivity.
    + exists rect0, codec0. eexists. eexists.
      split; [now left |]. split; [exact E |].
      split; [match goal with R : _ = (false, _) |- _ => rewrite R end; reflexivity |].
      rewrite app_comm_cons. reflexivity.
  - cbn [replayBitmaps]. rewrite E. cbn [ok events after]. intros Hok.
    destruct (IH _ _ Hok) as [rect [codec [canvas [pre [Hin [Hc [Hf Hev]]]]]]].
    exists rect, codec, canvas. eexists.
    split; [now right |]. split; [exact Hc |]. split; [exact Hf |].
    rewrite Hev, app_assoc. reflexivity.
Qed.

Variable bitmapFrames : list BitmapFrame.t.

Let slice (n : nat) (frame : Frame) : list BitmapFrame.t :=
  firstn n (skipn (Z.to_nat frame) bitmapFrames).

Lemma slice_step (k : nat) (frame : Frame) (bf : BitmapFrame.t) :
  frameAt bitmapFrames frame = Some bf ->
  slice (S k) frame = bf :: slice k (frame + 1).
Proof.
  intros Hbf. pose proof (frameAt_Some_range _ _ _ Hbf) as Hrange.
  rewrite <- (Z2Nat.id frame) in Hbf by lia. rewrite frameAt_of_nat in Hbf.
  unfold slice. rewrite (skipn_nth_error_cons _ _ _ Hbf). cbn [firstn].
  now replace (Z.to_nat (frame + 1)) with (S (Z.to_nat frame)) by lia.
Qed.

Lemma replayFrames_reads (n : nat) :
  forall frame mem r,
    replayFrames makeFrom bitmapFrames info n frame mem = Done r ->
    ok r = true ->
    reads (events r)
    = map (fun rect => (patchOffset info rect, true))
          (codecPatches makeFrom (slice n frame)).
Proof.
  induction n as [| k IH]; intros frame mem r H Hok.
  - injection H as <-. reflexivity.
  - destruct (replayFrames_step _ _ _ _ _ _ _ H)
      as [bf [Hbf [[Hko ->] | [Hok1 [r' [Hr' ->]]]]]]; [congruence |].
    rewrite (slice_step _ _ _ Hbf).
    cbn [codecPatches flat_map events after]. rewrite map_app, reads_app.
    rewrite (replayBitmaps_reads _ _ _ _ Hok1).
    f_equal. exact (IH _ _ _ Hr' Hok).
Qed.

Lemma replayFrames_each_read (n : nat) :
  forall frame mem r,
    replayFrames makeFrom bitmapFrames info n frame mem = Done r ->
    ok r = true ->
    forall bf rect codec,
      In bf (slice n frame) ->
      In rect (BitmapFrame.bitmaps bf) ->
      makeFrom (BitmapRect.fileBytes rect) = Some codec ->
      exists canvas,
        fst (ImageCodec.readPixels codec info canvas (patchOffset info rect)) = true.
Proof.
  induction n as [| k IH]; intros frame mem r H Hok bf rect codec Hbfin Hin Hcodec.
  - contradiction.
  - destruct (replayFrames_step _ _ _ _ _ _ _ H)
      as [bf0 [Hbf [[Hko ->] | [Hok1 [r' [Hr' ->]]]]]]; [congruence |].
    rewrite (slice_step _ _ _ Hbf) in Hbfin.
    destruct Hbfin as [<- | Hbfin].
    + exact (replayBitmaps_each_read _ _ _ _ Hok1 rect codec Hin Hcodec).
    + exact (IH _ _ _ Hr' Hok bf rect codec Hbfin Hin Hcodec).
Qed.

Lemma replayFrames_failed_patch (n : nat) :
  forall frame mem r,
    replayFrames makeFrom bitmapFrames info n frame mem = Done r ->
    ok r = false ->
    exists bf rect codec canvas pre,
      In bf (slice n frame) /\
      In rect (BitmapFrame.bitmaps bf) /\
      makeFrom (BitmapRect.fileBytes rect) = Some codec /\
      fst (ImageCodec.readPixels codec info canvas (patchOffset info rect)) = false /\
      events r = pre ++ [ReadPixels (patchOffset info rect) false].
Proof.
  induction n as [| k IH]; intros frame mem r H Hok.
  - injection H as <-. discriminate.
  - destruct (replayFrames_step _ _ _ _ _ _ _ H)
      as [bf0 [Hbf [[Hko ->] | [Hok1 [r' [Hr' ->]]]]]];
      rewrite (slice_step _ _ _ Hbf).
    + destruct (replayBitmaps_failed_patch _ _ _ _ Hko)
        as [rect [codec [canvas [pre [Hin [Hc [Hf Hev]]]]]]].
      exists bf0, rect, codec, canvas, pre.
      split; [now left |]. auto.
    + cbn [ok events after] in *.
      destruct (IH _ _ _ Hr' Hok)
        as [bf [rect [codec [canvas [pre [Hbfin [Hin [Hc [Hf Hev]]]]]]]]].
      exists bf, rect, codec, canvas. eexists.
      split; [now right |]. split; [exact Hin |]. split; [exact Hc |].
      split; [exact Hf |]. rewrite Hev, app_assoc. reflexivity.
Qed.

End Reads.

(** ** The whole call *)

Lemma findStartFrame_in_range (reader : BitmapSequenceReader.t) (targetFrame : Frame) :
  targetFrame < Z.of_nat (List.length (BitmapSequence.frames (sequence reader))) ->
  exists s,
    findStartFrame reader targetFrame = Done s /\
    0 <= s /\ (s <= targetFrame \/ (targetFrame < 0 /\ s = 0)).
Proof.
  intros Hlt.
  destruct (findStartFrame_loop_largest (BitmapSequence.frames (sequence reader))
              (lastDecodeFrame reader) (Z.to_nat (targetFrame + 1)))
    as [s [Hrun [[Hrange _] | [Hzero _]]]]; [lia | |];
    exists s; (split; [exact Hrun | lia]).
Qed.

Section Calls.

Variable makeFrom : list byte -> option ImageCodec.t.

(** A call that is not answered from the cache and has a canvas: what it
    runs, in terms of the two loops. *)
Lemma onMakeBuffer_replays (targetFrame : Frame) (rd : BitmapSequenceReader.t)
      (pb : PixelBuffer.t) (startFrame : Frame) (r : Replay) :
  pixelBuffer rd = Some pb ->
  lastDecodeFrame rd <> targetFrame ->
  findStartFrame rd targetFrame = Done startFrame ->
  replayFrames makeFrom (BitmapSequence.frames (sequence rd)) (PixelBuffer.info pb)
               (Z.to_nat (targetFrame - startFrame + 1)) startFrame
               (PixelBuffer.pixels pb) = Done r ->
  let pb' := PixelBuffer.make (PixelBuffer.info pb) (pixels r) in
  onMakeBuffer makeFrom targetFrame rd =
  Done (if ok r
        then mkCall (Some pb') (make (sequence rd) (Some pb') targetFrame)
                    (SetLastDecodeFrame (-1) :: events r
                       ++ [SetLastDecodeFrame targetFrame])
        else mkCall None (make (sequence rd) (Some pb') (-1))
                    (SetLastDecodeFrame (-1) :: events r)).
Proof.
  intros Hpb Hlast Hstart Hreplay pb'. unfold onMakeBuffer.
  destruct (Z.eqb_spec (lastDecodeFrame rd) targetFrame) as [| _]; [contradiction |].
  rewrite Hpb, Hstart. cbn [bindRun]. rewrite Hreplay. cbn [bindRun].
  now destruct (ok r).
Qed.

(** C2. A call that replays writes [-1] to the marker before anything is
    decoded; nothing in between writes the marker.  When a pixel read fails
    the call returns no result and the marker is [-1]: the failed read is
    the last thing done, and it is the read of a patch of one of the frames
    from the start frame to [targetFrame] whose codec returned [false].
    Otherwise the marker is written once more, last, with [targetFrame],
    after a codec was asked for every patch of every one of these frames and
    every patch that has a codec was read, once, in order, its codec
    returning [true]. *)
Theorem onMakeBuffer_marker_discipline (targetFrame : Frame)
        (rd : BitmapSequenceReader.t) (pb : PixelBuffer.t) :
  pixelBuffer rd = Some pb ->
  lastDecodeFrame rd <> targetFrame ->
  targetFrame < Z.of_nat (List.length (BitmapSequence.frames (sequence rd))) ->
  exists call startFrame body,
    onMakeBuffer makeFrom targetFrame rd = Done call /\
    findStartFrame rd targetFrame = Done startFrame /\
    existsb isMarker body = false /\
    let replayed := framesBetween (BitmapSequence.frames (sequence rd))
                                  startFrame targetFrame in
    let info := PixelBuffer.info pb in
    if existsb isFailedRead body
    then result call = None /\
         lastDecodeFrame (reader call) = -1 /\
         trace call = SetLastDecodeFrame (-1) :: body /\
         exists bitmapFrame bitmapRect codec canvas pre,
           In bitmapFrame replayed /\
           In bitmapRect (BitmapFrame.bitmaps bitmapFrame) /\
           makeFrom (BitmapRect.fileBytes bitmapRect) = Some codec /\
           fst (ImageCodec.readPixels codec info canvas (patchOffset info bitmapRect))
           = false /\
           body = pre ++ [ReadPixels (patchOffset info bitmapRect) false]
    else result call = pixelBuffer (reader call) /\
         result call <> None /\
         lastDecodeFrame (reader call) = targetFrame /\
         trace call = SetLastDecodeFrame (-1) :: body
                        ++ [SetLastDecodeFrame targetFrame] /\
         decodes body = patchBytes replayed /\
         reads body = map (fun bitmapRect => (patchOffset info bitmapRect, true))
                          (codecPatches makeFrom replayed) /\
         forall bitmapFrame bitmapRect codec,
           In bitmapFrame replayed ->
           In bitmapRect (BitmapFrame.bitmaps bitmapFrame) ->
           makeFrom (BitmapRect.fileBytes bitmapRect) = Some codec ->
           exists canvas,
             fst (ImageCodec.readPixels codec info canvas (patchOffset info bitmapRect))
             = true.
Proof.
  intros Hpb Hlast Hlt.
  destruct (findStartFrame_in_range rd targetFrame Hlt) as [s [Hstart [Hpos Hs]]].
  destruct (replayFrames_defined makeFrom (BitmapSequence.frames (sequence rd))
              (PixelBuffer.info pb) (Z.to_nat (targetFrame - s + 1)) s
              (PixelBuffer.pixels pb)) as [r Hr]; [lia | lia |].
  pose proof (onMakeBuffer_replays _ _ _ _ _ Hpb Hlast Hstart Hr) as Hcall.
  cbv zeta in Hcall.
  eexists. exists s, (events r).
  split; [exact Hcall |]. split; [exact Hstart |].
  split; [exact (replayFrames_no_marker _ _ _ _ _ _ _ Hr) |].
  cbv zeta. rewrite (replayFrames_failed_read _ _ _ _ _ _ _ Hr).
  unfold framesBetween.
  destruct (ok r) eqn:Hok; cbn [negb result reader trace lastDecodeFrame pixelBuffer].
  - split; [reflexivity |]. split; [discriminate |]. split; [reflexivity |].
    split; [reflexivity |].
    split; [exact (replayFrames_decodes _ _ _ _ _ _ _ Hr Hok) |].
    split; [exact (replayFrames_reads _ _ _ _ _ _ _ Hr Hok) |].
    exact (replayFrames_each_read _ _ _ _ _ _ _ Hr Hok).
  - split; [reflexivity |]. split; [reflexivity |]. split; [reflexivity |].
    exact (replayFrames_failed_patch _ _ _ _ _ _ _ Hr Hok).
Qed.

(** C5. When a call for frame [F] has returned the buffer, [F] is the last
    decoded frame, and the next call for [F] is answered from the cache: it
    returns the same buffer with the same content, leaves the reader as it
    is and does nothing (no codec is asked, no pixel is read). *)
Theorem onMakeBuffer_twice (F : Frame) (rd : BitmapSequenceReader.t)
        (call1 : Call) (pb : PixelBuffer.t) :
  onMakeBuffer makeFrom F rd = Done call1 ->
  result call1 = Some pb ->
  lastDecodeFrame (reader call1) = F /\
  onMakeBuffer makeFrom F (reader call1) = Done (mkCall (Some pb) (reader call1) []).
Proof.
  unfold onMakeBuffer at 1.
  destruct (Z.eqb_spec (lastDecodeFrame rd) F) as [Hhit | Hmiss].
  - intros H Hres. injection H as <-. cbn [result reader] in *.
    split; [exact Hhit |].
    unfold onMakeBuffer.
    destruct (Z.eqb_spec (lastDecodeFrame rd) F); [| contradiction].
    now rewrite Hres.
  - destruct (pixelBuffer rd) as [pb0 |].
    2:{ intros H Hres. injection H as <-. discriminate. }
    destruct (findStartFrame rd F) as [s |]; [| discriminate].
    cbn [bindRun].
    destruct (replayFrames makeFrom _ _ _ s _) as [r |]; [| discriminate].
    cbn [bindRun].
    destruct (ok r); intros H Hres; injection H as <-; [| discriminate].
    cbn [result reader] in *. injection Hres as <-.
    split; [reflexivity |].
    unfold onMakeBuffer. cbn [lastDecodeFrame pixelBuffer].
    now rewrite Z.eqb_refl.
Qed.

End Calls.

Lemma onMakeBuffer_marker_discipline_witness :
  (exists call startFrame body,
      onMakeBuffer Sample.makeFrom 0 (Sample.fresh Sample.damaged) = Done call /\
      findStartFrame (Sample.fresh Sample.damaged) 0 = Done startFrame /\
      existsb isMarker body = false /\
      let replayed := framesBetween (BitmapSequence.frames Sample.damaged) startFrame 0 in
      let info := Sample.info in
      if existsb isFailedRead body
      then result call = None /\
           lastDecodeFrame (reader call) = -1 /\
           trace call = SetLastDecodeFrame (-1) :: body /\
           exists bitmapFrame bitmapRect codec canvas pre,
             In bitmapFrame replayed /\
             In bitmapRect (BitmapFrame.bitmaps bitmapFrame) /\
             Sample.makeFrom (BitmapRect.fileBytes bitmapRect) = Some codec /\
             fst (ImageCodec.readPixels codec info canvas (patchOffset info bitmapRect))
             = false /\
             body = pre ++ [ReadPixels (patchOffset info bitmapRect) false]
      else result call = pixelBuffer (reader call) /\
           result call <> None /\
           lastDecodeFrame (reader call) = 0 /\
           trace call = SetLastDecodeFrame (-1) :: body ++ [SetLastDecodeFrame 0] /\
           decodes body = patchBytes replayed /\
           reads body = map (fun bitmapRect => (patchOffset info bitmapRect, true))
                            (codecPatches Sample.makeFrom replayed) /\
           forall bitmapFrame bitmapRect codec,
             In bitmapFrame replayed ->
             In bitmapRect (BitmapFrame.bitmaps bitmapFrame) ->
             Sample.makeFrom (BitmapRect.fileBytes bitmapRect) = Some codec ->
             exists canvas,
               fst (ImageCodec.readPixels codec info canvas (patchOffset info bitmapRect))
               = true)
  /\
  (exists call startFrame body,
      onMakeBuffer Sample.makeFrom 1 (Sample.fresh Sample.keyed) = Done call /\
      findStartFrame (Sample.fresh Sample.keyed) 1 = Done startFrame /\
      existsb isMarker body = false /\
      let replayed := framesBetween (BitmapSequence.frames Sample.keyed) startFrame 1 in
      let info := Sample.info in
      if existsb isFailedRead body
      then result call = None /\
           lastDecodeFrame (reader call) = -1 /\
           trace call = SetLastDecodeFrame (-1) :: body /\
           exists bitmapFrame bitmapRect codec canvas pre,
             In bitmapFrame replayed /\
             In bitmapRect (BitmapFrame.bitmaps bitmapFrame) /\
             Sample.makeFrom (BitmapRect.fileBytes bitmapRect) = Some codec /\
             fst (ImageCodec.readPixels codec info canvas (patchOffset info bitmapRect))
             = false /\
             body = pre ++ [ReadPixels (patchOffset info bitmapRect) false]
      else result call = pixelBuffer (reader call) /\
           result call <> None /\
           lastDecodeFrame (reader call) = 1 /\
           trace call = SetLastDecodeFrame (-1) :: body ++ [SetLastDecodeFrame 1] /\
           decodes body = patchBytes replayed /\
           reads body = map (fun bitmapRect => (patchOffset info bitmapRect, true))
                            (codecPatches Sample.makeFrom replayed) /\
           forall bitmapFrame bitmapRect codec,
             In bitmapFrame replayed ->
             In bitmapRect (BitmapFrame.bitmaps bitmapFrame) ->
             Sample.makeFrom (BitmapRect.fileBytes bitmapRect) = Some codec ->
             exists canvas,
               fst (ImageCodec.readPixels codec info canvas (patchOffset info bitmapRect))
               = true).
Proof.
  split.
  - apply (onMakeBuffer_marker_discipline Sample.makeFrom 0 (Sample.fresh Sample.damaged)
             (PixelBuffer.make Sample.info (eraseAll (PixelBuffer.pixels Sample.canvas)))).
    + reflexivity.
    + discriminate.
    + simpl. lia.
  - apply (onMakeBuffer_marker_discipline Sample.makeFrom 1 (Sample.fresh Sample.keyed)
             (PixelBuffer.make Sample.info (eraseAll (PixelBuffer.pixels Sample.canvas)))).
    + reflexivity.
    + discriminate.
    + simpl. lia.
Defined.

Lemma onMakeBuffer_twice_witness :
  exists call1 pb,
    onMakeBuffer Sample.makeFrom 1 (Sample.fresh Sample.keyed) = Done call1 /\
    result call1 = Some pb /\
    lastDecodeFrame (reader call1) = 1 /\
    onMakeBuffer Sample.makeFrom 1 (reader call1)
    = Done (mkCall (Some pb) (reader call1) []).
Proof.
  eexists. eexists.
  split; [vm_compute; reflexivity |].
  split; [reflexivity |].
  apply (onMakeBuffer_twice Sample.makeFrom 1 (Sample.fresh Sample.keyed));
    vm_compute; reflexivity.
Defined.

(** ** Requests the reader does not check *)

Lemma frameAt_beyond (bitmapFrames : list BitmapFrame.t) (frame : Frame) :
  Z.of_nat (List.length bitmapFrames) <= frame -> frameAt bitmapFrames frame = None.
Proof.
  intros Hge. unfold frameAt.
  destruct (Z.ltb_spec frame 0); [reflexivity |].
  apply nth_error_None. lia.
Qed.

(** C7, as worded, fails: a fresh reader asked for frame [-2] hands back its
    canvas. *)
Lemma rejectsInvalidRequests_counterexample :
  ~ rejectsInvalidRequests Sample.makeFrom.
Proof.
  intros H.
  destruct (H (-2) (Sample.fresh Sample.damaged)) as [call [Hcall Hres]].
  - left. lia.
  - vm_compute in Hcall. injection Hcall as <-. discriminate.
Qed.

(** C7, amended. Without a canvas a call returns no result, whatever the
    frame, and leaves the reader as it is.  The frame itself is not checked:
    with a canvas, a negative frame returns the canvas as it is, asks no
    codec and reads no pixel, and becomes the last decoded frame; a frame at
    or beyond the number of frames makes a reader whose marker is within the
    sequence index the vector of frames out of range. *)
Theorem onMakeBuffer_unchecked_request (makeFrom : list byte -> option ImageCodec.t)
        (targetFrame : Frame) (rd : BitmapSequenceReader.t) :
  (pixelBuffer rd = None ->
   onMakeBuffer makeFrom targetFrame rd = Done (mkCall None rd []))
  /\
  (forall pb,
      pixelBuffer rd = Some pb ->
      targetFrame < 0 ->
      exists evs,
        onMakeBuffer makeFrom targetFrame rd
        = Done (mkCall (Some pb) (make (sequence rd) (Some pb) targetFrame) evs) /\
        decodes evs = [] /\ existsb isRead evs = false)
  /\
  (forall pb,
      pixelBuffer rd = Some pb ->
      Z.of_nat (List.length (BitmapSequence.frames (sequence rd))) <= targetFrame ->
      lastDecodeFrame rd < Z.of_nat (List.length (BitmapSequence.frames (sequence rd))) ->
      onMakeBuffer makeFrom targetFrame rd = OutOfBounds).
Proof.
  split; [| split].
  - intros Hnull. unfold onMakeBuffer. rewrite Hnull.
    now destruct (lastDecodeFrame rd =? targetFrame).
  - intros pb Hpb Hneg. unfold onMakeBuffer, findStartFrame.
    destruct rd as [sq pbuf last]. cbn [pixelBuffer lastDecodeFrame sequence] in *.
    subst pbuf. destruct pb as [inf px].
    destruct (Z.eqb_spec last targetFrame) as [-> | _].
    + exists []. repeat split.
    + replace (Z.to_nat (targetFrame + 1)) with O by lia.
      cbn [findStartFrame_loop bindRun].
      replace (Z.to_nat (targetFrame - 0 + 1)) with O by lia.
      cbn [replayFrames bindRun ok pixels events PixelBuffer.info PixelBuffer.pixels app].
      eexists. repeat split.
  - intros pb Hpb Hge Hlast. unfold onMakeBuffer, findStartFrame.
    destruct (Z.eqb_spec (lastDecodeFrame rd) targetFrame) as [| _]; [lia |].
    rewrite Hpb.
    replace (Z.to_nat (targetFrame + 1)) with (S (Z.to_nat targetFrame)) by lia.
    cbn [findStartFrame_loop]. rewrite Z2Nat.id by lia.
    rewrite (frameAt_beyond _ _ Hge).
    destruct (targetFrame =? lastDecodeFrame rd + 1); [| reflexivity].
    cbn [bindRun].
    replace (Z.to_nat (targetFrame - targetFrame + 1)) with 1%nat by lia.
    cbn [replayFrames]. now rewrite (frameAt_beyond _ _ Hge).
Qed.

Lemma onMakeBuffer_unchecked_request_witness :
  onMakeBuffer Sample.makeFrom 0 (construct Sample.damaged None)
  = Done (mkCall None (construct Sample.damaged None) [])
  /\
  (exists evs,
      onMakeBuffer Sample.makeFrom (-2) (Sample.fresh Sample.damaged)
      = Done (mkCall (pixelBuffer (Sample.fresh Sample.damaged))
                     (make Sample.damaged (pixelBuffer (Sample.fresh Sample.damaged)) (-2))
                     evs) /\
      decodes evs = [] /\ existsb isRead evs = false)
  /\
  onMakeBuffer Sample.makeFrom 1 (Sample.fresh Sample.damaged) = OutOfBounds.
Proof.
  split; [| split].
  - apply (onMakeBuffer_unchecked_request Sample.makeFrom 0 (construct Sample.damaged None)).
    reflexivity.
  - apply (onMakeBuffer_unchecked_request Sample.makeFrom (-2) (Sample.fresh Sample.damaged)).
    + reflexivity.
    + lia.
  - apply (proj2 (proj2 (onMakeBuffer_unchecked_request Sample.makeFrom 1
                           (Sample.fresh Sample.damaged)))
             (PixelBuffer.make Sample.info (eraseAll (PixelBuffer.pixels Sample.canvas)))).
    + reflexivity.
    + simpl. lia.
    + vm_compute. reflexivity.
Defined.

(** ** When the canvas is erased *)

Lemma eraseAll_nth (mem : list byte) : forall i, nth i (eraseAll mem) x00 = x00.
Proof.
  induction mem as [| b mem IH]; intros [| i]; cbn; auto.
Qed.

Lemma eraseAll_same_length (mem1 : list byte) :
  forall mem2, List.length mem1 = List.length mem2 -> eraseAll mem1 = eraseAll mem2.
Proof.
  induction mem1 as [| b mem1 IH]; intros [| c mem2] Hlen; cbn in *;
    try discriminate; [reflexivity |].
  f_equal. apply IH. now injection Hlen.
Qed.

Lemma sizeDiffers_true (codec : ImageCodec.t) (info : ImageInfo.t) :
  sizeDiffers codec info = true <->
  ImageCodec.width codec <> ImageInfo.width info \/
  ImageCodec.height codec <> ImageInfo.height info.
Proof.
  unfold sizeDiffers.
  destruct (Z.eqb_spec (ImageCodec.width codec) (ImageInfo.width info));
    destruct (Z.eqb_spec (ImageCodec.height codec) (ImageInfo.height info));
    cbn; intuition (discriminate || congruence).
Qed.

Lemma erasures_In (evs : list Event) :
  In EraseAll evs <-> (0 < erasures evs)%nat.
Proof.
  induction evs as [| e evs IH].
  - cbn. split; [tauto | lia].
  - rewrite erasures_cons. cbn [In]. split.
    + intros [-> | Hin]; [cbn; lia |]. apply IH in Hin. lia.
    + intros Hpos. destruct e; cbn [isErase] in Hpos;
        try (right; apply IH; lia).
      now left.
Qed.

(** ** What a keyframe smaller than the canvas leaves behind *)

Section ClearOnShrink.

Variable makeFrom : list byte -> option ImageCodec.t.
Variable info : ImageInfo.t.
Variable region : nat -> Prop.

(** Every patch of the frame paints inside [region]. *)
Let paintInside (bitmaps : list BitmapRect.t) : Prop :=
  forall bitmapRect codec,
    In bitmapRect bitmaps ->
    makeFrom (BitmapRect.fileBytes bitmapRect) = Some codec ->
    paintsWithin codec info (patchOffset info bitmapRect) region.

Let clearOutside (mem : list byte) : Prop :=
  forall i, ~ region i -> nth i mem x00 = x00.

(** Painting keeps what lies outside the painted region transparent. *)
Lemma replayBitmaps_outside (isKeyframe : bool) (bitmaps : list BitmapRect.t) :
  paintInside bitmaps ->
  forall firstRead mem,
    clearOutside mem ->
    clearOutside (pixels (replayBitmaps makeFrom info isKeyframe bitmaps firstRead mem)).
Proof.
  induction bitmaps as [| rect rest IH]; intros Hpaint firstRead mem Hmem;
    [exact Hmem |].
  assert (paintInside rest) as Hrest.
  { intros rect' codec' Hin. apply Hpaint. now right. }
  destruct (makeFrom (BitmapRect.fileBytes rect)) as [codec |] eqn:E.
  - pose proof (Hpaint rect codec (or_introl eq_refl) E) as Hcodec.
    assert (forall m, clearOutside m ->
                      clearOutside (snd (ImageCodec.readPixels codec info m
                                           (patchOffset info rect)))) as Hread.
    { intros m Hm i Hi. rewrite (Hcodec m i Hi). now apply Hm. }
    assert (clearOutside (eraseAll mem)) as Herased.
    { intros i _. apply eraseAll_nth. }
    step_codec codec info E; cbn [pixels after];
      match goal with
      | R : ImageCodec.readPixels codec info _ _ = (_, ?m') |- _ =>
          assert (clearOutside m') as Hm'
            by (apply (f_equal snd) in R; cbn [snd] in R; rewrite <- R;
                apply Hread;
                destruct (firstRead && isKeyframe && _); assumption)
      end.
    + now apply IH.
    + exact Hm'.
  - cbn [replayBitmaps]. rewrite E. cbn [pixels after]. now apply IH.
Qed.

(** The frame of a keyframe whose first decodable patch is smaller than the
    canvas: the canvas is erased right before that patch is read, and
    afterwards only the painted region can be other than transparent. *)
Lemma replayBitmaps_shrunk_keyframe (bitmaps : list BitmapRect.t) :
  forall (mem : list byte) (bitmapRect : BitmapRect.t) (codec : ImageCodec.t),
    firstCodec makeFrom bitmaps = Some (bitmapRect, codec) ->
    ImageCodec.width codec < ImageInfo.width info \/
    ImageCodec.height codec < ImageInfo.height info ->
    paintInside bitmaps ->
    let r := replayBitmaps makeFrom info true bitmaps true mem in
    (exists pre res post,
        events r = pre ++ EraseAll
                       :: ReadPixels (patchOffset info bitmapRect) res :: post /\
        existsb isRead pre = false /\ existsb isErase pre = false)
    /\ clearOutside (pixels r).
Proof.
  induction bitmaps as [| rect rest IH]; intros mem rect0 codec0 Hfirst Hsmall Hpaint;
    [discriminate |].
  assert (paintInside rest) as Hrest.
  { intros rect' codec' Hin. apply Hpaint. now right. }
  cbn [firstCodec] in Hfirst.
  destruct (makeFrom (BitmapRect.fileBytes rect)) as [codec |] eqn:E.
  - injection Hfirst as <- <-.
    assert (sizeDiffers codec info = true) as Hdiff.
    { apply sizeDiffers_true. lia. }
    pose proof (Hpaint rect codec (or_introl eq_refl) E) as Hcodec.
    cbn [replayBitmaps]. rewrite E. cbv zeta.
    fold (sizeDiffers codec info). rewrite Hdiff. cbn [andb app].
    destruct (ImageCodec.readPixels codec info (eraseAll mem) (patchOffset info rect))
      as [res mem'] eqn:R.
    assert (clearOutside mem') as Hm'.
    { intros i Hi. pose proof (Hcodec (eraseAll mem) i Hi) as H.
      rewrite R in H. cbn [snd] in H. rewrite H. apply eraseAll_nth. }
    destruct res; cbn [events pixels after app].
    + split.
      * exists [MakeFrom (BitmapRect.fileBytes rect)], true. eexists.
        split; [reflexivity |]. split; reflexivity.
      * now apply replayBitmaps_outside.
    + split.
      * exists [MakeFrom (BitmapRect.fileBytes rect)], false, [].
        split; [reflexivity |]. split; reflexivity.
      * exact Hm'.
  - destruct (IH mem rect0 codec0 Hfirst Hsmall Hrest)
      as [[pre [res [post [Hev [Hnoread Hnoerase]]]]] Hclear].
    cbn [replayBitmaps]. rewrite E. cbn [events pixels after app].
    split; [| exact Hclear].
    exists (MakeFrom (BitmapRect.fileBytes rect) :: pre), res, post.
    rewrite Hev. split; [reflexivity |].
    cbn [existsb isRead isErase orb]. now split.
Qed.

(** The same for any first patch whose decoded size is not the canvas's. *)
Lemma replayBitmaps_erased_outside (bitmaps : list BitmapRect.t) :
  forall (mem : list byte) (bitmapRect : BitmapRect.t) (codec : ImageCodec.t),
    firstCodec makeFrom bitmaps = Some (bitmapRect, codec) ->
    sizeDiffers codec info = true ->
    paintInside bitmaps ->
    clearOutside (pixels (replayBitmaps makeFrom info true bitmaps true mem)).
Proof.
  induction bitmaps as [| rect rest IH]; intros mem rect0 codec0 Hfirst Hdiff Hpaint;
    [discriminate |].
  assert (paintInside rest) as Hrest.
  { intros rect' codec' Hin. apply Hpaint. now right. }
  cbn [firstCodec] in Hfirst.
  destruct (makeFrom (BitmapRect.fileBytes rect)) as [codec |] eqn:E.
  - injection Hfirst as <- <-.
    pose proof (Hpaint rect codec (or_introl eq_refl) E) as Hcodec.
    cbn [replayBitmaps]. rewrite E. cbv zeta.
    fold (sizeDiffers codec info). rewrite Hdiff. cbn [andb app].
    destruct (ImageCodec.readPixels codec info (eraseAll mem) (patchOffset info rect))
      as [res mem'] eqn:R.
    assert (clearOutside mem') as Hm'.
    { intros i Hi. pose proof (Hcodec (eraseAll mem) i Hi) as H.
      rewrite R in H. cbn [snd] in H. rewrite H. apply eraseAll_nth. }
    destruct res; cbn [pixels after].
    + now apply replayBitmaps_outside.
    + exact Hm'.
  - cbn [replayBitmaps]. rewrite E. cbn [pixels after].
    exact (IH mem rect0 codec0 Hfirst Hdiff Hrest).
Qed.

(** After the first read nothing is erased: outside the painted region the
    canvas keeps its bytes. *)
Lemma replayBitmaps_later_outside (isKeyframe : bool) (bitmaps : list BitmapRect.t) :
  paintInside bitmaps ->
  forall mem i,
    ~ region i ->
    nth i (pixels (replayBitmaps makeFrom info isKeyframe bitmaps false mem)) x00
    = nth i mem x00.
Proof.
  induction bitmaps as [| rect rest IH]; intros Hpaint mem i Hi; [reflexivity |].
  assert (paintInside rest) as Hrest.
  { intros rect' codec' Hin. apply Hpaint. now right. }
  destruct (makeFrom (BitmapRect.fileBytes rect)) as [codec |] eqn:E.
  - cbn [replayBitmaps]. rewrite E. cbv zeta. cbn [andb].
    destruct (ImageCodec.readPixels codec info mem (patchOffset info rect))
      as [res mem'] eqn:R.
    pose proof (Hpaint rect codec (or_introl eq_refl) E mem i Hi) as Hcodec.
    rewrite R in Hcodec. cbn [snd] in Hcodec.
    destruct res; cbn [pixels after].
    + rewrite (IH Hrest mem' i Hi). exact Hcodec.
    + exact Hcodec.
  - cbn [replayBitmaps]. rewrite E. cbn [pixels after]. now apply IH.
Qed.

(** A frame that is no keyframe, or has no patch with a codec, or whose first
    such patch has the size of the canvas, keeps the bytes outside the
    painted region. *)
Lemma replayBitmaps_kept_outside (isKeyframe : bool) (bitmaps : list BitmapRect.t) :
  match firstCodec makeFrom bitmaps with
  | Some (_, codec) => isKeyframe && sizeDiffers codec info
  | None => false
  end = false ->
  paintInside bitmaps ->
  forall mem i,
    ~ region i ->
    nth i (pixels (replayBitmaps makeFrom info isKeyframe bitmaps true mem)) x00
    = nth i mem x00.
Proof.
  induction bitmaps as [| rect rest IH]; intros Hno Hpaint mem i Hi; [reflexivity |].
  assert (paintInside rest) as Hrest.
  { intros rect' codec' Hin. apply Hpaint. now right. }
  cbn [firstCodec] in Hno.
  destruct (makeFrom (BitmapRect.fileBytes rect)) as [codec |] eqn:E.
  - cbn [replayBitmaps]. rewrite E. cbv zeta.
    fold (sizeDiffers codec info). cbn [andb]. rewrite Hno. cbn [app].
    destruct (ImageCodec.readPixels codec info mem (patchOffset info rect))
      as [res mem'] eqn:R.
    pose proof (Hpaint rect codec (or_introl eq_refl) E mem i Hi) as Hcodec.
    rewrite R in Hcodec. cbn [snd] in Hcodec.
    destruct res; cbn [pixels after].
    + rewrite (replayBitmaps_later_outside isKeyframe rest Hrest mem' i Hi).
      exact Hcodec.
    + exact Hcodec.
  - cbn [replayBitmaps]. rewrite E. cbn [pixels after]. now apply IH.
Qed.

End ClearOnShrink.

(** C3. In the frame of a keyframe whose first patch with a codec decodes to
    a width or a height smaller than the canvas's, the canvas is erased right
    before that patch is read and not before; when the frame is done (or has
    failed), every byte outside the region the patches of the frame paint in
    is zero, whatever the canvas held before. *)
Theorem keyframe_smaller_than_canvas_clears
        (makeFrom : list byte -> option ImageCodec.t) (info : ImageInfo.t)
        (region : nat -> Prop) (bitmaps : list BitmapRect.t) (mem : list byte)
        (bitmapRect : BitmapRect.t) (codec : ImageCodec.t) :
  firstCodec makeFrom bitmaps = Some (bitmapRect, codec) ->
  ImageCodec.width codec < ImageInfo.width info \/
  ImageCodec.height codec < ImageInfo.height info ->
  (forall bitmapRect' codec',
      In bitmapRect' bitmaps ->
      makeFrom (BitmapRect.fileBytes bitmapRect') = Some codec' ->
      paintsWithin codec' info (patchOffset info bitmapRect') region) ->
  let r := replayBitmaps makeFrom info true bitmaps true mem in
  (exists pre res post,
      events r = pre ++ EraseAll
                     :: ReadPixels (patchOffset info bitmapRect) res :: post /\
      existsb isRead pre = false /\ existsb isErase pre = false)
  /\ forall i, ~ region i -> nth i (pixels r) x00 = x00.
Proof.
  exact (replayBitmaps_shrunk_keyframe makeFrom info region bitmaps mem bitmapRect codec).
Qed.

(** The toy codec writes its payload and nothing else. *)
Lemma overwrite_outside (mem : list byte) :
  forall (offset : nat) (data : list byte) (i : nat),
    (i < offset \/ offset + List.length data <= i)%nat ->
    nth i (Sample.overwrite mem offset data) x00 = nth i mem x00.
Proof.
  induction mem as [| b mem IH]; intros offset data i Hi; [reflexivity |].
  destruct offset as [| offset].
  - destruct data as [| d data]; [reflexivity |].
    destruct i as [| i]; cbn in Hi; [lia |].
    cbn [Sample.overwrite nth]. apply IH. cbn. lia.
  - destruct i as [| i]; [reflexivity |].
    cbn [Sample.overwrite nth]. apply IH. lia.
Qed.

Lemma keyframe_smaller_than_canvas_clears_witness :
  let r := replayBitmaps Sample.makeFrom Sample.info true
                         [BitmapRect.make 0 0 []; BitmapRect.make 1 0 Sample.red]
                         true (PixelBuffer.pixels Sample.canvas) in
  (exists pre res post,
      events r = pre ++ EraseAll :: ReadPixels 4 res :: post /\
      existsb isRead pre = false /\ existsb isErase pre = false)
  /\ forall i, ~ (4 <= i < 8)%nat -> nth i (pixels r) x00 = x00.
Proof.
  apply (keyframe_smaller_than_canvas_clears Sample.makeFrom Sample.info
           (fun i => (4 <= i < 8)%nat)
           [BitmapRect.make 0 0 []; BitmapRect.make 1 0 Sample.red]
           (PixelBuffer.pixels Sample.canvas)
           (BitmapRect.make 1 0 Sample.red)
           (ImageCodec.make 1 1
              (fun _ mem offset =>
                 (true, Sample.overwrite mem (Z.to_nat offset) [xf0; x00; x00; xf0])))).
  - reflexivity.
  - left. simpl. lia.
  - intros rect codec [<- | [<- | []]] Hcodec.
    + discriminate.
    + injection Hcodec as <-. intros mem i Hi. cbn.
      apply overwrite_outside. cbn. lia.
Defined.

(** The same at the level of a call: asked for such a keyframe, the reader
    starts the replay at it and leaves a canvas that is transparent outside
    the painted region. *)
Lemma onMakeBuffer_shrunk_keyframe
      (makeFrom : list byte -> option ImageCodec.t) (region : nat -> Prop)
      (targetFrame : Frame) (rd : BitmapSequenceReader.t) (pb : PixelBuffer.t)
      (bitmapFrame : BitmapFrame.t) (bitmapRect : BitmapRect.t) (codec : ImageCodec.t) :
  pixelBuffer rd = Some pb ->
  lastDecodeFrame rd <> targetFrame ->
  frameAt (BitmapSequence.frames (sequence rd)) targetFrame = Some bitmapFrame ->
  BitmapFrame.isKeyframe bitmapFrame = true ->
  firstCodec makeFrom (BitmapFrame.bitmaps bitmapFrame) = Some (bitmapRect, codec) ->
  ImageCodec.width codec < ImageInfo.width (PixelBuffer.info pb) \/
  ImageCodec.height codec < ImageInfo.height (PixelBuffer.info pb) ->
  (forall bitmapRect' codec',
      In bitmapRect' (BitmapFrame.bitmaps bitmapFrame) ->
      makeFrom (BitmapRect.fileBytes bitmapRect') = Some codec' ->
      paintsWithin codec' (PixelBuffer.info pb)
                   (patchOffset (PixelBuffer.info pb) bitmapRect') region) ->
  exists call pb',
    onMakeBuffer makeFrom targetFrame rd = Done call /\
    pixelBuffer (reader call) = Some pb' /\
    In EraseAll (trace call) /\
    forall i, ~ region i -> nth i (PixelBuffer.pixels pb') x00 = x00.
Proof.
  intros Hpb Hlast Hat Hkey Hfirst Hsmall Hpaint.
  pose proof (frameAt_Some_range _ _ _ Hat) as Hrange.
  assert (findStartFrame rd targetFrame = Done targetFrame) as Hstart.
  { unfold findStartFrame.
    replace (Z.to_nat (targetFrame + 1)) with (S (Z.to_nat targetFrame)) by lia.
    cbn [findStartFrame_loop]. rewrite Z2Nat.id by lia.
    rewrite Hat, Hkey. now destruct (targetFrame =? lastDecodeFrame rd + 1). }
  destruct (replayBitmaps_shrunk_keyframe makeFrom (PixelBuffer.info pb) region
              (BitmapFrame.bitmaps bitmapFrame) (PixelBuffer.pixels pb)
              bitmapRect codec Hfirst Hsmall Hpaint)
    as [[pre [res [post [Hev _]]]] Hclear].
  set (r1 := replayBitmaps makeFrom (PixelBuffer.info pb) true
                           (BitmapFrame.bitmaps bitmapFrame) true
                           (PixelBuffer.pixels pb)) in *.
  assert (exists r,
             replayFrames makeFrom (BitmapSequence.frames (sequence rd))
                          (PixelBuffer.info pb)
                          (Z.to_nat (targetFrame - targetFrame + 1)) targetFrame
                          (PixelBuffer.pixels pb) = Done r /\
             pixels r = pixels r1 /\ In EraseAll (events r)) as [r [Hr [Hpx Hin]]].
  { replace (Z.to_nat (targetFrame - targetFrame + 1)) with 1%nat by lia.
    cbn [replayFrames]. rewrite Hat, Hkey. fold r1.
    assert (In EraseAll (events r1)) as Hin1.
    { rewrite Hev. apply in_or_app. right. now left. }
    destruct (ok r1); cbn [bindRun].
    - eexists. split; [reflexivity |]. cbn [pixels events after].
      split; [reflexivity |]. apply in_or_app. now left.
    - exists r1. repeat split. exact Hin1. }
  rewrite (onMakeBuffer_replays makeFrom _ _ _ _ _ Hpb Hlast Hstart Hr).
  destruct (ok r); eexists; eexists; (split; [reflexivity |]);
    cbn [reader pixelBuffer trace PixelBuffer.pixels];
    (split; [reflexivity |]); rewrite Hpx;
    (split; [| exact Hclear]).
  - right. apply in_or_app. now left.
  - now right.
Qed.

(** ** The erase rule of a frame *)

(** Patches whose bytes give no codec do not count: the frame without them
    reads, erases and paints the same. *)
Lemma replayBitmaps_skips (makeFrom : list byte -> option ImageCodec.t)
      (info : ImageInfo.t) (isKeyframe : bool) (bitmaps : list BitmapRect.t) :
  forall firstRead mem,
    let r := replayBitmaps makeFrom info isKeyframe bitmaps firstRead mem in
    let r' := replayBitmaps makeFrom info isKeyframe
                            (filter (hasCodec makeFrom) bitmaps) firstRead mem in
    ok r = ok r' /\ pixels r = pixels r' /\
    reads (events r) = reads (events r') /\
    erasures (events r) = erasures (events r').
Proof.
  induction bitmaps as [| rect rest IH]; intros firstRead mem;
    [cbn; repeat split; reflexivity |].
  cbv zeta. cbn [filter].
  destruct (makeFrom (BitmapRect.fileBytes rect)) as [codec |] eqn:E.
  - replace (hasCodec makeFrom rect) with true by (unfold hasCodec; now rewrite E).
    cbn [replayBitmaps]. rewrite E. cbv zeta.
    destruct (ImageCodec.readPixels codec info _ _) as [res mem'].
    destruct res; cbn [ok pixels events after]; [| now repeat split].
    destruct (IH false mem') as [Hok [Hpx [Hrd Her]]].
    rewrite !reads_app, !erasures_app, Hrd, Her.
    repeat split; assumption.
  - replace (hasCodec makeFrom rect) with false by (unfold hasCodec; now rewrite E).
    cbn [replayBitmaps]. rewrite E. cbn [ok pixels events after].
    rewrite !reads_app, !erasures_app.
    cbn [reads flat_map erasures filter length app isErase].
    exact (IH firstRead mem).
Qed.

(** Once a patch has been read, whether the frame is a keyframe no longer
    matters. *)
Lemma replayBitmaps_later_any_frame (makeFrom : list byte -> option ImageCodec.t)
      (info : ImageInfo.t) (key1 key2 : bool) (bitmaps : list BitmapRect.t) :
  forall mem,
    replayBitmaps makeFrom info key1 bitmaps false mem
    = replayBitmaps makeFrom info key2 bitmaps false mem.
Proof.
  induction bitmaps as [| rect rest IH]; intros mem; [reflexivity |].
  cbn [replayBitmaps].
  destruct (makeFrom (BitmapRect.fileBytes rect)) as [codec |]; cbv zeta; cbn [andb].
  - destruct (ImageCodec.readPixels codec info mem (patchOffset info rect))
      as [res mem'].
    destruct res; [| reflexivity]. now rewrite IH.
  - now rewrite IH.
Qed.

(** The erasure comes before every read of the frame: a frame that erases
    paints what a frame that does not paints on the erased canvas. *)
Lemma replayBitmaps_as_on_erased (makeFrom : list byte -> option ImageCodec.t)
      (info : ImageInfo.t) (isKeyframe : bool) (bitmaps : list BitmapRect.t) :
  forall mem,
    let erase := match firstCodec makeFrom bitmaps with
                 | Some (_, codec) => isKeyframe && sizeDiffers codec info
                 | None => false
                 end in
    let r := replayBitmaps makeFrom info isKeyframe bitmaps true mem in
    let r' := replayBitmaps makeFrom info false bitmaps true
                            (if erase then eraseAll mem else mem) in
    ok r = ok r' /\ pixels r = pixels r'.
Proof.
  induction bitmaps as [| rect rest IH]; intros mem; [now split |].
  cbv zeta. cbn [firstCodec replayBitmaps].
  destruct (makeFrom (BitmapRect.fileBytes rect)) as [codec |]; cbv zeta.
  - fold (sizeDiffers codec info). cbn [andb].
    destruct (ImageCodec.readPixels codec info _ _) as [res mem'].
    destruct res; cbn [ok pixels after]; [| now split].
    now rewrite (replayBitmaps_later_any_frame makeFrom info isKeyframe false rest mem').
  - cbn [ok pixels after]. exact (IH mem).
Qed.

(** C9. A patch whose bytes give no codec is passed over: the frame reads,
    erases and paints as it does without such patches, so the next patch
    still counts as the first.  In one frame the canvas is erased at most
    once, and it is erased if and only if the frame is a keyframe and its
    first patch that has a codec has a decoded width or height other than the
    width or height of the canvas.  Erased means: the frame succeeds or
    fails, and leaves the canvas, as a frame that is no keyframe does on the
    canvas with every byte set to zero, so that when it is done (or has
    failed) every byte outside the region its patches paint in is zero; not
    erased means that it does as a frame that is no keyframe on the canvas as
    it was, and every such byte is what it was before the frame. *)
Theorem replayBitmaps_erase_rule (makeFrom : list byte -> option ImageCodec.t)
        (info : ImageInfo.t) (isKeyframe : bool) (bitmaps : list BitmapRect.t)
        (mem : list byte) :
  let r := replayBitmaps makeFrom info isKeyframe bitmaps true mem in
  let r' := replayBitmaps makeFrom info isKeyframe
                          (filter (hasCodec makeFrom) bitmaps) true mem in
  let differs :=
    isKeyframe = true /\
    exists bitmapRect codec,
      firstCodec makeFrom bitmaps = Some (bitmapRect, codec) /\
      (ImageCodec.width codec <> ImageInfo.width info \/
       ImageCodec.height codec <> ImageInfo.height info) in
  (ok r = ok r' /\ pixels r = pixels r' /\
   reads (events r) = reads (events r') /\
   erasures (events r) = erasures (events r'))
  /\ (erasures (events r) <= 1)%nat
  /\ (In EraseAll (events r) <-> differs)
  /\ ((differs ->
       let erased := replayBitmaps makeFrom info false bitmaps true (eraseAll mem) in
       ok r = ok erased /\ pixels r = pixels erased) /\
      (~ differs ->
       let kept := replayBitmaps makeFrom info false bitmaps true mem in
       ok r = ok kept /\ pixels r = pixels kept))
  /\ (forall region : nat -> Prop,
        (forall bitmapRect codec,
            In bitmapRect bitmaps ->
            makeFrom (BitmapRect.fileBytes bitmapRect) = Some codec ->
            paintsWithin codec info (patchOffset info bitmapRect) region) ->
        (differs -> forall i, ~ region i -> nth i (pixels r) x00 = x00) /\
        (~ differs -> forall i, ~ region i -> nth i (pixels r) x00 = nth i mem x00)).
Proof.
  intros r r' differs.
  assert (match firstCodec makeFrom bitmaps with
          | Some (_, codec) => isKeyframe && sizeDiffers codec info
          | None => false
          end = true <-> differs) as Hrule.
  { subst differs.
    destruct (firstCodec makeFrom bitmaps) as [[rect codec] |].
    - split.
      + intros H. apply andb_prop in H as [Hkey Hdiff]. split; [exact Hkey |].
        exists rect, codec. split; [reflexivity |]. now apply sizeDiffers_true.
      + intros [Hkey [rect' [codec' [Heq Hdiff]]]]. injection Heq as <- <-.
        apply sizeDiffers_true in Hdiff. now rewrite Hkey, Hdiff.
    - split; [discriminate |]. intros [_ [rect [codec [Heq _]]]]. discriminate. }
  split; [| split; [| split; [| split]]].
  - exact (replayBitmaps_skips makeFrom info isKeyframe bitmaps true mem).
  - subst r. rewrite replayBitmaps_erasures.
    destruct (firstCodec makeFrom bitmaps) as [[rect codec] |]; [| lia].
    destruct (true && isKeyframe && sizeDiffers codec info); lia.
  - subst r differs. rewrite erasures_In, replayBitmaps_erasures.
    destruct (firstCodec makeFrom bitmaps) as [[rect codec] |].
    + cbn [andb]. destruct isKeyframe; cbn [andb].
      * destruct (sizeDiffers codec info) eqn:Ediff.
        -- split; [| lia]. intros _. split; [reflexivity |].
           exists rect, codec. split; [reflexivity |].
           now apply sizeDiffers_true.
        -- split; [lia |]. intros [_ [rect' [codec' [Heq Hdiff]]]].
           injection Heq as <- <-.
           apply sizeDiffers_true in Hdiff. congruence.
      * split; [lia |]. intros [Hkey _]. discriminate.
    + split; [lia |]. intros [_ [rect [codec [Heq _]]]]. discriminate.
  - pose proof (replayBitmaps_as_on_erased makeFrom info isKeyframe bitmaps mem)
      as Hon. cbv zeta in Hon. fold r in Hon.
    destruct (match firstCodec makeFrom bitmaps with
              | Some (_, codec) => isKeyframe && sizeDiffers codec info
              | None => false
              end).
    + split; [intros _; exact Hon |].
      intros Hsame. exfalso. apply Hsame. now apply Hrule.
    + split; [| intros _; exact Hon].
      intros Hdiff. apply Hrule in Hdiff. discriminate.
  - intros region Hpaint. split.
    + intros [Hkey [rect [codec [Hfirst Hdiff]]]]. subst r. rewrite Hkey.
      apply (replayBitmaps_erased_outside makeFrom info region bitmaps mem rect codec
               Hfirst); [now apply sizeDiffers_true | exact Hpaint].
    + intros Hsame. subst r.
      apply (replayBitmaps_kept_outside makeFrom info region isKeyframe bitmaps);
        [| exact Hpaint].
      destruct (firstCodec makeFrom bitmaps) as [[rect codec] |] eqn:Hfirst;
        [| reflexivity].
      destruct isKeyframe; [| reflexivity].
      destruct (sizeDiffers codec info) eqn:Ediff; [| reflexivity].
      exfalso. apply Hsame. split; [reflexivity |].
      exists rect, codec. split; [reflexivity |]. now apply sizeDiffers_true.
Qed.

Lemma replayBitmaps_erase_rule_witness :
  (forall i, ~ (4 <= i < 8)%nat ->
             nth i (pixels (replayBitmaps Sample.makeFrom Sample.info true
                              [BitmapRect.make 0 0 []; BitmapRect.make 1 0 Sample.red]
                              true (PixelBuffer.pixels Sample.canvas))) x00
             = x00)
  /\
  (forall i, ~ (4 <= i < 8)%nat ->
             nth i (pixels (replayBitmaps Sample.makeFrom Sample.info false
                              [BitmapRect.make 0 0 []; BitmapRect.make 1 0 Sample.red]
                              true (PixelBuffer.pixels Sample.canvas))) x00
             = nth i (PixelBuffer.pixels Sample.canvas) x00).
Proof.
  assert (forall rect codec,
             In rect [BitmapRect.make 0 0 []; BitmapRect.make 1 0 Sample.red] ->
             Sample.makeFrom (BitmapRect.fileBytes rect) = Some codec ->
             paintsWithin codec Sample.info (patchOffset Sample.info rect)
                          (fun i => (4 <= i < 8)%nat)) as Hpaint.
  { intros rect codec [<- | [<- | []]] Hcodec.
    - discriminate.
    - injection Hcodec as <-. intros mem i Hi. cbn.
      apply overwrite_outside. cbn. lia. }
  split.
  - apply (proj1 (proj2 (proj2 (proj2 (proj2
             (replayBitmaps_erase_rule Sample.makeFrom Sample.info true
                [BitmapRect.make 0 0 []; BitmapRect.make 1 0 Sample.red]
                (PixelBuffer.pixels Sample.canvas))))) _ Hpaint)).
    split; [reflexivity |].
    eexists. eexists. split; [reflexivity |]. left. vm_compute. discriminate.
  - apply (proj2 (proj2 (proj2 (proj2 (proj2
             (replayBitmaps_erase_rule Sample.makeFrom Sample.info false
                [BitmapRect.make 0 0 []; BitmapRect.make 1 0 Sample.red]
                (PixelBuffer.pixels Sample.canvas))))) _ Hpaint)).
    intros [Hkey _]. discriminate.
Defined.

(** ** Jumping backwards *)


Section BackwardJump.

Variable makeFrom : list byte -> option ImageCodec.t.
Hypothesis codecs_keep_size : keepsSize makeFrom.

Lemma replayBitmaps_length (info : ImageInfo.t) (isKeyframe : bool)
      (bitmaps : list BitmapRect.t) :
  forall firstRead mem,
    List.length (pixels (replayBitmaps makeFrom info isKeyframe bitmaps firstRead mem))
    = List.length mem.
Proof.
  induction bitmaps as [| rect rest IH]; intros firstRead mem; [reflexivity |].
  destruct (makeFrom (BitmapRect.fileBytes rect)) as [codec |] eqn:E.
  - assert (forall m, List.length (snd (ImageCodec.readPixels codec info m
                                          (patchOffset info rect)))
                      = List.length m) as Hread
        by (intros m; exact (codecs_keep_size _ _ _ _ _ E)).
    step_codec codec info E; cbn [pixels after];
      match goal with
      | R : ImageCodec.readPixels codec info ?m _ = (_, ?m') |- _ =>
          assert (List.length m' = List.length mem) as Hm'
            by (apply (f_equal snd) in R; cbn [snd] in R; rewrite <- R, Hread;
                destruct (firstRead && isKeyframe && _);
                [unfold eraseAll; apply length_map | reflexivity])
      end.
    + now rewrite IH.
    + exact Hm'.
  - cbn [replayBitmaps]. rewrite E. cbn [pixels after]. apply IH.
Qed.

Lemma replayFrames_length (bitmapFrames : list BitmapFrame.t) (info : ImageInfo.t)
      (n : nat) :
  forall frame mem r,
    replayFrames makeFrom bitmapFrames info n frame mem = Done r ->
    List.length (pixels r) = List.length mem.
Proof.
  induction n as [| k IH]; intros frame mem r H.
  - injection H as <-. reflexivity.
  - destruct (replayFrames_step _ _ _ _ _ _ _ H)
      as [bf [_ [[_ ->] | [_ [r' [Hr' ->]]]]]].
    + apply replayBitmaps_length.
    + cbn [pixels after]. rewrite (IH _ _ _ Hr'). apply replayBitmaps_length.
Qed.

(** A keyframe that repaints gives the same frame on any two canvases of one
    size. *)
Lemma replayBitmaps_repaint (info : ImageInfo.t) (bitmaps : list BitmapRect.t) :
  forall mem1 mem2 bitmapRect codec,
    firstCodec makeFrom bitmaps = Some (bitmapRect, codec) ->
    sizeDiffers codec info = true \/
    overwritesAll codec info (patchOffset info bitmapRect) ->
    List.length mem1 = List.length mem2 ->
    replayBitmaps makeFrom info true bitmaps true mem1
    = replayBitmaps makeFrom info true bitmaps true mem2.
Proof.
  induction bitmaps as [| rect rest IH]; intros mem1 mem2 rect0 codec0 Hfirst Hre Hlen;
    [discriminate |].
  cbn [firstCodec] in Hfirst. cbn [replayBitmaps].
  destruct (makeFrom (BitmapRect.fileBytes rect)) as [codec |] eqn:E.
  - injection Hfirst as <- <-. cbv zeta. fold (sizeDiffers codec info).
    cbn [andb].
    destruct (sizeDiffers codec info) eqn:Ediff.
    + now rewrite (eraseAll_same_length mem1 mem2 Hlen).
    + destruct Hre as [| Hall]; [discriminate |].
      now rewrite (Hall mem1 mem2 Hlen).
  - now rewrite (IH mem1 mem2 rect0 codec0 Hfirst Hre Hlen).
Qed.

(** A marker at or beyond the scanned indices does not show in the scan. *)
Lemma findStartFrame_loop_marker_beyond (bitmapFrames : list BitmapFrame.t)
      (last : Frame) (n : nat) :
  (n <= List.length bitmapFrames)%nat ->
  Z.of_nat n <= last + 1 ->
  findStartFrame_loop bitmapFrames last n = findStartFrame_loop bitmapFrames (-1) n.
Proof.
  induction n as [| k IH]; intros Hlen Hlast; [reflexivity |].
  cbn [findStartFrame_loop].
  destruct (Z.eqb_spec (Z.of_nat k) (last + 1)) as [| _]; [lia |].
  rewrite frameAt_of_nat.
  destruct (nth_error bitmapFrames k) as [bf |] eqn:Ebf.
  2:{ apply nth_error_None in Ebf. lia. }
  destruct (Z.eqb_spec (Z.of_nat k) (-1 + 1)) as [Hzero | _].
  - destruct k; [| lia].
    now destruct (BitmapFrame.isKeyframe bf).
  - destruct (BitmapFrame.isKeyframe bf); [reflexivity |].
    apply IH; lia.
Qed.

End BackwardJump.


Lemma overwrite_length (mem : list byte) :
  forall (offset : nat) (data : list byte),
    List.length (Sample.overwrite mem offset data) = List.length mem.
Proof.
  induction mem as [| b mem IH]; intros offset data; [reflexivity |].
  destruct offset as [| offset]; [destruct data as [| d data] |];
    cbn [Sample.overwrite List.length]; now rewrite ?IH.
Qed.

Lemma Sample_keepsSize : keepsSize Sample.makeFrom.
Proof.
  intros bytes codec info mem offset Hcodec.
  destruct bytes as [| w [| h payload]]; try discriminate.
  injection Hcodec as <-. cbn.
  destruct (Byte.eqb w xff); cbn; [reflexivity | apply overwrite_length].
Qed.


(** * Properties of the YUV texture effect *)

(** ** Uploading the conversion matrix *)

Lemma YUVColorSpace_eqb_eq (a b : YUVColorSpace.t) :
  YUVColorSpace.eqb a b = true <-> a = b.
Proof. destruct a, b; cbn; split; intros H; (reflexivity || discriminate). Qed.

Lemma handle_eqb_eq (a b : UniformHandle) : handle_eqb a b = true <-> a = b.
Proof.
  destruct a as [i |], b as [j |]; cbn; split; intros H;
    try discriminate; try reflexivity.
  - apply Nat.eqb_eq in H. now subst.
  - injection H as ->. apply Nat.eqb_refl.
Qed.

Lemma matrixUploads_app (a b : list GLYUVTextureEffect.GLCall) :
  matrixUploads (a ++ b) = matrixUploads a ++ matrixUploads b.
Proof. unfold matrixUploads. apply flat_map_app. Qed.

(** The alpha start point is set through its own uniform and touches neither
    the matrix uniform's handle nor the cached tag. *)
Lemma setAlphaStart_spec (yuvFP : YUVTextureEffect.t) (self : GLYUVTextureEffect.t) :
  let self1 := fst (GLYUVTextureEffect.setAlphaStart yuvFP self) in
  let calls1 := snd (GLYUVTextureEffect.setAlphaStart yuvFP self) in
  GLYUVTextureEffect.mat3ColorConversionUniform self1
  = GLYUVTextureEffect.mat3ColorConversionUniform self /\
  GLYUVTextureEffect.colorSpacePrev self1 = GLYUVTextureEffect.colorSpacePrev self /\
  matrixUploads calls1 = [] /\
  forall data h,
    h <> GLYUVTextureEffect.alphaStartUniform self ->
    performAll calls1 data h = data h.
Proof.
  unfold GLYUVTextureEffect.setAlphaStart.
  destruct (isValid (GLYUVTextureEffect.alphaStartUniform self));
    [destruct (negb (Point.eqb _ _)) |]; cbn; repeat split; auto.
  intros data h Hne.
  destruct (handle_eqb (GLYUVTextureEffect.alphaStartUniform self) h) eqn:E;
    [| reflexivity].
  apply handle_eqb_eq in E. congruence.
Qed.

(** C4, as worded, fails: when the tag is the one applied last, nothing is
    uploaded. *)
Lemma uploadsMatrixOfTag_counterexample : ~ uploadsMatrixOfTag.
Proof.
  intros H.
  specialize (H (Sample.effect YUVColorSpace.BT601_LIMITED Point.Zero)
                (Sample.processor YUVColorSpace.BT601_LIMITED)
                GLYUVTextureEffect.ColorConversion601LimitRange eq_refl).
  vm_compute in H. discriminate.
Qed.

(** C4, amended. For each of the seven tags, applying the uniforms with a tag
    other than the one applied last uploads exactly the matrix of the tag, to
    the matrix uniform; with the tag applied last it uploads no matrix.  For
    an unrecognized tag no matrix is uploaded and every uniform other than
    the alpha start keeps what it had bound.  In all cases the tag becomes
    the one applied last. *)
Theorem onSetData_matrix_upload (yuvFP : YUVTextureEffect.t)
        (self : GLYUVTextureEffect.t) :
  let tag := YUVTexture.colorSpace (YUVTextureEffect.texture yuvFP) in
  let self' := fst (GLYUVTextureEffect.onSetData yuvFP self) in
  let calls := snd (GLYUVTextureEffect.onSetData yuvFP self) in
  (forall matrix,
      conversionMatrix tag = Some matrix ->
      tag <> GLYUVTextureEffect.colorSpacePrev self ->
      matrixUploads calls = [(GLYUVTextureEffect.mat3ColorConversionUniform self, matrix)])
  /\ (tag = GLYUVTextureEffect.colorSpacePrev self -> matrixUploads calls = [])
  /\ (conversionMatrix tag = None ->
      matrixUploads calls = [] /\
      forall data h,
        h <> GLYUVTextureEffect.alphaStartUniform self ->
        performAll calls data h = data h)
  /\ GLYUVTextureEffect.colorSpacePrev self' = tag.
Proof.
  intros tag self' calls. subst self' calls.
  unfold GLYUVTextureEffect.onSetData.
  destruct (setAlphaStart_spec yuvFP self) as [Hmat [Hprev [Hup Hkeep]]].
  destruct (GLYUVTextureEffect.setAlphaStart yuvFP self) as [self1 calls1].
  cbn [fst snd] in Hmat, Hprev, Hup, Hkeep.
  unfold GLYUVTextureEffect.setColorConversion. fold tag.
  rewrite Hprev, Hmat.
  destruct (YUVColorSpace.eqb tag (GLYUVTextureEffect.colorSpacePrev self)) eqn:Ehit.
  - apply YUVColorSpace_eqb_eq in Ehit. cbn [negb fst snd].
    rewrite app_nil_r, Hup.
    repeat split; try congruence.
    intros data h Hne. now apply Hkeep.
  - assert (tag <> GLYUVTextureEffect.colorSpacePrev self) as Hmiss.
    { intros Heq. apply YUVColorSpace_eqb_eq in Heq. congruence. }
    cbn [negb].
    destruct tag eqn:Etag; cbn [fst snd conversionMatrix
                                  GLYUVTextureEffect.colorSpacePrev
                                  GLYUVTextureEffect.mat3ColorConversionUniform];
      rewrite ?app_nil_r, ?matrixUploads_app, ?Hup; cbn [app matrixUploads flat_map];
      (split; [intros matrix Hm _; congruence |]);
      (split; [intros Heq; congruence |]);
      (split; [intros Hnone; try discriminate | reflexivity]).
    split; [reflexivity |]. intros data h Hne. now apply Hkeep.
Qed.

Lemma onSetData_matrix_upload_witness :
  matrixUploads
    (snd (GLYUVTextureEffect.onSetData
            (Sample.effect YUVColorSpace.BT709_LIMITED Point.Zero)
            (Sample.processor YUVColorSpace.Unknown)))
  = [(Some 0%nat, GLYUVTextureEffect.ColorConversion709LimitRange)]
  /\
  matrixUploads
    (snd (GLYUVTextureEffect.onSetData
            (Sample.effect YUVColorSpace.BT709_LIMITED Point.Zero)
            (Sample.processor YUVColorSpace.BT709_LIMITED)))
  = []
  /\
  matrixUploads
    (snd (GLYUVTextureEffect.onSetData
            (Sample.effect YUVColorSpace.Unknown Point.Zero)
            (Sample.processor YUVColorSpace.JPEG_FULL)))
  = [].
Proof.
  split; [| split].
  - apply (proj1 (onSetData_matrix_upload
                    (Sample.effect YUVColorSpace.BT709_LIMITED Point.Zero)
                    (Sample.processor YUVColorSpace.Unknown))).
    + reflexivity.
    + discriminate.
  - apply (proj1 (proj2 (onSetData_matrix_upload
                           (Sample.effect YUVColorSpace.BT709_LIMITED Point.Zero)
                           (Sample.processor YUVColorSpace.BT709_LIMITED)))).
    reflexivity.
  - apply (proj1 (proj2 (proj2 (onSetData_matrix_upload
                                  (Sample.effect YUVColorSpace.Unknown Point.Zero)
                                  (Sample.processor YUVColorSpace.JPEG_FULL))))).
    reflexivity.
Defined.

(** ** The emitted shader *)

Section Emitted.

Variable mangledName : string -> string.

Let emit := GLYUVTextureEffect.emitCode mangledName.

(** Running [emitCode] to its last branch. *)
Ltac run_emitCode H :=
  unfold emit, GLYUVTextureEffect.emitCode in H;
  repeat match type of H with
         | context [elementAt ?v ?i] => destruct (elementAt v i); cbn [bindRun] in H
         | context [YUVPixelFormat.eqb ?a ?b] =>
             destruct (YUVPixelFormat.eqb a b); cbn [bindRun] in H
         | context [IsLimitedYUVColorRange ?c] =>
             destruct (IsLimitedYUVColorRange c)
         | _ = _ => try discriminate H
         end.

(** C10. When the alpha start point equals [(0, 0)], [emitCode] ends the
    shader with the opaque output (alpha [1.0]), declares the conversion
    matrix as its only uniform and leaves the alpha start uniform as it was;
    on a processor whose alpha start uniform was not valid, applying the
    uniforms afterwards never uploads an alpha start, whatever the effect
    asks for. *)
Theorem emitCode_zero_alphaStart_is_opaque (args : EmitArgs.t)
        (self self' : GLYUVTextureEffect.t) (p p' : Program.t) :
  Point.eqb (YUVTextureEffect.alphaStart (EmitArgs.fragmentProcessor args)) Point.Zero
  = true ->
  emit args self p = Done (self', p') ->
  last (Program.code p') (Code "")
  = Code (EmitArgs.outputColor args ++ " = vec4(rgb, 1.0) * "
            ++ EmitArgs.inputColor args ++ ";")%string
  /\ Program.uniforms p' = Program.uniforms p ++ [(Float3x3, "Mat3ColorConversion"%string)]
  /\ GLYUVTextureEffect.alphaStartUniform self'
     = GLYUVTextureEffect.alphaStartUniform self
  /\ (isValid (GLYUVTextureEffect.alphaStartUniform self) = false ->
      forall yuvFP, snd (GLYUVTextureEffect.setAlphaStart yuvFP self') = []).
Proof.
  intros Hzero H.
  run_emitCode H;
    rewrite Hzero in H;
    cbn [GLYUVTextureEffect.addUniform codeAppend appendTextureLookup
           Program.code Program.uniforms] in H;
    injection H as <- <-;
    cbn [Program.code Program.uniforms GLYUVTextureEffect.alphaStartUniform];
    (split; [apply last_last |]);
    (split; [reflexivity |]);
    (split; [reflexivity |]);
    intros Hinvalid yuvFP;
    unfold GLYUVTextureEffect.setAlphaStart;
    cbn [GLYUVTextureEffect.alphaStartUniform];
    now rewrite Hinvalid.
Qed.

(** With any other alpha start point the shader ends with the correction of
    the sampled alpha, its clamp and the premultiplied output. *)
Lemma emitCode_alpha_correction (args : EmitArgs.t)
      (self self' : GLYUVTextureEffect.t) (p p' : Program.t) :
  Point.eqb (YUVTextureEffect.alphaStart (EmitArgs.fragmentProcessor args)) Point.Zero
  = false ->
  emit args self p = Done (self', p') ->
  firstn 3 (rev (Program.code p'))
  = [ Code (EmitArgs.outputColor args ++ " = vec4(rgb * yuv_a, yuv_a) * "
              ++ EmitArgs.inputColor args ++ ";")%string;
      Code "yuv_a = clamp(yuv_a, 0.0, 1.0);"%string;
      Code "yuv_a = (yuv_a - 16.0/255.0) / (219.0/255.0 - 1.0/255.0);"%string ]
  /\ Program.uniforms p'
     = Program.uniforms p ++ [(Float3x3, "Mat3ColorConversion"%string);
                              (Float2, "AlphaStart"%string)]
  /\ isValid (GLYUVTextureEffect.alphaStartUniform self') = true.
Proof.
  intros Hzero H.
  run_emitCode H;
    rewrite Hzero in H;
    cbn [GLYUVTextureEffect.addUniform codeAppend appendTextureLookup
           Program.code Program.uniforms] in H;
    injection H as <- <-;
    unfold codeAppend, appendTextureLookup;
    cbn [Program.code Program.uniforms GLYUVTextureEffect.alphaStartUniform isValid];
    rewrite !rev_unit, <- app_assoc; repeat split.
Qed.

End Emitted.

Lemma emitCode_zero_alphaStart_is_opaque_witness :
  exists self' p',
    GLYUVTextureEffect.emitCode (fun name => (name ++ "_P0")%string)
      (Sample.args Point.Zero) (Sample.processor YUVColorSpace.Unknown)
      (Program.make [] []) = Done (self', p') /\
    last (Program.code p') (Code "")
    = Code "gl_FragColor = vec4(rgb, 1.0) * inputColor;"%string /\
    Program.uniforms p' = [(Float3x3, "Mat3ColorConversion"%string)] /\
    GLYUVTextureEffect.alphaStartUniform self' = None /\
    (isValid None = false ->
     forall yuvFP, snd (GLYUVTextureEffect.setAlphaStart yuvFP self') = []).
Proof.
  eexists. eexists.
  refine ((fun H => conj H (emitCode_zero_alphaStart_is_opaque
                              (fun name => (name ++ "_P0")%string)
                              (Sample.args Point.Zero)
                              (Sample.processor YUVColorSpace.Unknown) _
                              (Program.make [] []) _ eq_refl H)) _).
  vm_compute. reflexivity.
Defined.

(** ** The correction of the alpha sample *)

(** C8. Under the correction the shader applies to the sampled alpha, a
    sample of [1] gives [1]: before the clamp it is above [1]; a sample of
    [16/255] gives [0]. *)
Theorem alphaCorrection_boundaries :
  (GLYUVTextureEffect.alphaCorrection 1 == 1 /\
   1 < GLYUVTextureEffect.alphaBeforeClamp 1 /\
   GLYUVTextureEffect.alphaCorrection (16 # 255) == 0)%Q.
Proof.
  split; [| split].
  - vm_compute. reflexivity.
  - vm_compute. reflexivity.
  - vm_compute. reflexivity.
Qed.

(** * Further properties of the reader *)

(** ** How replays compose *)

Lemma after_nil (r : Replay) : after [] r = r.
Proof. now destruct r. Qed.

Lemma after_after (evs1 evs2 : list Event) (r : Replay) :
  after evs1 (after evs2 r) = after (evs1 ++ evs2) r.
Proof. unfold after. cbn. now rewrite app_assoc. Qed.

(** Splitting a replay in two. *)
Lemma replayFrames_split (makeFrom : list byte -> option ImageCodec.t)
        (bitmapFrames : list BitmapFrame.t) (info : ImageInfo.t) (n m : nat) :
  forall (frame : Frame) (mem : list byte),
    replayFrames makeFrom bitmapFrames info (n + m) frame mem
    = (r1 <- replayFrames makeFrom bitmapFrames info n frame mem ;;
       if ok r1
       then r2 <- replayFrames makeFrom bitmapFrames info m
                    (frame + Z.of_nat n) (pixels r1) ;;
            Done (after (events r1) r2)
       else Done r1).
Proof.
  induction n as [| n IH]; intros frame mem.
  - cbn [Nat.add replayFrames bindRun ok pixels events].
    replace (frame + Z.of_nat 0) with frame by lia.
    destruct (replayFrames makeFrom bitmapFrames info m frame mem) as [r2 |];
      [| reflexivity].
    cbn [bindRun]. now rewrite after_nil.
  - cbn [Nat.add replayFrames].
    destruct (frameAt bitmapFrames frame) as [bf |]; [| reflexivity].
    cbv zeta.
    destruct (ok (replayBitmaps makeFrom info _ _ true mem)) eqn:Eok0.
    + rewrite IH.
      replace (frame + Z.of_nat (S n)) with (frame + 1 + Z.of_nat n) by lia.
      destruct (replayFrames makeFrom bitmapFrames info n (frame + 1) _) as [r1 |];
        [| reflexivity].
      cbn [bindRun ok pixels events after].
      destruct (ok r1); cbn [bindRun]; [| reflexivity].
      destruct (replayFrames makeFrom bitmapFrames info m _ (pixels r1)) as [r2 |];
        [| reflexivity].
      cbn [bindRun]. now rewrite after_after.
    + cbn [bindRun]. now rewrite Eok0.
Qed.

(** Replaying [n + m] frames is replaying [n] frames and then, unless one of
    them failed, [m] more on the canvas they leave; the trace is the two
    traces in a row. *)
Theorem replayFrames_app (makeFrom : list byte -> option ImageCodec.t)
        (bitmapFrames : list BitmapFrame.t) (info : ImageInfo.t) (n m : nat) :
  forall (frame : Frame) (mem : list byte),
    replayFrames makeFrom bitmapFrames info (n + m) frame mem
    = (r1 <- replayFrames makeFrom bitmapFrames info n frame mem ;;
       if ok r1
       then r2 <- replayFrames makeFrom bitmapFrames info m
                    (frame + Z.of_nat n) (pixels r1) ;;
            Done (after (events r1) r2)
       else Done r1).
Proof. exact (replayFrames_split makeFrom bitmapFrames info n m). Qed.

(** ** Requests that replay a single frame *)

Section SingleFrame.

Variable makeFrom : list byte -> option ImageCodec.t.

Lemma findStartFrame_at_stop (rd : BitmapSequenceReader.t) (targetFrame : Frame)
      (bitmapFrame : BitmapFrame.t) :
  frameAt (BitmapSequence.frames (sequence rd)) targetFrame = Some bitmapFrame ->
  BitmapFrame.isKeyframe bitmapFrame = true \/ targetFrame = lastDecodeFrame rd + 1 ->
  findStartFrame rd targetFrame = Done targetFrame.
Proof.
  intros Hat Hstop.
  pose proof (frameAt_Some_range _ _ _ Hat) as Hrange.
  unfold findStartFrame.
  replace (Z.to_nat (targetFrame + 1)) with (S (Z.to_nat targetFrame)) by lia.
  cbn [findStartFrame_loop]. rewrite Z2Nat.id by lia. rewrite Hat.
  destruct (Z.eqb_spec targetFrame (lastDecodeFrame rd + 1)) as [| Hne];
    [reflexivity |].
  destruct Hstop as [-> | Hnext]; [reflexivity | contradiction].
Qed.

(** The call that replays the frame asked for and no other. *)
Lemma single_frame_call (targetFrame : Frame) (rd : BitmapSequenceReader.t)
        (pb : PixelBuffer.t) (bitmapFrame : BitmapFrame.t) :
  pixelBuffer rd = Some pb ->
  lastDecodeFrame rd <> targetFrame ->
  frameAt (BitmapSequence.frames (sequence rd)) targetFrame = Some bitmapFrame ->
  BitmapFrame.isKeyframe bitmapFrame = true \/ targetFrame = lastDecodeFrame rd + 1 ->
  let r := replayBitmaps makeFrom (PixelBuffer.info pb)
                         (BitmapFrame.isKeyframe bitmapFrame)
                         (BitmapFrame.bitmaps bitmapFrame) true (PixelBuffer.pixels pb) in
  exists call,
    onMakeBuffer makeFrom targetFrame rd = Done call /\
    pixelBuffer (reader call) = Some (PixelBuffer.make (PixelBuffer.info pb) (pixels r)) /\
    trace call = SetLastDecodeFrame (-1) :: events r
                   ++ (if ok r then [SetLastDecodeFrame targetFrame] else []) /\
    (ok r = true ->
     result call = pixelBuffer (reader call) /\
     decodes (trace call) = map BitmapRect.fileBytes (BitmapFrame.bitmaps bitmapFrame)).
Proof.
  intros Hpb Hlast Hat Hstop r.
  pose proof (findStartFrame_at_stop rd targetFrame bitmapFrame Hat Hstop) as Hstart.
  assert (replayFrames makeFrom (BitmapSequence.frames (sequence rd))
                       (PixelBuffer.info pb)
                       (Z.to_nat (targetFrame - targetFrame + 1)) targetFrame
                       (PixelBuffer.pixels pb)
          = Done (if ok r then after (events r) (mkReplay true (pixels r) []) else r))
    as Hr.
  { replace (Z.to_nat (targetFrame - targetFrame + 1)) with 1%nat by lia.
    cbn [replayFrames]. rewrite Hat. fold r. now destruct (ok r). }
  rewrite (onMakeBuffer_replays makeFrom _ _ _ _ _ Hpb Hlast Hstart Hr).
  destruct (ok r) eqn:Hok; cbn [ok pixels events after]; rewrite ?Hok; eexists;
    (split; [reflexivity |]); cbn [reader pixelBuffer trace result].
  - split; [reflexivity |]. rewrite app_nil_r. split; [reflexivity |].
    intros _. split; [reflexivity |].
    change (SetLastDecodeFrame (-1) :: ?l) with ([SetLastDecodeFrame (-1)] ++ l).
    rewrite !decodes_app. cbn [decodes flat_map app].
    rewrite app_nil_r. now apply replayBitmaps_decodes.
  - split; [reflexivity |]. rewrite app_nil_r. split; [reflexivity |].
    discriminate.
Qed.

(** A request for a keyframe, or for the frame right after the last decoded
    one, replays that frame and no other: the codec is asked for the patches
    of that frame only, and the canvas is what these patches leave on the
    canvas the reader had. *)
Theorem onMakeBuffer_single_frame (targetFrame : Frame) (rd : BitmapSequenceReader.t)
        (pb : PixelBuffer.t) (bitmapFrame : BitmapFrame.t) :
  pixelBuffer rd = Some pb ->
  lastDecodeFrame rd <> targetFrame ->
  frameAt (BitmapSequence.frames (sequence rd)) targetFrame = Some bitmapFrame ->
  BitmapFrame.isKeyframe bitmapFrame = true \/ targetFrame = lastDecodeFrame rd + 1 ->
  let r := replayBitmaps makeFrom (PixelBuffer.info pb)
                         (BitmapFrame.isKeyframe bitmapFrame)
                         (BitmapFrame.bitmaps bitmapFrame) true (PixelBuffer.pixels pb) in
  exists call,
    onMakeBuffer makeFrom targetFrame rd = Done call /\
    pixelBuffer (reader call) = Some (PixelBuffer.make (PixelBuffer.info pb) (pixels r)) /\
    trace call = SetLastDecodeFrame (-1) :: events r
                   ++ (if ok r then [SetLastDecodeFrame targetFrame] else []) /\
    (ok r = true ->
     result call = pixelBuffer (reader call) /\
     decodes (trace call) = map BitmapRect.fileBytes (BitmapFrame.bitmaps bitmapFrame)).
Proof. exact (single_frame_call targetFrame rd pb bitmapFrame). Qed.


End SingleFrame.

(** ** Requests after other requests *)

(** Scanning for a frame beyond the last decoded one [L]: either the scan
    stops at a keyframe, where a reader that decoded nothing stops too, or
    it stops at [L + 1], no frame from there on being a keyframe, and then a
    reader that decoded nothing starts where it would start for [L]. *)
Lemma findStartFrame_loop_forward (bitmapFrames : list BitmapFrame.t) (L : Frame)
      (n : nat) :
  0 <= L ->
  (n <= List.length bitmapFrames)%nat ->
  L + 1 < Z.of_nat n ->
  (exists s bf,
      findStartFrame_loop bitmapFrames L n = Done s /\
      findStartFrame_loop bitmapFrames (-1) n = Done s /\
      L + 1 <= s < Z.of_nat n /\
      frameAt bitmapFrames s = Some bf /\
      BitmapFrame.isKeyframe bf = true)
  \/
  (findStartFrame_loop bitmapFrames L n = Done (L + 1) /\
   findStartFrame_loop bitmapFrames (-1) n
   = findStartFrame_loop bitmapFrames (-1) (Z.to_nat (L + 1)) /\
   forall k bf,
     L + 1 <= k < Z.of_nat n ->
     frameAt bitmapFrames k = Some bf ->
     BitmapFrame.isKeyframe bf = false).
Proof.
  intros HL.
  induction n as [| k IH]; intros Hlen Hn; [lia |].
  cbn [findStartFrame_loop].
  rewrite frameAt_of_nat.
  destruct (nth_error bitmapFrames k) as [bf |] eqn:Ebf.
  2:{ apply nth_error_None in Ebf. lia. }
  destruct (Z.eqb_spec (Z.of_nat k) (-1 + 1)) as [| _]; [lia |].
  assert (frameAt bitmapFrames (Z.of_nat k) = Some bf) as Hat
    by now rewrite frameAt_of_nat.
  destruct (Z.eqb_spec (Z.of_nat k) (L + 1)) as [Hk | Hk].
  - destruct (BitmapFrame.isKeyframe bf) eqn:Ekey.
    + left. exists (Z.of_nat k), bf. repeat split; try lia; assumption.
    + right. split; [now rewrite Hk |]. split.
      * rewrite <- Hk, Nat2Z.id. reflexivity.
      * intros j bf' Hj Hat'. assert (j = Z.of_nat k) as -> by lia. congruence.
  - destruct (BitmapFrame.isKeyframe bf) eqn:Ekey.
    + left. exists (Z.of_nat k), bf. repeat split; try lia; assumption.
    + destruct IH as [[s [bf' [Hw [Hc [Hs [Hat' Hkey']]]]]] | [Hw [Hc Hnone]]];
        [lia | lia | |].
      * left. exists s, bf'. repeat split; try lia; assumption.
      * right. split; [exact Hw |]. split; [exact Hc |].
        intros j bf' Hj Hat'.
        destruct (Z.eq_dec j (Z.of_nat k)) as [-> | Hjk]; [congruence |].
        apply (Hnone j bf'); [lia | exact Hat'].
Qed.

(** When the sequence starts with a keyframe, a reader that decoded nothing
    starts every replay at a keyframe. *)
Lemma findStartFrame_loop_cold_keyframe (bitmapFrames : list BitmapFrame.t)
      (first : BitmapFrame.t) (n : nat) :
  frameAt bitmapFrames 0 = Some first ->
  BitmapFrame.isKeyframe first = true ->
  (n <= List.length bitmapFrames)%nat ->
  exists s bf,
    findStartFrame_loop bitmapFrames (-1) n = Done s /\
    frameAt bitmapFrames s = Some bf /\
    BitmapFrame.isKeyframe bf = true.
Proof.
  intros Hfirst Hkey Hlen.
  destruct (findStartFrame_loop_largest bitmapFrames (-1) n Hlen)
    as [s [Hrun [[_ [[Hzero | [bf [Hat Hbf]]] _]] | [Hzero _]]]].
  - assert (s = 0) as -> by lia. exists 0, first. auto.
  - exists s, bf. auto.
  - subst s. exists 0, first. auto.
Qed.

(** A replay that starts at a keyframe that repaints does not depend on the
    canvas it starts from. *)
Lemma replayFrames_from_repainting (makeFrom : list byte -> option ImageCodec.t)
      (bitmapFrames : list BitmapFrame.t) (info : ImageInfo.t)
      (n : nat) (s : Frame) (bf : BitmapFrame.t) (mem1 mem2 : list byte) :
  frameAt bitmapFrames s = Some bf ->
  repaints makeFrom info bf ->
  List.length mem1 = List.length mem2 ->
  replayFrames makeFrom bitmapFrames info (S n) s mem1
  = replayFrames makeFrom bitmapFrames info (S n) s mem2.
Proof.
  intros Hat [Hkey [rect [codec [Hfirst Hre]]]] Hlen.
  cbn [replayFrames]. rewrite Hat, Hkey.
  now rewrite (replayBitmaps_repaint makeFrom info _ mem1 mem2 rect codec Hfirst Hre Hlen).
Qed.

Section History.

Variable makeFrom : list byte -> option ImageCodec.t.
Variable sequence : BitmapSequence.t.
Variable canvas : PixelBuffer.t.

Let bitmapFrames := BitmapSequence.frames sequence.
Let info := PixelBuffer.info canvas.
Let erased := eraseAll (PixelBuffer.pixels canvas).
Let fresh := construct sequence (Some canvas).

(** What a call that replays returns, from what its replay gives. *)
Let callOf (targetFrame : Frame) (r : Replay) : Call :=
  let pb' := PixelBuffer.make info (pixels r) in
  if ok r
  then mkCall (Some pb') (make sequence (Some pb') targetFrame)
              (SetLastDecodeFrame (-1) :: events r ++ [SetLastDecodeFrame targetFrame])
  else mkCall None (make sequence (Some pb') (-1)) (SetLastDecodeFrame (-1) :: events r).

Lemma replaying_call (rd : BitmapSequenceReader.t) (pb : PixelBuffer.t)
      (targetFrame s : Frame) (r : Replay) :
  BitmapSequenceReader.sequence rd = sequence ->
  pixelBuffer rd = Some pb ->
  PixelBuffer.info pb = info ->
  lastDecodeFrame rd <> targetFrame ->
  findStartFrame rd targetFrame = Done s ->
  replayFrames makeFrom bitmapFrames info (Z.to_nat (targetFrame - s + 1)) s
               (PixelBuffer.pixels pb) = Done r ->
  onMakeBuffer makeFrom targetFrame rd = Done (callOf targetFrame r).
Proof.
  intros Hseq Hpb Hinfo Hlast Hstart Hr.
  rewrite (onMakeBuffer_replays makeFrom targetFrame rd pb s r Hpb Hlast Hstart).
  - rewrite Hseq, Hinfo. reflexivity.
  - rewrite Hseq, Hinfo. exact Hr.
Qed.

(** The call of a reader that decoded nothing. *)
Lemma cold_call (targetFrame : Frame) :
  0 <= targetFrame < Z.of_nat (List.length bitmapFrames) ->
  exists s r,
    findStartFrame fresh targetFrame = Done s /\
    0 <= s <= targetFrame /\
    replayFrames makeFrom bitmapFrames info (Z.to_nat (targetFrame - s + 1)) s erased
    = Done r /\
    onMakeBuffer makeFrom targetFrame fresh = Done (callOf targetFrame r).
Proof.
  intros Hrange.
  destruct (findStartFrame_in_range fresh targetFrame) as [s [Hs [Hpos Hle]]];
    [cbn; fold bitmapFrames; lia |].
  destruct (replayFrames_defined makeFrom bitmapFrames info
              (Z.to_nat (targetFrame - s + 1)) s erased) as [r Hr]; [lia | lia |].
  exists s, r. split; [exact Hs |]. split; [lia |]. split; [exact Hr |].
  apply (replaying_call fresh (PixelBuffer.make info erased) targetFrame s r);
    try reflexivity; [cbn; unfold noFrame; lia | exact Hs | exact Hr].
Qed.

(** A reader at a keyframe that repaints does what a reader that decoded
    nothing does. *)
Lemma warm_from_keyframe (rd : BitmapSequenceReader.t) (pb : PixelBuffer.t)
      (targetFrame s : Frame) (bf : BitmapFrame.t) :
  BitmapSequenceReader.sequence rd = sequence ->
  pixelBuffer rd = Some pb ->
  PixelBuffer.info pb = info ->
  List.length (PixelBuffer.pixels pb) = List.length erased ->
  lastDecodeFrame rd <> targetFrame ->
  0 <= targetFrame < Z.of_nat (List.length bitmapFrames) ->
  findStartFrame rd targetFrame = Done s ->
  findStartFrame fresh targetFrame = Done s ->
  frameAt bitmapFrames s = Some bf ->
  repaints makeFrom info bf ->
  onMakeBuffer makeFrom targetFrame rd = onMakeBuffer makeFrom targetFrame fresh.
Proof.
  intros Hseq Hpb Hinfo Hlen Hlast Hrange Hwarm Hcold Hat Hre.
  destruct (cold_call targetFrame Hrange) as [s' [r [Hs' [Hsle [Hr Hcall]]]]].
  rewrite Hcold in Hs'. injection Hs' as <-.
  rewrite Hcall.
  apply (replaying_call rd pb targetFrame s r Hseq Hpb Hinfo Hlast Hwarm).
  rewrite <- Hr.
  destruct (Z.to_nat (targetFrame - s + 1)) as [| n] eqn:En; [lia |].
  now apply (replayFrames_from_repainting makeFrom bitmapFrames info n s bf).
Qed.

(** A reader that holds frame [L] as a reader that decoded nothing would,
    and goes on from [L + 1] where no keyframe lies between: it ends with
    the content a reader that decoded nothing ends with. *)
Lemma warm_forward (rd : BitmapSequenceReader.t) (pb : PixelBuffer.t)
      (L targetFrame : Frame) (coldL : Call) :
  BitmapSequenceReader.sequence rd = sequence ->
  pixelBuffer rd = Some pb ->
  lastDecodeFrame rd = L ->
  0 <= L < targetFrame ->
  targetFrame < Z.of_nat (List.length bitmapFrames) ->
  onMakeBuffer makeFrom L fresh = Done coldL ->
  result coldL = Some pb ->
  findStartFrame rd targetFrame = Done (L + 1) ->
  findStartFrame fresh targetFrame = findStartFrame fresh L ->
  exists r2 r,
    onMakeBuffer makeFrom targetFrame rd = Done (callOf targetFrame r2) /\
    onMakeBuffer makeFrom targetFrame fresh = Done (callOf targetFrame r) /\
    ok r2 = ok r /\ pixels r2 = pixels r /\
    replayFrames makeFrom bitmapFrames info (Z.to_nat (targetFrame - L)) (L + 1)
                 (PixelBuffer.pixels pb) = Done r2.
Proof.
  intros Hseq Hpb Hlast HL Hrange HcoldL Hres Hwarm Hsame.
  destruct (cold_call L) as [s0 [rL [Hs0 [Hs0le [HrL HcallL]]]]]; [lia |].
  rewrite HcallL in HcoldL. injection HcoldL as <-.
  unfold callOf in Hres. cbv zeta in Hres.
  destruct (ok rL) eqn:HokL; cbn [result] in Hres; [| discriminate].
  injection Hres as <-.
  destruct (cold_call targetFrame) as [s [r [Hs [Hsle [Hr Hcall]]]]]; [lia |].
  rewrite Hsame, Hs0 in Hs. injection Hs as <-.
  destruct (replayFrames_defined makeFrom bitmapFrames info
              (Z.to_nat (targetFrame - L)) (L + 1) (pixels rL)) as [r2 Hr2];
    [lia | lia |].
  assert (r = after (events rL) r2) as ->.
  { replace (Z.to_nat (targetFrame - s0 + 1))
      with (Z.to_nat (L - s0 + 1) + Z.to_nat (targetFrame - L))%nat in Hr by lia.
    rewrite replayFrames_split, HrL in Hr. cbn [bindRun] in Hr. rewrite HokL in Hr.
    replace (s0 + Z.of_nat (Z.to_nat (L - s0 + 1))) with (L + 1) in Hr by lia.
    rewrite Hr2 in Hr. cbn [bindRun] in Hr. now injection Hr. }
  exists r2, (after (events rL) r2).
  split; [| split; [exact Hcall | repeat split; exact Hr2]].
  apply (replaying_call rd (PixelBuffer.make info (pixels rL)) targetFrame (L + 1) r2
           Hseq Hpb eq_refl); [lia | exact Hwarm |].
  cbn [PixelBuffer.pixels].
  replace (Z.to_nat (targetFrame - (L + 1) + 1)) with (Z.to_nat (targetFrame - L)) by lia.
  exact Hr2.
Qed.

(** Decoding frame [F] and then a later frame [G], with no keyframe from
    [F + 1] to [G]: the second request starts at [F + 1], asks the codec
    for the patches of the frames [F + 1 .. G] only, and yet returns what a
    reader that decoded nothing returns for [G]. *)
Theorem forward_request_agrees_with_cold (F G : Frame) (call1 : Call)
        (pb : PixelBuffer.t) :
  0 <= F < G ->
  G < Z.of_nat (List.length bitmapFrames) ->
  onMakeBuffer makeFrom F fresh = Done call1 ->
  result call1 = Some pb ->
  (forall k bf,
      F + 1 <= k <= G ->
      frameAt bitmapFrames k = Some bf ->
      BitmapFrame.isKeyframe bf = false) ->
  exists call2 cold,
    findStartFrame (reader call1) G = Done (F + 1) /\
    onMakeBuffer makeFrom G (reader call1) = Done call2 /\
    onMakeBuffer makeFrom G fresh = Done cold /\
    result call2 = result cold /\
    (result call2 <> None ->
     decodes (trace call2) = patchBytes (framesBetween bitmapFrames (F + 1) G)).
Proof.
  intros HF HG Hcall1 Hres Hnokey.
  destruct (cold_call F) as [s0 [rF [Hs0 [Hs0le [HrF HcallF]]]]]; [lia |].
  pose proof Hcall1 as Hcold1.
  rewrite HcallF in Hcall1. injection Hcall1 as Hcall1.
  assert (reader call1 = make sequence (Some pb) F) as Hrd.
  { rewrite <- Hcall1 in Hres |- *. unfold callOf in *. cbv zeta in *.
    destruct (ok rF); cbn [result reader] in *; [| discriminate].
    now injection Hres as <-. }
  assert (findStartFrame (reader call1) G = Done (F + 1) /\
          findStartFrame fresh G = findStartFrame fresh F) as [Hwarm Hsame].
  { rewrite Hrd. unfold findStartFrame.
    cbn [BitmapSequenceReader.sequence lastDecodeFrame fresh construct].
    fold bitmapFrames. unfold noFrame.
    destruct (findStartFrame_loop_forward bitmapFrames F (Z.to_nat (G + 1)))
      as [[s [bf [_ [_ [Hs [Hat Hkey]]]]]] | [Hw [Hc _]]]; [lia | lia | lia | |].
    - rewrite (Hnokey s bf) in Hkey; [discriminate | lia | exact Hat].
    - split; [exact Hw | exact Hc]. }
  destruct (warm_forward (reader call1) pb F G call1) as [r2 [r [Hw [Hc [Hok [Hpx Hr2]]]]]];
    try (rewrite Hrd; reflexivity); try assumption; try lia.
  exists (callOf G r2), (callOf G r).
  split; [exact Hwarm |]. split; [exact Hw |]. split; [exact Hc |].
  unfold callOf. cbv zeta. rewrite Hok, Hpx.
  destruct (ok r) eqn:Hokr; cbn [result trace]; (split; [reflexivity |]).
  - intros _.
    change (SetLastDecodeFrame (-1) :: ?l) with ([SetLastDecodeFrame (-1)] ++ l).
    rewrite !decodes_app. cbn [decodes flat_map app]. rewrite app_nil_r.
    rewrite (replayFrames_decodes makeFrom bitmapFrames info _ _ _ _ Hr2 Hok).
    unfold framesBetween.
    now replace (Z.to_nat (G - (F + 1) + 1)) with (Z.to_nat (G - F)) by lia.
  - intros H. now contradiction H.
Qed.

Hypothesis codecs_keep_size : keepsSize makeFrom.
Hypothesis keyframes_repaint : wellKeyed makeFrom info bitmapFrames.

Lemma callOf_inSync (targetFrame : Frame) (r : Replay) (cold : Call) :
  0 <= targetFrame ->
  onMakeBuffer makeFrom targetFrame fresh = Done cold ->
  result cold = result (callOf targetFrame r) ->
  List.length (pixels r) = List.length erased ->
  inSync makeFrom fresh (reader (callOf targetFrame r)).
Proof.
  intros Hpos Hcold Hres Hlen. unfold inSync, callOf in *. cbv zeta in *.
  destruct (ok r); cbn [result reader BitmapSequenceReader.sequence pixelBuffer
                          lastDecodeFrame] in *;
    (split; [reflexivity |]);
    exists (PixelBuffer.make info erased), (PixelBuffer.make info (pixels r));
    (split; [reflexivity |]); (split; [reflexivity |]);
    (split; [reflexivity |]); (split; [exact Hlen |]).
  - right. split; [exact Hpos |]. exists cold. split; assumption.
  - left. reflexivity.
Qed.

Lemma cold_start_repaints (targetFrame s : Frame) :
  0 <= targetFrame < Z.of_nat (List.length bitmapFrames) ->
  findStartFrame fresh targetFrame = Done s ->
  exists bf, frameAt bitmapFrames s = Some bf /\ repaints makeFrom info bf.
Proof.
  intros Hrange Hs.
  destruct keyframes_repaint as [[first [Hfirst Hkey]] Hall].
  destruct (findStartFrame_loop_cold_keyframe bitmapFrames first
              (Z.to_nat (targetFrame + 1)) Hfirst Hkey) as [s' [bf [Hs' [Hat Hbf]]]];
    [lia |].
  unfold findStartFrame in Hs.
  cbn [BitmapSequenceReader.sequence lastDecodeFrame fresh construct] in Hs.
  fold bitmapFrames in Hs. unfold noFrame in Hs.
  rewrite Hs' in Hs. injection Hs as <-.
  exists bf. split; [exact Hat |]. now apply (Hall s' bf).
Qed.

(** One request made to a reader in step. *)
Lemma in_sync_step (rd : BitmapSequenceReader.t) (targetFrame : Frame) :
  inSync makeFrom fresh rd ->
  0 <= targetFrame < Z.of_nat (List.length bitmapFrames) ->
  exists call cold,
    onMakeBuffer makeFrom targetFrame rd = Done call /\
    onMakeBuffer makeFrom targetFrame fresh = Done cold /\
    result call = result cold /\
    inSync makeFrom fresh (reader call).
Proof.
  intros Hsync Hrange.
  pose proof Hsync as [Hseq [pb0 [pb [Hpb0 [Hpb [Hinfo [Hlen Hmark]]]]]]].
  cbn [fresh construct pixelBuffer option_map BitmapSequenceReader.sequence] in Hpb0, Hseq.
  injection Hpb0 as <-. cbn [PixelBuffer.info PixelBuffer.pixels] in Hinfo, Hlen.
  fold info in Hinfo. fold erased in Hlen.
  destruct (cold_call targetFrame Hrange) as [sc [rc [Hsc [Hscle [Hrc Hcallc]]]]].
  destruct (cold_start_repaints targetFrame sc Hrange Hsc) as [bfc [Hatc Hrec]].
  pose proof (replayFrames_length makeFrom codecs_keep_size _ _ _ _ _ _ Hrc) as Hlenc.
  (* the request is answered as by a reader that decoded nothing *)
  assert (findStartFrame rd targetFrame = Done sc ->
          lastDecodeFrame rd <> targetFrame ->
          exists call cold,
            onMakeBuffer makeFrom targetFrame rd = Done call /\
            onMakeBuffer makeFrom targetFrame fresh = Done cold /\
            result call = result cold /\
            inSync makeFrom fresh (reader call)) as Hlike.
  { intros Hwarm Hlast.
    pose proof (warm_from_keyframe rd pb targetFrame sc bfc Hseq Hpb Hinfo Hlen Hlast
                  Hrange Hwarm Hsc Hatc Hrec) as Heq.
    exists (callOf targetFrame rc), (callOf targetFrame rc).
    split; [now rewrite Heq |]. split; [exact Hcallc |]. split; [reflexivity |].
    apply (callOf_inSync targetFrame rc (callOf targetFrame rc));
      [lia | exact Hcallc | reflexivity | exact Hlenc]. }
  destruct (Z.eq_dec (lastDecodeFrame rd) targetFrame) as [Hhit | Hmiss].
  - (* answered from the cache *)
    destruct Hmark as [Hnone | [_ [cold [Hcold Hres]]]]; [lia |].
    rewrite Hhit in Hcold.
    exists (mkCall (pixelBuffer rd) rd []), cold.
    split; [| split; [exact Hcold | split; [cbn; congruence | exact Hsync]]].
    unfold onMakeBuffer.
    destruct (Z.eqb_spec (lastDecodeFrame rd) targetFrame); [reflexivity | contradiction].
  - destruct (Z_lt_le_dec targetFrame (lastDecodeFrame rd)) as [Hback | Hfwd].
    + (* a request for an earlier frame *)
      apply Hlike; [| exact Hmiss].
      rewrite <- Hsc. unfold findStartFrame. rewrite Hseq.
      cbn [BitmapSequenceReader.sequence lastDecodeFrame fresh construct].
      unfold noFrame. apply findStartFrame_loop_marker_beyond; fold bitmapFrames; lia.
    + destruct Hmark as [Hnone | [HLpos [coldL [HcoldL HresL]]]].
      * (* no frame is marked as decoded *)
        apply Hlike; [| exact Hmiss].
        rewrite <- Hsc. unfold findStartFrame. rewrite Hseq, Hnone. reflexivity.
      * (* a request for a later frame *)
        destruct (findStartFrame_loop_forward bitmapFrames (lastDecodeFrame rd)
                    (Z.to_nat (targetFrame + 1)))
          as [[s [bf [Hw [Hc _]]]] | [Hw [Hc _]]]; [lia | lia | lia | |].
        -- apply Hlike; [| exact Hmiss].
           unfold findStartFrame in Hsc |- *. rewrite Hseq.
           cbn [BitmapSequenceReader.sequence lastDecodeFrame fresh construct] in Hsc |- *.
           fold bitmapFrames in Hsc |- *. unfold noFrame in Hsc. congruence.
        -- destruct (warm_forward rd pb (lastDecodeFrame rd) targetFrame coldL)
             as [r2 [r [Hwarm [Hcold [Hok [Hpx Hr2]]]]]];
             try assumption; try reflexivity; try lia;
             [unfold findStartFrame; rewrite Hseq; exact Hw |].
           assert (result (callOf targetFrame r2) = result (callOf targetFrame r))
             as Hres.
           { unfold callOf. cbv zeta. rewrite Hok, Hpx. now destruct (ok r). }
           exists (callOf targetFrame r2), (callOf targetFrame r).
           split; [exact Hwarm |]. split; [exact Hcold |]. split; [exact Hres |].
           apply (callOf_inSync targetFrame r2 (callOf targetFrame r));
             [lia | exact Hcold | now rewrite Hres |].
           rewrite (replayFrames_length makeFrom codecs_keep_size _ _ _ _ _ _ Hr2).
           exact Hlen.
Qed.



End History.

(** ** What a call keeps *)

(** Whatever the request, a call that returns keeps the sequence, keeps the
    canvas allocated or not as it was, with its geometry and its size; a
    buffer it returns is the reader's own canvas, and then the frame asked
    for is the one marked as decoded; otherwise the marker is [-1] or the
    reader has not changed at all. *)
Theorem onMakeBuffer_keeps_canvas (makeFrom : list byte -> option ImageCodec.t)
        (targetFrame : Frame) (rd : BitmapSequenceReader.t) (call : Call) :
  keepsSize makeFrom ->
  onMakeBuffer makeFrom targetFrame rd = Done call ->
  sequence (reader call) = sequence rd /\
  option_map PixelBuffer.info (pixelBuffer (reader call))
  = option_map PixelBuffer.info (pixelBuffer rd) /\
  option_map (fun pb => List.length (PixelBuffer.pixels pb)) (pixelBuffer (reader call))
  = option_map (fun pb => List.length (PixelBuffer.pixels pb)) (pixelBuffer rd) /\
  (result call <> None ->
   result call = pixelBuffer (reader call) /\
   lastDecodeFrame (reader call) = targetFrame) /\
  (result call = None ->
   lastDecodeFrame (reader call) = -1 \/ reader call = rd).
Proof.
  intros Hsize. unfold onMakeBuffer.
  destruct (Z.eqb_spec (lastDecodeFrame rd) targetFrame) as [Hhit | Hmiss].
  - intros H. injection H as <-. cbn [reader result].
    split; [reflexivity |]. split; [reflexivity |]. split; [reflexivity |].
    split; [intros _; split; [reflexivity | exact Hhit] | intros _; now right].
  - destruct (pixelBuffer rd) as [pb |] eqn:Hpb.
    2:{ intros H. injection H as <-. cbn [reader result]. rewrite Hpb.
        split; [reflexivity |]. split; [reflexivity |]. split; [reflexivity |].
        split; [intros Hnone; now contradiction Hnone | intros _; now right]. }
    destruct (findStartFrame rd targetFrame) as [s |]; [| discriminate].
    cbn [bindRun].
    destruct (replayFrames makeFrom _ _ _ s _) as [r |] eqn:Hr; [| discriminate].
    cbn [bindRun].
    pose proof (replayFrames_length makeFrom Hsize _ _ _ _ _ _ Hr) as Hlen.
    destruct (ok r); intros H; injection H as <-;
      cbn [reader result sequence pixelBuffer lastDecodeFrame option_map
             PixelBuffer.info PixelBuffer.pixels];
      rewrite Hlen;
      (split; [reflexivity |]); (split; [reflexivity |]); (split; [reflexivity |]).
    + split; [intros _; split; reflexivity | discriminate].
    + split; [intros Hnone; now contradiction Hnone | intros _; now left].
Qed.

Lemma onMakeBuffer_keeps_canvas_witness :
  exists call,
    onMakeBuffer Sample.makeFrom 0 (Sample.fresh Sample.damaged) = Done call /\
    sequence (reader call) = Sample.damaged /\
    option_map PixelBuffer.info (pixelBuffer (reader call)) = Some Sample.info /\
    option_map (fun pb => List.length (PixelBuffer.pixels pb)) (pixelBuffer (reader call))
    = Some 8%nat /\
    (result call <> None ->
     result call = pixelBuffer (reader call) /\ lastDecodeFrame (reader call) = 0) /\
    (result call = None ->
     lastDecodeFrame (reader call) = -1 \/ reader call = Sample.fresh Sample.damaged).
Proof.
  eexists.
  refine ((fun H => conj H (onMakeBuffer_keeps_canvas Sample.makeFrom 0
                              (Sample.fresh Sample.damaged) _ Sample_keepsSize H)) _).
  vm_compute. reflexivity.
Defined.

(** ** Where a patch is written *)

(** For a patch whose corner is a pixel of the canvas and whose [x * 4]
    fits an [int], the offset handed to the codec is that of the pixel in
    rows of [rowBytes] bytes and pixels of four bytes, with no wrap-around,
    and the pixel lies within the buffer; whatever the corner, the offset is
    a [size_t]. *)
Theorem patchOffset_in_canvas (info : ImageInfo.t) (bitmapRect : BitmapRect.t) :
  (0 <= patchOffset info bitmapRect < 2 ^ 64) /\
  (0 <= BitmapRect.x bitmapRect < ImageInfo.width info ->
   BitmapRect.x bitmapRect * 4 < 2 ^ 31 ->
   0 <= BitmapRect.y bitmapRect < ImageInfo.height info ->
   ImageInfo.width info * 4 <= ImageInfo.rowBytes info ->
   ImageInfo.rowBytes info * ImageInfo.height info <= 2 ^ 64 ->
   patchOffset info bitmapRect
   = ImageInfo.rowBytes info * BitmapRect.y bitmapRect + BitmapRect.x bitmapRect * 4 /\
   patchOffset info bitmapRect + 4 <= ImageInfo.rowBytes info * ImageInfo.height info).
Proof.
  unfold patchOffset. split.
  - apply Z.mod_pos_bound. lia.
  - intros Hx Hint Hy Hrow Hsize.
    assert (wrapInt (BitmapRect.x bitmapRect * 4) = BitmapRect.x bitmapRect * 4) as ->.
    { unfold wrapInt. rewrite Z.mod_small by lia. lia. }
    assert (0 <= ImageInfo.rowBytes info * BitmapRect.y bitmapRect
                 + BitmapRect.x bitmapRect * 4
            /\ ImageInfo.rowBytes info * BitmapRect.y bitmapRect
               + BitmapRect.x bitmapRect * 4 + 4
               <= ImageInfo.rowBytes info * ImageInfo.height info) as [Hlo Hhi] by nia.
    rewrite Z.mod_small by lia. split; [reflexivity | exact Hhi].
Qed.

Lemma patchOffset_in_canvas_witness :
  patchOffset Sample.info (BitmapRect.make 1 0 Sample.red) = 8 * 0 + 1 * 4 /\
  patchOffset Sample.info (BitmapRect.make 1 0 Sample.red) + 4 <= 8 * 1.
Proof.
  apply (proj2 (patchOffset_in_canvas Sample.info (BitmapRect.make 1 0 Sample.red)));
    simpl; lia.
Defined.

(** Where [x * 4] does not fit an [int] the product wraps before it is
    widened: on a canvas [2^29 + 1] pixels wide, the patch at [x = 2^29]
    of the first row is handed the offset [2^64 - 2^31]. *)
Lemma patchOffset_int_product_wraps :
  patchOffset (ImageInfo.make (2 ^ 29 + 1) 1 ((2 ^ 29 + 1) * 4))
              (BitmapRect.make (2 ^ 29) 0 [])
  = 2 ^ 64 - 2 ^ 31.
Proof. vm_compute. reflexivity. Qed.

(** ** The sample sequence with a keyframe *)

Lemma Sample_keyed_wellKeyed :
  wellKeyed Sample.makeFrom Sample.info (BitmapSequence.frames Sample.keyed).
Proof.
  split.
  - eexists. split; reflexivity.
  - intros k bf Hat Hkey.
    pose proof (frameAt_Some_range _ _ _ Hat) as Hrange. cbn in Hrange.
    assert (k = 0 \/ k = 1) as [-> | ->] by lia.
    + cbn in Hat. injection Hat as <-.
      split; [reflexivity |]. eexists. eexists. split; [reflexivity |].
      left. reflexivity.
    + cbn in Hat. injection Hat as <-. discriminate.
Qed.

Lemma onMakeBuffer_single_frame_witness :
  exists call,
    onMakeBuffer Sample.makeFrom 0 (Sample.fresh Sample.deltas) = Done call /\
    pixelBuffer (reader call)
    = Some (PixelBuffer.make Sample.info [xf0; x00; x00; xf0; x00; x00; x00; x00]) /\
    trace call = [SetLastDecodeFrame (-1); MakeFrom Sample.red; ReadPixels 0 true;
                  SetLastDecodeFrame 0].
Proof.
  destruct (onMakeBuffer_single_frame Sample.makeFrom 0 (Sample.fresh Sample.deltas)
              (PixelBuffer.make Sample.info (eraseAll (PixelBuffer.pixels Sample.canvas)))
              (BitmapFrame.make false [BitmapRect.make 0 0 Sample.red])
              eq_refl ltac:(discriminate) eq_refl (or_intror eq_refl))
    as [call [Hcall [Hpb [Htrace _]]]].
  exists call. split; [exact Hcall |]. split; [exact Hpb | exact Htrace].
Defined.


Lemma forward_request_agrees_with_cold_witness :
  exists call1 call2 cold,
    onMakeBuffer Sample.makeFrom 0 (Sample.fresh Sample.deltas) = Done call1 /\
    findStartFrame (reader call1) 1 = Done (0 + 1) /\
    onMakeBuffer Sample.makeFrom 1 (reader call1) = Done call2 /\
    onMakeBuffer Sample.makeFrom 1 (Sample.fresh Sample.deltas) = Done cold /\
    result call2 = result cold /\
    (result call2 <> None ->
     decodes (trace call2)
     = patchBytes (framesBetween (BitmapSequence.frames Sample.deltas) (0 + 1) 1)).
Proof.
  assert (exists call1 pb,
             onMakeBuffer Sample.makeFrom 0 (Sample.fresh Sample.deltas) = Done call1 /\
             result call1 = Some pb) as [call1 [pb [H Hres]]].
  { eexists. eexists. split; vm_compute; reflexivity. }
  destruct (forward_request_agrees_with_cold Sample.makeFrom Sample.deltas
              Sample.canvas 0 1 call1 pb) as [call2 [cold P]].
  - lia.
  - simpl. lia.
  - exact H.
  - exact Hres.
  - intros k bf Hk Hat. assert (k = 1) as -> by lia.
    cbn in Hat. now injection Hat as <-.
  - exists call1, call2, cold. exact (conj H P).
Defined.



(** * Further properties of the YUV texture effect *)

(** ** The correction of the alpha sample, over its whole range *)

Lemma alphaBeforeClamp_linear (a : Q) :
  (GLYUVTextureEffect.alphaBeforeClamp a == (255 * a - 16) / 218)%Q.
Proof. unfold GLYUVTextureEffect.alphaBeforeClamp. field. Qed.

Lemma clamp_cases (x : Q) :
  ((x <= 0 /\ GLYUVTextureEffect.clamp x 0.0 1.0 == 0) \/
   (0 <= x <= 1 /\ GLYUVTextureEffect.clamp x 0.0 1.0 == x) \/
   (1 <= x /\ GLYUVTextureEffect.clamp x 0.0 1.0 == 1))%Q.
Proof.
  unfold GLYUVTextureEffect.clamp.
  destruct (Q.max_spec x 0.0%Q) as [[H1 H2] | [H1 H2]];
    destruct (Q.min_spec (Qmax x 0.0%Q) 1.0%Q) as [[H3 H4] | [H3 H4]];
    rewrite H4; rewrite ?H2 in *.
  all: try (left; split; [lra | reflexivity]).
  all: try (right; left; split; [lra | lra]).
  all: try (right; right; split; [lra | reflexivity]).
Qed.

(** The corrected alpha is always between [0] and [1] and never decreases
    when the sample grows; every sample up to [16/255] is fully transparent,
    every sample from [234/255] on is fully opaque, and in between the
    alpha is [(255 a - 16) / 218]. *)
Theorem alphaCorrection_shape (a b : Q) :
  ((0 <= GLYUVTextureEffect.alphaCorrection a <= 1) /\
   (a <= 16 # 255 -> GLYUVTextureEffect.alphaCorrection a == 0) /\
   (234 # 255 <= a -> GLYUVTextureEffect.alphaCorrection a == 1) /\
   (16 # 255 <= a <= 234 # 255 ->
    GLYUVTextureEffect.alphaCorrection a == (255 * a - 16) / 218) /\
   (a <= b ->
    GLYUVTextureEffect.alphaCorrection a <= GLYUVTextureEffect.alphaCorrection b))%Q.
Proof.
  unfold GLYUVTextureEffect.alphaCorrection. cbv zeta.
  assert (218 * GLYUVTextureEffect.alphaBeforeClamp a == 255 * a - 16)%Q as Ha
    by (rewrite alphaBeforeClamp_linear; field).
  assert (218 * GLYUVTextureEffect.alphaBeforeClamp b == 255 * b - 16)%Q as Hb
    by (rewrite alphaBeforeClamp_linear; field).
  assert (218 * ((255 * a - 16) / 218) == 255 * a - 16)%Q as Hy by field.
  generalize dependent ((255 * a - 16) / 218)%Q. intros y Hy.
  destruct (clamp_cases (GLYUVTextureEffect.alphaBeforeClamp a))
    as [[H1 H2] | [[H1 H2] | [H1 H2]]];
    destruct (clamp_cases (GLYUVTextureEffect.alphaBeforeClamp b))
      as [[H3 H4] | [[H3 H4] | [H3 H4]]];
    rewrite H2, ?H4; repeat split; intros; lra.
Qed.

Lemma alphaCorrection_shape_witness :
  (GLYUVTextureEffect.alphaCorrection (254 # 255) == 1 /\
   GLYUVTextureEffect.alphaCorrection (10 # 255) == 0 /\
   GLYUVTextureEffect.alphaCorrection (125 # 255) == (255 * (125 # 255) - 16) / 218 /\
   GLYUVTextureEffect.alphaCorrection (125 # 255)
   <= GLYUVTextureEffect.alphaCorrection (126 # 255))%Q.
Proof.
  split; [| split; [| split]].
  - apply (alphaCorrection_shape (254 # 255) 0). vm_compute. discriminate.
  - apply (alphaCorrection_shape (10 # 255) 0). vm_compute. discriminate.
  - apply (alphaCorrection_shape (125 # 255) 0). split; vm_compute; discriminate.
  - apply (alphaCorrection_shape (125 # 255) (126 # 255)). vm_compute. discriminate.
Defined.

(** ** What [emitCode] needs and what it adds *)

Lemma lookups_app (a b : list ShaderPiece) : lookups (a ++ b) = lookups a ++ lookups b.
Proof. unfold lookups. apply flat_map_app. Qed.

Section EmitCode.

Variable mangledName : string -> string.

Let emit := GLYUVTextureEffect.emitCode mangledName.

(** Taking the arguments apart, down to the first samplers and coordinate. *)
Ltac open_args args :=
  destruct args as [[[fmt tag coordOf] alpha] samplers coords out inp];
  cbn [EmitArgs.fragmentProcessor EmitArgs.textureSamplers EmitArgs.transformedCoords
         EmitArgs.outputColor EmitArgs.inputColor YUVTextureEffect.texture
         YUVTextureEffect.alphaStart YUVTexture.pixelFormat YUVTexture.colorSpace] in *;
  destruct coords as [| c0 coords];
  destruct samplers as [| s0 [| s1 [| s2 samplers]]];
  destruct fmt.

Ltac run_emit :=
  unfold emit, GLYUVTextureEffect.emitCode;
  cbn [EmitArgs.fragmentProcessor EmitArgs.textureSamplers EmitArgs.transformedCoords
         EmitArgs.outputColor EmitArgs.inputColor YUVTextureEffect.texture
         YUVTextureEffect.alphaStart YUVTexture.pixelFormat YUVTexture.colorSpace
         elementAt nth_error bindRun YUVPixelFormat.eqb].

(** [emitCode] indexes the first transformed coordinate and one sampler per
    plane of the packing scheme: it runs through exactly when there is a
    coordinate and there are that many samplers. *)
Theorem emitCode_needs_samplers (args : EmitArgs.t) (self : GLYUVTextureEffect.t)
        (p : Program.t) :
  (exists out, emit args self p = Done out) <->
  (1 <= List.length (EmitArgs.transformedCoords args))%nat /\
  (planes (YUVTexture.pixelFormat
             (YUVTextureEffect.texture (EmitArgs.fragmentProcessor args)))
   <= List.length (EmitArgs.textureSamplers args))%nat.
Proof.
  open_args args; run_emit; cbn [planes List.length];
    (split;
     [ intros [o Ho]; try discriminate Ho; lia
     | intros [Hc Hs]; try lia;
       destruct (IsLimitedYUVColorRange tag); destruct (Point.eqb alpha Point.Zero);
       eexists; reflexivity ]).
Qed.

(** The shader looks up one texel per plane, each at the first transformed
    coordinate, and, when there is an alpha start point, one more in the
    first plane at the shifted coordinate; it looks up nothing else. *)
Theorem emitCode_lookups (args : EmitArgs.t) (self self' : GLYUVTextureEffect.t)
        (p p' : Program.t) :
  emit args self p = Done (self', p') ->
  exists sampler0 coord0,
    nth_error (EmitArgs.textureSamplers args) 0 = Some sampler0 /\
    nth_error (EmitArgs.transformedCoords args) 0 = Some coord0 /\
    lookups (Program.code p')
    = lookups (Program.code p)
        ++ map (fun sampler => (sampler, coord0))
               (firstn (planes (YUVTexture.pixelFormat
                                  (YUVTextureEffect.texture
                                     (EmitArgs.fragmentProcessor args))))
                       (EmitArgs.textureSamplers args))
        ++ (if Point.eqb (YUVTextureEffect.alphaStart (EmitArgs.fragmentProcessor args))
                         Point.Zero
            then []
            else [(sampler0, "alphaVertexColor"%string)]).
Proof.
  open_args args; run_emit; intros H; try discriminate H;
    exists s0, c0; (split; [reflexivity |]); (split; [reflexivity |]);
    destruct (IsLimitedYUVColorRange tag); destruct (Point.eqb alpha Point.Zero);
    injection H as _ <-;
    unfold codeAppend, appendTextureLookup, GLYUVTextureEffect.addUniform;
    cbn [Program.code Program.uniforms planes firstn map];
    rewrite !lookups_app; cbn [lookups flat_map app];
    rewrite ?app_nil_r, <- ?app_assoc; reflexivity.
Qed.

(** [emitCode] only appends to the shader and to its uniforms.  The handle
    it keeps for the conversion matrix is that of the [Mat3ColorConversion]
    uniform it declares; with an alpha start point, the handle it keeps for
    it is that of the [AlphaStart] uniform it declares, another one.  The
    cached point and tag are not touched. *)
Theorem emitCode_handles (args : EmitArgs.t) (self self' : GLYUVTextureEffect.t)
        (p p' : Program.t) :
  emit args self p = Done (self', p') ->
  (exists body, Program.code p' = Program.code p ++ body) /\
  firstn (List.length (Program.uniforms p)) (Program.uniforms p') = Program.uniforms p /\
  (exists i,
      GLYUVTextureEffect.mat3ColorConversionUniform self' = Some i /\
      nth_error (Program.uniforms p') i = Some (Float3x3, "Mat3ColorConversion"%string)) /\
  (Point.eqb (YUVTextureEffect.alphaStart (EmitArgs.fragmentProcessor args)) Point.Zero
   = false ->
   exists j,
     GLYUVTextureEffect.alphaStartUniform self' = Some j /\
     nth_error (Program.uniforms p') j = Some (Float2, "AlphaStart"%string) /\
     GLYUVTextureEffect.alphaStartUniform self'
     <> GLYUVTextureEffect.mat3ColorConversionUniform self') /\
  GLYUVTextureEffect.alphaStartPrev self' = GLYUVTextureEffect.alphaStartPrev self /\
  GLYUVTextureEffect.colorSpacePrev self' = GLYUVTextureEffect.colorSpacePrev self.
Proof.
  open_args args; run_emit; intros H; try discriminate H;
    destruct (IsLimitedYUVColorRange tag);
    destruct (Point.eqb alpha Point.Zero) eqn:Ezero;
    injection H as <- <-;
    unfold codeAppend, appendTextureLookup, GLYUVTextureEffect.addUniform;
    cbn [Program.code Program.uniforms
           GLYUVTextureEffect.mat3ColorConversionUniform
           GLYUVTextureEffect.alphaStartUniform
           GLYUVTextureEffect.alphaStartPrev GLYUVTextureEffect.colorSpacePrev];
    (split; [rewrite <- ?app_assoc; eexists; reflexivity |]);
    (split; [rewrite <- ?app_assoc, firstn_app, Nat.sub_diag, firstn_all;
             cbn [firstn]; apply app_nil_r |]);
    (split; [eexists; split; [reflexivity |];
             rewrite <- ?app_assoc, nth_error_app2, Nat.sub_diag by lia;
             reflexivity |]);
    (split; [| split; reflexivity]);
    intros Hnz; try discriminate Hnz;
    eexists; (split; [reflexivity |]);
    (split; [rewrite nth_error_app2, Nat.sub_diag by lia; reflexivity |]);
    rewrite length_app; cbn [List.length]; intros Heq; injection Heq; lia.
Qed.

End EmitCode.

(** ** Applying the uniforms again and again *)

Lemma Point_eqb_refl (a : Point.t) : Point.eqb a a = true.
Proof.
  unfold Point.eqb. apply andb_true_intro.
  split; apply Qeq_bool_iff; reflexivity.
Qed.

Lemma Point_eqb_trans (a b c : Point.t) :
  Point.eqb a b = true -> Point.eqb b c = true -> Point.eqb a c = true.
Proof.
  unfold Point.eqb. intros Hab Hbc.
  apply andb_prop in Hab as [Hx1 Hy1]. apply andb_prop in Hbc as [Hx2 Hy2].
  apply Qeq_bool_iff in Hx1, Hy1, Hx2, Hy2.
  apply andb_true_intro. split; apply Qeq_bool_iff.
  - now rewrite Hx1.
  - now rewrite Hy1.
Qed.

Lemma Point_eqb_sym (a b : Point.t) : Point.eqb a b = true -> Point.eqb b a = true.
Proof.
  unfold Point.eqb. intros Hab. apply andb_prop in Hab as [Hx Hy].
  apply Qeq_bool_iff in Hx, Hy.
  apply andb_true_intro. split; apply Qeq_bool_iff; now symmetry.
Qed.

Lemma YUVColorSpace_eqb_refl (a : YUVColorSpace.t) : YUVColorSpace.eqb a a = true.
Proof. now destruct a. Qed.

Lemma performAll_app (a b : list GLYUVTextureEffect.GLCall) (data : ProgramData) :
  performAll (a ++ b) data = performAll b (performAll a data).
Proof. unfold performAll. apply fold_left_app. Qed.

Lemma handle_eqb_refl (h : UniformHandle) : handle_eqb h h = true.
Proof. now apply handle_eqb_eq. Qed.

Lemma handle_eqb_neq (a b : UniformHandle) : a <> b -> handle_eqb a b = false.
Proof.
  intros Hne. destruct (handle_eqb a b) eqn:E; [| reflexivity].
  apply handle_eqb_eq in E. contradiction.
Qed.

Lemma setAlphaStart_settled (yuvFP : YUVTextureEffect.t) (self : GLYUVTextureEffect.t) :
  isValid (GLYUVTextureEffect.alphaStartUniform self) = false \/
  Point.eqb (YUVTexture.getTextureCoord (YUVTextureEffect.texture yuvFP)
               (Point.x (YUVTextureEffect.alphaStart yuvFP))
               (Point.y (YUVTextureEffect.alphaStart yuvFP)))
            (GLYUVTextureEffect.alphaStartPrev self) = true ->
  GLYUVTextureEffect.setAlphaStart yuvFP self = (self, []).
Proof.
  unfold GLYUVTextureEffect.setAlphaStart.
  intros [Hinvalid | Hsame].
  - now rewrite Hinvalid.
  - rewrite Hsame. now destruct (isValid _).
Qed.

Lemma setColorConversion_settled (yuvFP : YUVTextureEffect.t)
      (self : GLYUVTextureEffect.t) :
  GLYUVTextureEffect.colorSpacePrev self
  = YUVTexture.colorSpace (YUVTextureEffect.texture yuvFP) ->
  GLYUVTextureEffect.setColorConversion yuvFP self = (self, []).
Proof.
  unfold GLYUVTextureEffect.setColorConversion. intros ->.
  now rewrite YUVColorSpace_eqb_refl.
Qed.

Lemma setColorConversion_settles (yuvFP : YUVTextureEffect.t)
      (self : GLYUVTextureEffect.t) :
  let self2 := fst (GLYUVTextureEffect.setColorConversion yuvFP self) in
  GLYUVTextureEffect.colorSpacePrev self2
  = YUVTexture.colorSpace (YUVTextureEffect.texture yuvFP) /\
  GLYUVTextureEffect.alphaStartUniform self2 = GLYUVTextureEffect.alphaStartUniform self /\
  GLYUVTextureEffect.alphaStartPrev self2 = GLYUVTextureEffect.alphaStartPrev self.
Proof.
  unfold GLYUVTextureEffect.setColorConversion.
  destruct (YUVColorSpace.eqb _ (GLYUVTextureEffect.colorSpacePrev self)) eqn:Ehit;
    cbn [negb].
  - apply YUVColorSpace_eqb_eq in Ehit. cbn [fst]. auto.
  - destruct (YUVTexture.colorSpace (YUVTextureEffect.texture yuvFP));
      cbn [fst GLYUVTextureEffect.colorSpacePrev GLYUVTextureEffect.alphaStartUniform
             GLYUVTextureEffect.alphaStartPrev]; auto.
Qed.

(** The first half does not rest on the coordinate being equal to itself:
    it settles as soon as the point it compares is. *)
Lemma setAlphaStart_settles_if (yuvFP : YUVTextureEffect.t)
      (self : GLYUVTextureEffect.t) :
  let coord := YUVTexture.getTextureCoord (YUVTextureEffect.texture yuvFP)
                 (Point.x (YUVTextureEffect.alphaStart yuvFP))
                 (Point.y (YUVTextureEffect.alphaStart yuvFP)) in
  let self1 := fst (GLYUVTextureEffect.setAlphaStart yuvFP self) in
  isValid (GLYUVTextureEffect.alphaStartUniform self) = false \/
  Point.eqb coord coord = true ->
  isValid (GLYUVTextureEffect.alphaStartUniform self1) = false \/
  Point.eqb coord (GLYUVTextureEffect.alphaStartPrev self1) = true.
Proof.
  cbv zeta. unfold GLYUVTextureEffect.setAlphaStart.
  destruct (isValid (GLYUVTextureEffect.alphaStartUniform self)) eqn:Evalid;
    [| now left].
  intros [Hinvalid | Hself]; [discriminate |].
  destruct (Point.eqb _ (GLYUVTextureEffect.alphaStartPrev self)) eqn:Esame;
    cbn [negb fst GLYUVTextureEffect.alphaStartPrev]; right;
    [exact Esame | exact Hself].
Qed.

(** Applying the uniforms of an effect a second time never uploads the
    matrix again and leaves the cached tag as the first application set it.
    When the processor has no alpha start uniform, or the texture coordinate
    of the effect's alpha start point compares equal to itself (in C++,
    neither of its two floats is NaN), the second application uploads nothing
    at all and leaves the processor as the first application left it. *)
Theorem onSetData_twice (yuvFP : YUVTextureEffect.t) (self : GLYUVTextureEffect.t) :
  let coord := YUVTexture.getTextureCoord (YUVTextureEffect.texture yuvFP)
                 (Point.x (YUVTextureEffect.alphaStart yuvFP))
                 (Point.y (YUVTextureEffect.alphaStart yuvFP)) in
  let self1 := fst (GLYUVTextureEffect.onSetData yuvFP self) in
  (matrixUploads (snd (GLYUVTextureEffect.onSetData yuvFP self1)) = [] /\
   GLYUVTextureEffect.colorSpacePrev (fst (GLYUVTextureEffect.onSetData yuvFP self1))
   = GLYUVTextureEffect.colorSpacePrev self1 /\
   GLYUVTextureEffect.colorSpacePrev self1
   = YUVTexture.colorSpace (YUVTextureEffect.texture yuvFP))
  /\ (isValid (GLYUVTextureEffect.alphaStartUniform self) = false \/
      Point.eqb coord coord = true ->
      GLYUVTextureEffect.onSetData yuvFP self1 = (self1, [])).
Proof.
  cbv zeta. unfold GLYUVTextureEffect.onSetData at 2 4 5 6 8 9.
  pose proof (setAlphaStart_settles_if yuvFP self) as Halpha.
  destruct (GLYUVTextureEffect.setAlphaStart yuvFP self) as [self1 calls1].
  pose proof (setColorConversion_settles yuvFP self1) as [Htag [Hu Hprev]].
  destruct (GLYUVTextureEffect.setColorConversion yuvFP self1) as [self2 calls2].
  cbn [fst] in *. cbv zeta in Halpha.
  split.
  - unfold GLYUVTextureEffect.onSetData.
    destruct (setAlphaStart_spec yuvFP self2) as [_ [Hkeep [Hnone _]]].
    destruct (GLYUVTextureEffect.setAlphaStart yuvFP self2) as [self3 calls3].
    cbn [fst snd] in Hkeep, Hnone.
    rewrite setColorConversion_settled by congruence.
    cbn [fst snd]. rewrite app_nil_r. repeat split; assumption.
  - intros Hself. unfold GLYUVTextureEffect.onSetData.
    rewrite setAlphaStart_settled by (rewrite Hu, Hprev; exact (Halpha Hself)).
    now rewrite setColorConversion_settled.
Qed.

Lemma setAlphaStart_calls (yuvFP : YUVTextureEffect.t) (self : GLYUVTextureEffect.t) :
  snd (GLYUVTextureEffect.setAlphaStart yuvFP self) = [] \/
  exists v0 v1,
    snd (GLYUVTextureEffect.setAlphaStart yuvFP self)
    = [GLYUVTextureEffect.Set2f (GLYUVTextureEffect.alphaStartUniform self) v0 v1] /\
    isValid (GLYUVTextureEffect.alphaStartUniform self) = true.
Proof.
  unfold GLYUVTextureEffect.setAlphaStart.
  destruct (isValid (GLYUVTextureEffect.alphaStartUniform self)); [| now left].
  destruct (negb (Point.eqb _ _)); [| now left].
  right. eexists. eexists. split; reflexivity.
Qed.

Lemma setColorConversion_calls (yuvFP : YUVTextureEffect.t)
      (self : GLYUVTextureEffect.t) :
  snd (GLYUVTextureEffect.setColorConversion yuvFP self) = [] \/
  exists matrix,
    snd (GLYUVTextureEffect.setColorConversion yuvFP self)
    = [GLYUVTextureEffect.SetMatrix3f
         (GLYUVTextureEffect.mat3ColorConversionUniform self) matrix] /\
    conversionMatrix (YUVTexture.colorSpace (YUVTextureEffect.texture yuvFP))
    = Some matrix.
Proof.
  unfold GLYUVTextureEffect.setColorConversion.
  destruct (negb (YUVColorSpace.eqb _ _)); [| now left].
  destruct (YUVTexture.colorSpace (YUVTextureEffect.texture yuvFP));
    cbn [snd conversionMatrix GLYUVTextureEffect.mat3ColorConversionUniform];
    first [now left | right; eexists; split; reflexivity].
Qed.

(** [onSetData] makes at most two uploads, and only to the processor's own
    uniforms: a point to a valid alpha start uniform, and the matrix of the
    effect's tag to the conversion matrix uniform. *)
Theorem onSetData_own_uniforms (yuvFP : YUVTextureEffect.t)
        (self : GLYUVTextureEffect.t) :
  let calls := snd (GLYUVTextureEffect.onSetData yuvFP self) in
  (List.length calls <= 2)%nat /\
  forall call,
    In call calls ->
    (exists v0 v1,
        call = GLYUVTextureEffect.Set2f (GLYUVTextureEffect.alphaStartUniform self) v0 v1 /\
        isValid (GLYUVTextureEffect.alphaStartUniform self) = true)
    \/
    (exists matrix,
        call = GLYUVTextureEffect.SetMatrix3f
                 (GLYUVTextureEffect.mat3ColorConversionUniform self) matrix /\
        conversionMatrix (YUVTexture.colorSpace (YUVTextureEffect.texture yuvFP))
        = Some matrix).
Proof.
  cbv zeta. unfold GLYUVTextureEffect.onSetData.
  destruct (setAlphaStart_spec yuvFP self) as [Hmat _].
  pose proof (setAlphaStart_calls yuvFP self) as Hcalls1.
  destruct (GLYUVTextureEffect.setAlphaStart yuvFP self) as [self1 calls1].
  pose proof (setColorConversion_calls yuvFP self1) as Hcalls2.
  destruct (GLYUVTextureEffect.setColorConversion yuvFP self1) as [self2 calls2].
  cbn [fst snd] in *. rewrite Hmat in Hcalls2.
  destruct Hcalls1 as [-> | [v0 [v1 [-> Hvalid]]]];
    destruct Hcalls2 as [-> | [matrix [-> Hmatrix]]];
    cbn [app List.length In]; (split; [lia |]); intros call Hin;
    repeat match goal with
           | H : _ \/ _ |- _ => destruct H as [<- | H]
           | H : False |- _ => contradiction
           end;
    solve [ left; exists v0, v1; split; [reflexivity | exact Hvalid]
          | right; exists matrix; split; [reflexivity | exact Hmatrix] ].
Qed.

(** The cache is sound for the matrix: when the two uniforms of the
    processor are distinct and the program has bound the matrix of the tag
    applied last, then after applying the uniforms of an effect it has bound
    the matrix of the effect's tag, whether or not an upload was made. *)
Theorem onSetData_keeps_matrix_bound (yuvFP : YUVTextureEffect.t)
        (self : GLYUVTextureEffect.t) (data : ProgramData) :
  GLYUVTextureEffect.alphaStartUniform self
  <> GLYUVTextureEffect.mat3ColorConversionUniform self ->
  matrixBound self data ->
  let self' := fst (GLYUVTextureEffect.onSetData yuvFP self) in
  let data' := performAll (snd (GLYUVTextureEffect.onSetData yuvFP self)) data in
  matrixBound self' data' /\
  forall matrix,
    conversionMatrix (YUVTexture.colorSpace (YUVTextureEffect.texture yuvFP))
    = Some matrix ->
    data' (GLYUVTextureEffect.mat3ColorConversionUniform self) = Some (Mat3 matrix).
Proof.
  intros Hdistinct Hbound self' data'.
  assert (GLYUVTextureEffect.mat3ColorConversionUniform self'
          = GLYUVTextureEffect.mat3ColorConversionUniform self /\
          GLYUVTextureEffect.colorSpacePrev self'
          = YUVTexture.colorSpace (YUVTextureEffect.texture yuvFP) /\
          forall matrix,
            conversionMatrix (YUVTexture.colorSpace (YUVTextureEffect.texture yuvFP))
            = Some matrix ->
            data' (GLYUVTextureEffect.mat3ColorConversionUniform self)
            = Some (Mat3 matrix)) as [Hmat' [Hprev' Hnow]].
  { subst self' data'. unfold GLYUVTextureEffect.onSetData.
    destruct (setAlphaStart_spec yuvFP self) as [Hmat [Hprev [_ Hkeep]]].
    destruct (GLYUVTextureEffect.setAlphaStart yuvFP self) as [self1 calls1].
    cbn [fst snd] in Hmat, Hprev, Hkeep.
    unfold GLYUVTextureEffect.setColorConversion.
    set (tag := YUVTexture.colorSpace _). rewrite Hprev, Hmat.
    destruct (YUVColorSpace.eqb tag (GLYUVTextureEffect.colorSpacePrev self)) eqn:Ehit;
      cbn [negb].
    - apply YUVColorSpace_eqb_eq in Ehit. cbn [fst snd].
      split; [exact Hmat |]. split; [congruence |].
      intros matrix Hm. rewrite app_nil_r, Hkeep by congruence.
      apply Hbound. now rewrite <- Ehit.
    - destruct tag eqn:Etag;
        cbn [fst snd GLYUVTextureEffect.mat3ColorConversionUniform
               GLYUVTextureEffect.colorSpacePrev conversionMatrix];
        (split; [reflexivity |]); (split; [reflexivity |]);
        intros matrix Hm; try discriminate Hm; injection Hm as <-;
        rewrite performAll_app; cbn [performAll fold_left perform];
        now rewrite handle_eqb_refl. }
  split; [| exact Hnow].
  intros matrix Hm. rewrite Hmat'. apply Hnow. now rewrite <- Hprev'.
Qed.

Lemma setAlphaStart_valid (yuvFP : YUVTextureEffect.t) (self : GLYUVTextureEffect.t) :
  isValid (GLYUVTextureEffect.alphaStartUniform self) = true ->
  let coord := YUVTexture.getTextureCoord (YUVTextureEffect.texture yuvFP)
                 (Point.x (YUVTextureEffect.alphaStart yuvFP))
                 (Point.y (YUVTextureEffect.alphaStart yuvFP)) in
  let self1 := fst (GLYUVTextureEffect.setAlphaStart yuvFP self) in
  let calls1 := snd (GLYUVTextureEffect.setAlphaStart yuvFP self) in
  GLYUVTextureEffect.alphaStartUniform self1 = GLYUVTextureEffect.alphaStartUniform self /\
  ((Point.eqb coord (GLYUVTextureEffect.alphaStartPrev self) = true /\
    GLYUVTextureEffect.alphaStartPrev self1 = GLYUVTextureEffect.alphaStartPrev self /\
    calls1 = [])
   \/
   (GLYUVTextureEffect.alphaStartPrev self1 = coord /\
    calls1 = [GLYUVTextureEffect.Set2f (GLYUVTextureEffect.alphaStartUniform self)
                                       (Point.x coord) (Point.y coord)])).
Proof.
  intros Hvalid. unfold GLYUVTextureEffect.setAlphaStart. rewrite Hvalid.
  destruct (Point.eqb _ (GLYUVTextureEffect.alphaStartPrev self)) eqn:Esame;
    cbn [negb fst snd GLYUVTextureEffect.alphaStartUniform
           GLYUVTextureEffect.alphaStartPrev];
    (split; [reflexivity |]); [left | right]; auto.
Qed.

(** The cache is sound for the alpha start point as well: with a valid
    alpha start uniform, distinct from the matrix uniform, and the point
    applied last bound to it, after applying the uniforms of an effect the
    program has bound the texture coordinate of the effect's alpha start
    point (up to equality of rationals). *)
Theorem onSetData_keeps_alpha_bound (yuvFP : YUVTextureEffect.t)
        (self : GLYUVTextureEffect.t) (data : ProgramData) :
  GLYUVTextureEffect.alphaStartUniform self
  <> GLYUVTextureEffect.mat3ColorConversionUniform self ->
  isValid (GLYUVTextureEffect.alphaStartUniform self) = true ->
  alphaBound self data ->
  let self' := fst (GLYUVTextureEffect.onSetData yuvFP self) in
  let data' := performAll (snd (GLYUVTextureEffect.onSetData yuvFP self)) data in
  alphaBound self' data' /\
  exists v0 v1,
    data' (GLYUVTextureEffect.alphaStartUniform self) = Some (Vec2 v0 v1) /\
    Point.eqb (Point.make v0 v1)
              (YUVTexture.getTextureCoord (YUVTextureEffect.texture yuvFP)
                 (Point.x (YUVTextureEffect.alphaStart yuvFP))
                 (Point.y (YUVTextureEffect.alphaStart yuvFP))) = true.
Proof.
  intros Hdistinct Hvalid Hbound self' data'.
  destruct (Hbound Hvalid) as [w0 [w1 [Hdata Hprev]]].
  subst self' data'. unfold GLYUVTextureEffect.onSetData.
  destruct (setAlphaStart_spec yuvFP self) as [Hmat _].
  pose proof (setAlphaStart_valid yuvFP self Hvalid) as [Hu1 Hcases].
  destruct (GLYUVTextureEffect.setAlphaStart yuvFP self) as [self1 calls1].
  pose proof (setColorConversion_settles yuvFP self1) as [_ [Hu2 Hprev2]].
  pose proof (setColorConversion_calls yuvFP self1) as Hcalls2.
  destruct (GLYUVTextureEffect.setColorConversion yuvFP self1) as [self2 calls2].
  cbn [fst snd] in *. cbv zeta in Hcases.
  set (coord := YUVTexture.getTextureCoord _ _ _) in *.
  rewrite Hmat in Hcalls2.
  assert (performAll (calls1 ++ calls2) data (GLYUVTextureEffect.alphaStartUniform self)
          = performAll calls1 data (GLYUVTextureEffect.alphaStartUniform self)) as Huntouched.
  { destruct Hcalls2 as [-> | [matrix [-> _]]]; [now rewrite app_nil_r |].
    rewrite performAll_app. cbn [performAll fold_left perform].
    rewrite handle_eqb_neq; [reflexivity | congruence]. }
  assert (exists v0 v1,
             performAll calls1 data (GLYUVTextureEffect.alphaStartUniform self)
             = Some (Vec2 v0 v1) /\
             Point.eqb (Point.make v0 v1) (GLYUVTextureEffect.alphaStartPrev self1) = true /\
             Point.eqb (Point.make v0 v1) coord = true) as [v0 [v1 [Hd [Hp Hc]]]].
  { destruct Hcases as [[Hsame [Hprev1 ->]] | [Hprev1 ->]].
    - exists w0, w1. cbn [performAll fold_left]. rewrite Hprev1.
      split; [exact Hdata |]. split; [exact Hprev |].
      apply (Point_eqb_trans _ _ _ Hprev). now apply Point_eqb_sym.
    - exists (Point.x coord), (Point.y coord).
      cbn [performAll fold_left perform]. rewrite handle_eqb_refl, Hprev1.
      split; [reflexivity |]. destruct coord; split; apply Point_eqb_refl. }
  split.
  - intros _. exists v0, v1. rewrite Hu2, Hu1, Hprev2, Huntouched. auto.
  - exists v0, v1. rewrite Huntouched. auto.
Qed.

(** ** The effect of the sample, emitted and applied *)

Lemma emitCode_needs_samplers_witness :
  exists out,
    GLYUVTextureEffect.emitCode (fun name => (name ++ "_P0")%string)
      (Sample.args (Point.make 0 (1 # 2))) (Sample.processor YUVColorSpace.Unknown)
      (Program.make [] []) = Done out.
Proof.
  apply (proj2 (emitCode_needs_samplers (fun name => (name ++ "_P0")%string)
                  (Sample.args (Point.make 0 (1 # 2)))
                  (Sample.processor YUVColorSpace.Unknown) (Program.make [] []))).
  split; simpl; lia.
Defined.

Lemma emitCode_lookups_witness :
  exists self' p',
    GLYUVTextureEffect.emitCode (fun name => (name ++ "_P0")%string)
      (Sample.args (Point.make 0 (1 # 2))) (Sample.processor YUVColorSpace.Unknown)
      (Program.make [] []) = Done (self', p') /\
    lookups (Program.code p')
    = [("TextureSampler_0", "vertexColor"); ("TextureSampler_1", "vertexColor");
       ("TextureSampler_2", "vertexColor"); ("TextureSampler_0", "alphaVertexColor")]%string.
Proof.
  assert (exists self' p',
             GLYUVTextureEffect.emitCode (fun name => (name ++ "_P0")%string)
               (Sample.args (Point.make 0 (1 # 2)))
               (Sample.processor YUVColorSpace.Unknown)
               (Program.make [] []) = Done (self', p')) as [self' [p' H]].
  { eexists. eexists. vm_compute. reflexivity. }
  exists self', p'. split; [exact H |].
  destruct (emitCode_lookups _ _ _ _ _ _ H) as [s0 [c0 [Hs0 [Hc0 Hlookups]]]].
  cbn in Hs0, Hc0. injection Hs0 as <-. injection Hc0 as <-.
  exact Hlookups.
Defined.

Lemma emitCode_handles_witness :
  exists self' p',
    GLYUVTextureEffect.emitCode (fun name => (name ++ "_P0")%string)
      (Sample.args (Point.make 0 (1 # 2))) (Sample.processor YUVColorSpace.Unknown)
      (Program.make [] []) = Done (self', p') /\
    (exists i,
        GLYUVTextureEffect.mat3ColorConversionUniform self' = Some i /\
        nth_error (Program.uniforms p') i = Some (Float3x3, "Mat3ColorConversion"%string)) /\
    (exists j,
        GLYUVTextureEffect.alphaStartUniform self' = Some j /\
        nth_error (Program.uniforms p') j = Some (Float2, "AlphaStart"%string) /\
        GLYUVTextureEffect.alphaStartUniform self'
        <> GLYUVTextureEffect.mat3ColorConversionUniform self').
Proof.
  assert (exists self' p',
             GLYUVTextureEffect.emitCode (fun name => (name ++ "_P0")%string)
               (Sample.args (Point.make 0 (1 # 2)))
               (Sample.processor YUVColorSpace.Unknown)
               (Program.make [] []) = Done (self', p')) as [self' [p' H]].
  { eexists. eexists. vm_compute. reflexivity. }
  exists self', p'. split; [exact H |].
  destruct (emitCode_handles _ _ _ _ _ _ H) as [_ [_ [Hmat [Halpha _]]]].
  split; [exact Hmat |]. apply Halpha. reflexivity.
Defined.

Lemma onSetData_own_uniforms_witness :
  (exists v0 v1,
      GLYUVTextureEffect.SetMatrix3f (Some 0%nat)
        GLYUVTextureEffect.ColorConversion709LimitRange
      = GLYUVTextureEffect.Set2f None v0 v1 /\ isValid None = true)
  \/
  (exists matrix,
      GLYUVTextureEffect.SetMatrix3f (Some 0%nat)
        GLYUVTextureEffect.ColorConversion709LimitRange
      = GLYUVTextureEffect.SetMatrix3f (Some 0%nat) matrix /\
      conversionMatrix YUVColorSpace.BT709_LIMITED = Some matrix).
Proof.
  apply (proj2 (onSetData_own_uniforms
                  (Sample.effect YUVColorSpace.BT709_LIMITED Point.Zero)
                  (Sample.processor YUVColorSpace.Unknown))
               (GLYUVTextureEffect.SetMatrix3f (Some 0%nat)
                  GLYUVTextureEffect.ColorConversion709LimitRange)).
  left. reflexivity.
Defined.

Lemma onSetData_twice_witness :
  let yuvFP := Sample.effect YUVColorSpace.BT709_LIMITED (Point.make 0 (1 # 2)) in
  let self := GLYUVTextureEffect.make (Some 1%nat) (Some 0%nat)
                                      (Point.make (-1) (-1)) YUVColorSpace.Unknown in
  List.length (snd (GLYUVTextureEffect.onSetData yuvFP self)) = 2%nat /\
  GLYUVTextureEffect.onSetData yuvFP (fst (GLYUVTextureEffect.onSetData yuvFP self))
  = (fst (GLYUVTextureEffect.onSetData yuvFP self), []).
Proof.
  split; [reflexivity |].
  apply (proj2 (onSetData_twice
                  (Sample.effect YUVColorSpace.BT709_LIMITED (Point.make 0 (1 # 2)))
                  (GLYUVTextureEffect.make (Some 1%nat) (Some 0%nat)
                                           (Point.make (-1) (-1)) YUVColorSpace.Unknown))).
  right. reflexivity.
Defined.

Lemma onSetData_keeps_matrix_bound_witness :
  let yuvFP := Sample.effect YUVColorSpace.BT601_LIMITED (Point.make 0 (1 # 2)) in
  let self := GLYUVTextureEffect.make (Some 1%nat) (Some 0%nat)
                                      (Point.make (-1) (-1))
                                      YUVColorSpace.BT601_LIMITED in
  let data := fun h : UniformHandle =>
                if handle_eqb h (Some 0%nat)
                then Some (Mat3 GLYUVTextureEffect.ColorConversion601LimitRange)
                else None in
  matrixUploads (snd (GLYUVTextureEffect.onSetData yuvFP self)) = [] /\
  List.length (snd (GLYUVTextureEffect.onSetData yuvFP self)) = 1%nat /\
  performAll (snd (GLYUVTextureEffect.onSetData yuvFP self)) data (Some 0%nat)
  = Some (Mat3 GLYUVTextureEffect.ColorConversion601LimitRange).
Proof.
  split; [reflexivity |]. split; [reflexivity |].
  apply (proj2 (onSetData_keeps_matrix_bound
                  (Sample.effect YUVColorSpace.BT601_LIMITED (Point.make 0 (1 # 2)))
                  (GLYUVTextureEffect.make (Some 1%nat) (Some 0%nat)
                                           (Point.make (-1) (-1))
                                           YUVColorSpace.BT601_LIMITED)
                  (fun h : UniformHandle =>
                     if handle_eqb h (Some 0%nat)
                     then Some (Mat3 GLYUVTextureEffect.ColorConversion601LimitRange)
                     else None)
                  ltac:(discriminate)
                  ltac:(intros matrix Hm; injection Hm as <-; reflexivity))).
  reflexivity.
Defined.

Lemma onSetData_keeps_alpha_bound_witness :
  exists v0 v1,
    performAll
      (snd (GLYUVTextureEffect.onSetData
              (Sample.effect YUVColorSpace.BT709_LIMITED (Point.make 0 (1 # 2)))
              (GLYUVTextureEffect.make (Some 1%nat) (Some 0%nat)
                                       (Point.make (-1) (-1)) YUVColorSpace.Unknown)))
      (fun h => if handle_eqb h (Some 1%nat) then Some (Vec2 (-1) (-1)) else None)
      (Some 1%nat)
    = Some (Vec2 v0 v1) /\
    Point.eqb (Point.make v0 v1) (Point.make 0 (1 # 2)) = true.
Proof.
  apply (proj2 (onSetData_keeps_alpha_bound
                  (Sample.effect YUVColorSpace.BT709_LIMITED (Point.make 0 (1 # 2)))
                  (GLYUVTextureEffect.make (Some 1%nat) (Some 0%nat)
                                           (Point.make (-1) (-1)) YUVColorSpace.Unknown)
                  (fun h => if handle_eqb h (Some 1%nat)
                            then Some (Vec2 (-1) (-1)) else None)
                  ltac:(discriminate) eq_refl
                  ltac:(intros _; exists (-1)%Q, (-1)%Q; split; reflexivity))).
Defined.

(** * Where a failing replay stops *)

Section Failure.

Variable makeFrom : list byte -> option ImageCodec.t.
Variable info : ImageInfo.t.

Lemma stoppedAt_after (evs1 evs2 : list Event) (all1 all2 : list (list byte)) :
  existsb isFailedRead evs1 = false ->
  decodes evs1 = all1 ->
  stoppedAt evs2 all2 ->
  stoppedAt (evs1 ++ evs2) (all1 ++ all2).
Proof.
  intros Hclean Hdec [[pre [offset [-> Hpre]]] [rest ->]]. split.
  - exists (evs1 ++ pre), offset. split; [now rewrite app_assoc |].
    now rewrite existsb_app, Hclean, Hpre.
  - exists rest. now rewrite !decodes_app, Hdec, !app_assoc.
Qed.

Lemma replayBitmaps_stops (isKeyframe : bool) (bitmaps : list BitmapRect.t) :
  forall firstRead mem,
    ok (replayBitmaps makeFrom info isKeyframe bitmaps firstRead mem) = false ->
    stoppedAt (events (replayBitmaps makeFrom info isKeyframe bitmaps firstRead mem))
              (map BitmapRect.fileBytes bitmaps).
Proof.
  induction bitmaps as [| rect rest IH]; intros firstRead mem; [discriminate |].
  destruct (makeFrom (BitmapRect.fileBytes rect)) as [codec |] eqn:E.
  - step_codec codec info E; cbn [ok events after map]; intros Hok.
    + apply (stoppedAt_after _ _ [BitmapRect.fileBytes rect]);
        [now destruct (firstRead && isKeyframe && _)
        | now destruct (firstRead && isKeyframe && _)
        | now apply IH].
    + split.
      * exists (MakeFrom (BitmapRect.fileBytes rect)
                  :: (if firstRead && isKeyframe
                         && negb ((ImageCodec.width codec =? ImageInfo.width info)
                                  && (ImageCodec.height codec =? ImageInfo.height info))
                      then [EraseAll] else [])),
          (patchOffset info rect).
        split; [reflexivity |]. now destruct (firstRead && isKeyframe && _).
      * exists (map BitmapRect.fileBytes rest).
        now destruct (firstRead && isKeyframe && _).
  - cbn [replayBitmaps]. rewrite E. cbn [ok events after map]. intros Hok.
    apply (stoppedAt_after [MakeFrom (BitmapRect.fileBytes rect)] _
             [BitmapRect.fileBytes rect]); [reflexivity | reflexivity | now apply IH].
Qed.

Lemma replayFrames_stops (bitmapFrames : list BitmapFrame.t) (n : nat) :
  forall frame mem r,
    replayFrames makeFrom bitmapFrames info n frame mem = Done r ->
    ok r = false ->
    stoppedAt (events r)
              (patchBytes (firstn n (skipn (Z.to_nat frame) bitmapFrames))).
Proof.
  induction n as [| k IH]; intros frame mem r H Hok.
  - injection H as <-. discriminate.
  - destruct (replayFrames_step _ _ _ _ _ _ _ H)
      as [bf [Hbf [[Hko ->] | [Hok1 [r' [Hr' ->]]]]]];
      pose proof (frameAt_Some_range _ _ _ Hbf) as Hrange;
      rewrite <- (Z2Nat.id frame) in Hbf by lia;
      rewrite frameAt_of_nat in Hbf;
      rewrite (skipn_nth_error_cons _ _ _ Hbf);
      cbn [firstn patchBytes flat_map].
    + destruct (replayBitmaps_stops _ _ _ _ Hko) as [Hshape [rest Hrest]].
      split; [exact Hshape |].
      eexists. rewrite Hrest, <- app_assoc. reflexivity.
    + cbn [events after ok] in *.
      apply stoppedAt_after.
      * rewrite replayBitmaps_failed_read, Hok1. reflexivity.
      * now apply replayBitmaps_decodes.
      * replace (S (Z.to_nat frame)) with (Z.to_nat (frame + 1)) by lia.
        now apply (IH _ _ _ Hr').
Qed.

End Failure.

(** A call that replays and returns no result stopped at the pixel read
    that failed: it is the last event of the trace and the only failed read,
    and the codec was asked for a first part of the patches of the frames
    from the start frame to the target, in order, and for nothing after. *)
Theorem onMakeBuffer_stops_at_failure (makeFrom : list byte -> option ImageCodec.t)
        (targetFrame : Frame) (rd : BitmapSequenceReader.t) (pb : PixelBuffer.t)
        (call : Call) (startFrame : Frame) :
  pixelBuffer rd = Some pb ->
  lastDecodeFrame rd <> targetFrame ->
  findStartFrame rd targetFrame = Done startFrame ->
  onMakeBuffer makeFrom targetFrame rd = Done call ->
  result call = None ->
  (exists pre offset,
      trace call = pre ++ [ReadPixels offset false] /\
      existsb isFailedRead pre = false) /\
  exists rest,
    patchBytes (framesBetween (BitmapSequence.frames (sequence rd))
                              startFrame targetFrame)
    = decodes (trace call) ++ rest.
Proof.
  intros Hpb Hlast Hstart Hcall Hres.
  unfold onMakeBuffer in Hcall.
  destruct (Z.eqb_spec (lastDecodeFrame rd) targetFrame) as [| _]; [contradiction |].
  rewrite Hpb, Hstart in Hcall. cbn [bindRun] in Hcall.
  destruct (replayFrames makeFrom _ _ _ startFrame _) as [r |] eqn:Hr;
    [| discriminate].
  cbn [bindRun] in Hcall.
  destruct (ok r) eqn:Hok; injection Hcall as <-; cbn [result trace] in *;
    [discriminate |].
  destruct (replayFrames_stops makeFrom _ _ _ _ _ _ Hr Hok)
    as [[pre [offset [Hev Hpre]]] [rest Hrest]].
  split.
  - exists (SetLastDecodeFrame (-1) :: pre), offset. rewrite Hev. split; [reflexivity |].
    exact Hpre.
  - exists rest. unfold framesBetween. rewrite Hrest. reflexivity.
Qed.


Lemma onMakeBuffer_stops_at_failure_witness :
  exists call,
    onMakeBuffer Sample.makeFrom 0 (Sample.fresh Sample.damaged) = Done call /\
    (exists pre offset,
        trace call = pre ++ [ReadPixels offset false] /\
        existsb isFailedRead pre = false) /\
    exists rest,
      patchBytes (framesBetween (BitmapSequence.frames Sample.damaged) 0 0)
      = decodes (trace call) ++ rest.
Proof.
  assert (exists call,
             onMakeBuffer Sample.makeFrom 0 (Sample.fresh Sample.damaged) = Done call /\
             result call = None) as [call [H Hres]].
  { eexists. split; vm_compute; reflexivity. }
  exists call. split; [exact H |].
  apply (onMakeBuffer_stops_at_failure Sample.makeFrom 0
           (Sample.fresh Sample.damaged)
           (PixelBuffer.make Sample.info (eraseAll (PixelBuffer.pixels Sample.canvas)))
           call 0); try reflexivity; try assumption; try discriminate.
Defined.
